(** * Neural-network pair styles of LAMMPS (pair_nn, pair_nn_angular2)

    A shallow embedding of the evaluator in [src/pair_nn_angular2.cpp]
    (class [PairNNAngular2]) and of its pair-only sibling [PairNN]:
    cutoff envelope, symmetry functions, the feed-forward network with its
    cached activations, the hand-written back-propagation, the force
    assembly of [compute], and the parameter loader [read_file].

    Conventions of the embedding.
    - A C++ [double] is a real number of [R]: the statements below are about
      the arithmetic the code writes down, not about rounding, overflow or
      division by zero.  An [int] that counts is a [nat]; an atom ID
      ([tagint]) is a [Z].
    - An [arma::mat] holding one row is a [list R]; a weight matrix is the
      list of its rows.  Armadillo aborts on a product or a sum of
      mismatched shapes; the operations below are total, and every
      statement that multiplies matrices carries the shape conditions under
      which Armadillo does not abort.
    - A [std::vector] indexed with [operator[]] is a list read with [!!!] and
      written with [<[i:=v]>]; the C++ is undefined outside the vector, the
      statements keep every index inside.
    - Class fields that [network] and [backPropagation] mutate across calls
      are threaded explicitly as a record. *)

From Stdlib Require Import Reals Lra Lia List ZArith Permutation Bool String.
From stdpp Require Import base list.

Open Scope R_scope.

(** ** Dense rows and matrices (the part of Armadillo the code uses) *)

Module Arma.

Abbreviation row := (list R).
Abbreviation mat := (list (list R)).

#[global] Instance R_inhabited : Inhabited R := populate 0.

Definition n_rows (A : mat) : nat := length A.
Definition n_cols (A : mat) : nat := length (hd [] A).

(** [A(i,j)] *)
Definition at2 (A : mat) (i j : nat) : R := nth j (nth i A []) 0.

(** [sum_{k<n} f k], the inner loop of a matrix product. *)
Fixpoint big_sum (n : nat) (f : nat -> R) : R :=
  match n with
  | O => 0
  | S k => big_sum k f + f k
  end.

(** [x * W] for a [1 x r] row [x] and an [r x c] matrix [W]. *)
Definition row_mul (x : row) (W : mat) : row :=
  map (fun j => big_sum (length x) (fun k => nth k x 0 * at2 W k j))
      (seq 0 (n_cols W)).

(** [a + b], elementwise. *)
Definition row_add (a b : row) : row := zip_with Rplus a b.

(** [a % b], the elementwise (Schur) product. *)
Definition schur (a b : row) : row := zip_with Rmult a b.

(** [W.t()] *)
Definition transpose (W : mat) : mat :=
  map (fun j => map (fun i => at2 W i j) (seq 0 (n_rows W)))
      (seq 0 (n_cols W)).

(** [arma::accu] *)
Definition accu (a : row) : R := fold_right Rplus 0 a.

(** Comparisons of two [double]s as booleans. *)
Definition Rltb (a b : R) : bool := if Rlt_dec a b then true else false.
Definition Reqb (a b : R) : bool := if Req_dec_T a b then true else false.

(** An [r x c] matrix: [r] rows, each of [c] entries. *)
Definition shape (W : mat) (r c : nat) : Prop :=
  length W = r /\ Forall (fun rw => length rw = c) W.

End Arma.

Import Arma.

(** ** PairNNAngular2 *)

Module PairNNAngular2.

(** *** The network and its caches *)

(** The fields of the class that [network] and [backPropagation] use. *)
Record Net : Type := mkNet {
  m_nLayers : nat;
  m_weights : list mat;
  m_weightsTransposed : list mat;
  m_biases : list row;
  m_preActivations : list row;
  m_activations : list row;
  m_derivatives : list row
}.

Definition set_preActivation (st : Net) (i : nat) (v : row) : Net :=
  mkNet (m_nLayers st) (m_weights st) (m_weightsTransposed st) (m_biases st)
        (<[i:=v]> (m_preActivations st)) (m_activations st) (m_derivatives st).

Definition set_activation (st : Net) (i : nat) (v : row) : Net :=
  mkNet (m_nLayers st) (m_weights st) (m_weightsTransposed st) (m_biases st)
        (m_preActivations st) (<[i:=v]> (m_activations st)) (m_derivatives st).

Definition set_derivative (st : Net) (i : nat) (v : row) : Net :=
  mkNet (m_nLayers st) (m_weights st) (m_weightsTransposed st) (m_biases st)
        (m_preActivations st) (m_activations st) (<[i:=v]> (m_derivatives st)).

(** [1.0/(1 + exp(-x))] on one entry. *)
Definition sigmoid1 (x : R) : R := 1 / (1 + exp (- x)).

(** [sigmoid(arma::mat)]: [1.0/(1 + arma::exp(-matrix))]. *)
Definition sigmoid (matrix : row) : row := map sigmoid1 matrix.

(** [sigmoidDerivative]: [s % (1 - s)] with [s = sigmoid(matrix)]. *)
Definition sigmoidDerivative (matrix : row) : row :=
  let sigmoidMatrix := sigmoid matrix in
  schur sigmoidMatrix (map (fun s => 1 - s) sigmoidMatrix).

(** Body of the hidden-layer loop of [network] at index [i]. *)
Definition network_layer (st : Net) (i : nat) : Net :=
  let st1 :=
    set_preActivation st (i + 1)
      (row_add (row_mul (m_activations st !!! i) (m_weights st !!! i))
               (m_biases st !!! i)) in
  set_activation st1 (i + 1) (sigmoid (m_preActivations st1 !!! (i + 1)%nat)).

(** [double network(arma::mat inputVector)]: the returned scalar and the
    class fields as the call leaves them. *)
Definition network (st : Net) (inputVector : row) : R * Net :=
  let n := m_nLayers st in
  let st := set_preActivation st 0 inputVector in
  let st := set_activation st 0 (m_preActivations st !!! 0%nat) in
  let st := fold_left network_layer (seq 0 n) st in
  let st :=
    set_preActivation st (n + 1)
      (row_add (row_mul (m_activations st !!! n) (m_weights st !!! n))
               (m_biases st !!! n)) in
  let st := set_activation st (n + 1) (m_preActivations st !!! (n + 1)%nat) in
  (nth 0 (m_activations st !!! (n + 1)%nat) 0, st).

(** Body of the backward loop of [backPropagation] at index [i]. *)
Definition backPropagation_layer (st : Net) (i : nat) : Net :=
  set_derivative st i
    (schur (row_mul (m_derivatives st !!! (i + 1)%nat)
                    (m_weightsTransposed st !!! i))
           (sigmoidDerivative (m_preActivations st !!! i))).

(** [arma::mat backPropagation()]: the loop runs [i = m_nLayers, ..., 1]. *)
Definition backPropagation (st : Net) : row * Net :=
  let n := m_nLayers st in
  let st := set_derivative st (n + 1) [1] in
  let st := fold_left backPropagation_layer (rev (seq 1 n)) st in
  let st :=
    set_derivative st 0
      (row_mul (m_derivatives st !!! 1%nat) (m_weightsTransposed st !!! 0%nat)) in
  (m_derivatives st !!! 0%nat, st).

(** *** Envelope, symmetry functions and their derivatives *)

(** A [double[3]]: a displacement or a force. *)
Record V3 : Type := mkV3 { c0 : R; c1 : R; c2 : R }.

#[global] Instance V3_inhabited : Inhabited V3 := populate (mkV3 0 0 0).

Definition V3_add (a b : V3) : V3 := mkV3 (c0 a + c0 b) (c1 a + c1 b) (c2 a + c2 b).
Definition V3_sub (a b : V3) : V3 := mkV3 (c0 a - c0 b) (c1 a - c1 b) (c2 a - c2 b).
Definition V3_scale (k : R) (a : V3) : V3 := mkV3 (k * c0 a) (k * c1 a) (k * c2 a).
Definition V3_zero : V3 := mkV3 0 0 0.

Section Code.

(** Declared outside these sources: the constant [m_pi] of the class
    header, libm's [pow], and the [NEIGHMASK] of [lmptype.h]. *)
Variable m_pi : R.
Variable pow : R -> R -> R.
Variable NEIGHMASK : Z.

(** [arma::mat Fc(arma::mat R, double Rc, bool cut)] *)
Definition Fc_mat (Rs : row) (Rc : R) (cut : bool) : row :=
  map (fun r =>
         let value := 0.5 * (cos (m_pi * r / Rc) + 1) in
         if cut then (if Rgt_dec r Rc then 0 else value) else value) Rs.

(** [double Fc(double R, double Rc)] *)
Definition Fc (r Rc : R) : R :=
  if Rlt_dec r Rc then 0.5 * (cos (m_pi * r / Rc) + 1) else 0.

(** [arma::mat dFcdR(arma::mat R, double Rc, bool cut)] *)
Definition dFcdR_mat (Rs : row) (Rc : R) (cut : bool) : row :=
  let Rcinv := 1 / Rc in
  map (fun r =>
         let value := - (0.5 * m_pi * Rcinv) * sin (m_pi * r * Rcinv) in
         if cut then (if Rgt_dec r Rc then 0 else value) else value) Rs.

(** [double dFcdR(double R, double Rc)] *)
Definition dFcdR (r Rc : R) : R :=
  if Rlt_dec r Rc then
    let Rcinv := 1 / Rc in - (0.5 * m_pi * Rcinv) * sin (m_pi * r * Rcinv)
  else 0.

(** [double G2(double rij, double eta, double Rc, double Rs)] *)
Definition G2 (rij eta Rc Rs : R) : R :=
  exp (- eta * (rij - Rs) * (rij - Rs)) * Fc rij Rc.

(** [void dG2dR(arma::mat Rij, ..., arma::mat &dG2)]: the unclamped
    envelope ([cut = false]) and its derivative, entry by entry. *)
Definition dG2dR (Rij : row) (eta Rc Rs : R) : row :=
  schur (map (fun r => exp (- eta * (r - Rs) * (r - Rs))) Rij)
        (row_add (schur (map (fun r => 2 * eta * (Rs - r)) Rij) (Fc_mat Rij Rc false))
                 (dFcdR_mat Rij Rc false)).

(** [double G5(rij, rik, cosTheta, eta, Rc, zeta, lambda)] *)
Definition G5 (rij rik cosTheta eta Rc zeta lambda : R) : R :=
  pow 2 (1 - zeta) *
  pow (1 + lambda * cosTheta) zeta *
  exp (- eta * (rij * rij + rik * rik)) *
  Fc rij Rc * Fc rik Rc.

(** [void dG5dR(..., double *dGij, double *dGik)]: the two output arrays. *)
Definition dG5dR (xij yij zij xik yik zik Rij Rik cosTheta eta Rc zeta lambda : R)
  : V3 * V3 :=
  let powCosThetaM1 := pow 2 (1 - zeta) * pow (1 + lambda * cosTheta) (zeta - 1) in
  let F1 := powCosThetaM1 * (1 + lambda * cosTheta) in
  let F2 := exp (- eta * (Rij * Rij + Rik * Rik)) in
  let FcRij := Fc Rij Rc in
  let FcRik := Fc Rik Rc in
  let F3 := FcRij * FcRik in
  let K := lambda * zeta * powCosThetaM1 in
  let L := 2 * eta * F2 in
  let Mij := dFcdR Rij Rc in
  let Mik := dFcdR Rik Rc in
  let term1 := K * F2 * F3 in
  let term2 := F1 * L * F3 in
  let F1F2 := F1 * F2 in
  let term3ij := F1F2 * Mij * FcRik in
  let term3ik := F1F2 * Mik * FcRij in
  let RijInv := 1 / Rij in
  let cosRijInv2 := cosTheta * RijInv * RijInv in
  let RikInv := 1 / Rik in
  let cosRikInv2 := cosTheta * RikInv * RikInv in
  let RijRikInv := RijInv * RikInv in
  let termij := (cosRijInv2 * term1) + term2 - RijInv * term3ij in
  let termik := (cosRikInv2 * term1) + term2 - RikInv * term3ik in
  let crossTerm := - term1 * RijRikInv in
  (mkV3 (- xij * termij - xik * crossTerm)
        (- yij * termij - yik * crossTerm)
        (- zij * termij - zik * crossTerm),
   mkV3 (- xik * termik - xij * crossTerm)
        (- yik * termik - yij * crossTerm)
        (- zik * termik - zij * crossTerm)).

(** *** compute *)

(** The settings that [read_file] and [coeff] leave in the class. *)
Record Style : Type := mkStyle {
  cutoff : R;
  m_numberOfSymmFunc : nat;
  m_parameters : list (list R);
  m_shift : bool;
  m_allMeans : list R
}.

(** What [compute] reads of the simulation: positions [atom->x], the owned
    atoms [list->ilist] and the full neighbour lists [list->firstneigh]
    (with [numneigh[i]] the length of [firstneigh[i]]). *)
Record Atoms : Type := mkAtoms {
  atom_x : list V3;
  ilist : list nat;
  firstneigh : list (list Z)
}.

(** What [compute] writes: forces [atom->f], the energy accumulator
    [eng_vdwl], the network caches and the step counter. *)
Record Sim : Type := mkSim {
  atom_f : list V3;
  eng_vdwl : R;
  net : Net;
  myStep : Z
}.

(** One triplet [(i,j,k)] as the inner loop stores it, column [m] of
    [driks[l]], [Riks[l]], [cosThetas[l]], [Rjks[l]], [drjks[l]] and entry
    [m] of [tagsk[l]]. *)
Record Triplet : Type := mkTriplet {
  tagk : nat;
  drik : V3;
  Rik : R;
  cosTheta : R;
  Rjk : R;
  drjk : V3
}.

(** One pair [(i,j)] within the cutoff: column [l] of [drij] and [Rij],
    entry [l] of [tagsj], and its triplets. *)
Record Neighbour : Type := mkNeighbour {
  tagj : nat;
  drij : V3;
  Rij : R;
  triplets : list Triplet
}.

(** [j &= NEIGHMASK] *)
Definition mask (j : Z) : nat := Z.to_nat (Z.land j NEIGHMASK).

Definition rsq (del : V3) : R := c0 del * c0 del + c1 del * c1 del + c2 del * c2 del.

Definition dot (a b : V3) : R := c0 a * c0 b + c1 a * c1 b + c2 a * c2 b.

(** The loop [for s < m_numberOfSymmFunc: if m_parameters[s].size() == arity
    then inputVector(0,s) += G(m_parameters[s])]. *)
Definition add_symmetry (sty : Style) (arity : nat) (G : list R -> R)
           (inputVector : row) : row :=
  fold_left
    (fun inp s =>
       if Nat.eqb (length (m_parameters sty !!! s)) arity
       then <[s := nth s inp 0 + G (m_parameters sty !!! s)]> inp
       else inp)
    (seq 0 (m_numberOfSymmFunc sty)) inputVector.

Definition G2_of (rij : R) (p : list R) : R :=
  G2 rij (p !!! 0%nat) (p !!! 1%nat) (p !!! 2%nat).

Definition G5_of (rij rik cosTheta : R) (p : list R) : R :=
  G5 rij rik cosTheta (p !!! 0%nat) (p !!! 1%nat) (p !!! 2%nat) (p !!! 3%nat).

(** The loop over [kk = jj+1, ..., jnum-1] for one [(i,j)]: the triplets
    collected and the input vector with their [G5] terms added. *)
Fixpoint collect_triplets (sty : Style) (x : list V3) (xi : V3) (j : nat)
         (delj : V3) (rij : R) (ks : list Z) (inputVector : row)
  : list Triplet * row :=
  match ks with
  | [] => ([], inputVector)
  | kz :: ks' =>
      let k := mask kz in
      let delk := V3_sub (x !!! k) xi in
      let rsq2 := rsq delk in
      if Rge_dec rsq2 (cutoff sty * cutoff sty)
      then collect_triplets sty x xi j delj rij ks' inputVector
      else
        let rik := sqrt rsq2 in
        let cosTheta := dot delj delk / (rij * rik) in
        let deljk := V3_sub (x !!! k) (x !!! j) in
        let rjk := sqrt (rsq deljk) in
        let inputVector := add_symmetry sty 4 (G5_of rij rik cosTheta) inputVector in
        let '(ts, inputVector) :=
          collect_triplets sty x xi j delj rij ks' inputVector in
        (mkTriplet k delk rik cosTheta rjk deljk :: ts, inputVector)
  end.

(** The loop over [jj = 0, ..., jnum-1]: the pairs within the cutoff, in
    order, and the input vector with all [G2] and [G5] terms added. *)
Fixpoint collect_pairs (sty : Style) (x : list V3) (xi : V3) (js : list Z)
         (inputVector : row) : list Neighbour * row :=
  match js with
  | [] => ([], inputVector)
  | jz :: js' =>
      let j := mask jz in
      let delj := V3_sub (x !!! j) xi in
      let rsq1 := rsq delj in
      if Rge_dec rsq1 (cutoff sty * cutoff sty)
      then collect_pairs sty x xi js' inputVector
      else
        let rij := sqrt rsq1 in
        let inputVector := add_symmetry sty 3 (G2_of rij) inputVector in
        let '(ts, inputVector) :=
          collect_triplets sty x xi j delj rij js' inputVector in
        let '(ps, inputVector) := collect_pairs sty x xi js' inputVector in
        (mkNeighbour j delj rij ts :: ps, inputVector)
  end.

(** [if (m_shift) for input: inputVector[input] -= m_allMeans[input]] *)
Definition shift_inputs (sty : Style) (inputVector : row) : row :=
  if m_shift sty then
    fold_left (fun inp input => <[input := nth input inp 0 - nth input (m_allMeans sty) 0]> inp)
              (seq 0 (m_numberOfSymmFunc sty)) inputVector
  else inputVector.

(** [f[p] += v] on the three components. *)
Definition add_force (f : list V3) (p : nat) (v : V3) : list V3 :=
  <[p := V3_add (f !!! p) v]> f.

(** The running sums [fx2..fz2], [fx3j..fz3j], [fx3k..fz3k] and the force
    array. *)
Record Forces : Type := mkForces {
  f2 : V3;
  f3j : V3;
  f3k : V3;
  forces : list V3
}.

(** Body of the loop over [l] in the radial branch. *)
Definition radial_term (acc : Forces) (nb : Neighbour) (fpair : R) : Forces :=
  mkForces (V3_sub (f2 acc) (V3_scale fpair (drij nb))) (f3j acc) (f3k acc)
           (add_force (forces acc) (tagj nb) (V3_scale fpair (drij nb))).

(** The radial branch for symmetry function [s]. *)
Definition radial_forces (dEdG_s : R) (p : list R) (nbs : list Neighbour)
           (acc : Forces) : Forces :=
  let Rijs := map Rij nbs in
  let dG2 := dG2dR Rijs (p !!! 0%nat) (p !!! 1%nat) (p !!! 2%nat) in
  let fpairs := zip_with (fun dg r => - dEdG_s * dg / r) dG2 Rijs in
  fold_left (fun acc '(nb, fpair) => radial_term acc nb fpair) (zip nbs fpairs) acc.

(** Body of the loop over [m] in the angular branch. *)
Definition angular_term (dEdG_s : R) (p : list R) (nb : Neighbour)
           (acc : Forces) (t : Triplet) : Forces :=
  let '(dGj, dGk) :=
    dG5dR (c0 (drij nb)) (c1 (drij nb)) (c2 (drij nb))
          (c0 (drik t)) (c1 (drik t)) (c2 (drik t))
          (Rij nb) (Rik t) (cosTheta t)
          (p !!! 0%nat) (p !!! 1%nat) (p !!! 2%nat) (p !!! 3%nat) in
  let fj3 := V3_scale (- dEdG_s) dGj in
  let fk3 := V3_scale (- dEdG_s) dGk in
  mkForces (f2 acc) (V3_sub (f3j acc) fj3) (V3_sub (f3k acc) fk3)
           (add_force (add_force (forces acc) (tagj nb) fj3) (tagk t) fk3).

(** The angular branch for symmetry function [s]: [l < neighbours-1]. *)
Definition angular_forces (dEdG_s : R) (p : list R) (nbs : list Neighbour)
           (acc : Forces) : Forces :=
  fold_left
    (fun acc nb => fold_left (angular_term dEdG_s p nb) (triplets nb) acc)
    (firstn (length nbs - 1) nbs) acc.

(** The loop over the symmetry functions that differentiates them. *)
Definition symmetry_forces (sty : Style) (dEdG : row) (nbs : list Neighbour)
           (acc : Forces) : Forces :=
  fold_left
    (fun acc s =>
       let p := m_parameters sty !!! s in
       if Nat.eqb (length p) 3
       then radial_forces (nth s dEdG 0) p nbs acc
       else angular_forces (nth s dEdG 0) p nbs acc)
    (seq 0 (m_numberOfSymmFunc sty)) acc.

(** The input vector of anchor [i] before the shift: the descriptor. *)
Definition descriptor (sty : Style) (atoms : Atoms) (i : nat) : row :=
  snd (collect_pairs sty (atom_x atoms) (atom_x atoms !!! i) (firstneigh atoms !!! i)
         (repeat 0 (m_numberOfSymmFunc sty))).

(** Body of the loop over [ii]: one anchor.  [std::vector<arma::mat>
    Riks(jnum-1)] throws when [jnum] is 0; [None] stands for that. *)
Definition compute_anchor (sty : Style) (atoms : Atoms) (sim : Sim) (i : nat)
  : option Sim :=
  let jlist := firstneigh atoms !!! i in
  if Nat.eqb (length jlist) 0 then None
  else
    let '(nbs, inputVector) :=
      collect_pairs sty (atom_x atoms) (atom_x atoms !!! i) jlist
                    (repeat 0 (m_numberOfSymmFunc sty)) in
    let inputVector := shift_inputs sty inputVector in
    let '(evdwl, nn) := network (net sim) inputVector in
    let eng := eng_vdwl sim + evdwl in
    let '(dEdG, nn) := backPropagation nn in
    let acc :=
      symmetry_forces sty dEdG nbs (mkForces V3_zero V3_zero V3_zero (atom_f sim)) in
    let f := add_force (forces acc) i (V3_add (f3j acc) (f3k acc)) in
    let f := add_force f i (f2 acc) in
    Some (mkSim f eng nn (myStep sim)).

(** The loop over the owned atoms. *)
Fixpoint compute_loop (sty : Style) (atoms : Atoms) (anchors : list nat) (sim : Sim)
  : option Sim :=
  match anchors with
  | [] => Some sim
  | i :: anchors' =>
      match compute_anchor sty atoms sim i with
      | None => None
      | Some sim' => compute_loop sty atoms anchors' sim'
      end
  end.

(** [void compute(int eflag, int vflag)].  The tallies inherited from
    [Pair] ([ev_setup], [ev_tally], [ev_tally3], [virial_fdotr_compute])
    are outside these sources and are left out; the energy is set by hand
    in this function, as its comment says. *)
Definition compute (sty : Style) (atoms : Atoms) (sim : Sim) : option Sim :=
  let sim := mkSim (atom_f sim) 0 (net sim) (myStep sim) in
  match compute_loop sty atoms (ilist atoms) sim with
  | None => None
  | Some sim => Some (mkSim (atom_f sim) (eng_vdwl sim) (net sim) (myStep sim + 1)%Z)
  end.

End Code.

End PairNNAngular2.

Import PairNNAngular2.

(** ** The one-sided derivative routines of PairNNAngular2 *)

(** [(int) zeta1]: the conversion of a [double] to [int] drops the
    fractional part. *)
Definition int_cast (r : R) : Z :=
  if Rle_dec 0 r then Int_part r else (- Int_part (- r))%Z.

Section OneSided.

Variable m_pi : R.
Variable pow : R -> R -> R.

(** [void dG5dj(xj, yj, zj, xk, yk, zk, Rj, Rk, CosTheta, eta, Rc, zeta1,
    Lambda, double *dGj)]: the three components are the same expression in
    [(xj, xk)], [(yj, yk)] and [(zj, zk)]. *)
Definition dG5dj (xj yj zj xk yk zk Rj Rk CosTheta eta Rc zeta1 Lambda : R) : V3 :=
  let zeta := int_cast zeta1 in
  let Rj2 := Rj * Rj in
  let Rk2 := Rk * Rk in
  let Fcj := Fc m_pi Rj Rc in
  let Fck := Fc m_pi Rk Rc in
  let dFcj := dFcdR m_pi Rj Rc in
  let component (aj ak : R) :=
    pow 2 (IZR (- zeta)) * Fck *
    (- 2 * Fcj * Lambda * IZR zeta * pow (CosTheta * Lambda + 1) (IZR zeta)
       * (CosTheta * Rk * aj - Rj * ak)
     - 4 * Fcj * pow Rj 2 * Rk * eta * aj * pow (CosTheta * Lambda + 1) (IZR (zeta + 1))
     + 2 * Rj * Rk * dFcj * aj * pow (CosTheta * Lambda + 1) (IZR (zeta + 1)))
    * exp (- eta * (Rj2 + Rk2)) / (pow Rj 2 * Rk * (CosTheta * Lambda + 1)) in
  mkV3 (component xj xk) (component yj yk) (component zj zk).

(** [void dG5dk(..., double *dGk)] *)
Definition dG5dk (xj yj zj xk yk zk Rj Rk CosTheta eta Rc zeta1 Lambda : R) : V3 :=
  let zeta := int_cast zeta1 in
  let Rj2 := Rj * Rj in
  let Rk2 := Rk * Rk in
  let Fcj := Fc m_pi Rj Rc in
  let Fck := Fc m_pi Rk Rc in
  let dFck := dFcdR m_pi Rk Rc in
  let component (aj ak : R) :=
    pow 2 (IZR (- zeta)) * Fcj *
    (- 2 * Fck * Lambda * IZR zeta * pow (CosTheta * Lambda + 1) (IZR zeta)
       * (CosTheta * Rj * ak - Rk * aj)
     - 4 * Fck * Rj * pow Rk 2 * eta * ak * pow (CosTheta * Lambda + 1) (IZR (zeta + 1))
     + 2 * Rj * Rk * dFck * ak * pow (CosTheta * Lambda + 1) (IZR (zeta + 1)))
    * exp (- eta * (Rj2 + Rk2)) / (Rj * pow Rk 2 * (CosTheta * Lambda + 1)) in
  mkV3 (component xj xk) (component yj yk) (component zj zk).

End OneSided.

(** ** PairNN, the pair-only variant *)

Module PairNN.

(** [double network(double dataPoint)]: the data point becomes a [1 x 1]
    matrix; the rest of the body is that of [PairNNAngular2::network]. *)
Definition network (st : Net) (dataPoint : R) : R * Net :=
  PairNNAngular2.network st [dataPoint].

(** [double backPropagation()]: same body, returns [m_derivatives[0](0,0)]. *)
Definition backPropagation (st : Net) : R * Net :=
  let '(d, st) := PairNNAngular2.backPropagation st in (nth 0 d 0, st).

(** What [compute] reads: positions, atom IDs ([tagint], taken here without
    overflow: its width is fixed outside these sources), owned atoms and
    full neighbour lists. *)
Record Atoms : Type := mkAtoms {
  atom_x : list V3;
  tag : list Z;
  ilist : list nat;
  firstneigh : list (list Z)
}.

(** What [compute] writes: the forces and the network caches. *)
Record Sim : Type := mkSim {
  atom_f : list V3;
  net : Net
}.

Section Code.

Variable NEIGHMASK : Z.
Variable cutoff : R.

(** The three-way test that makes an anchor skip a neighbour; [%] of C++
    is [Z.rem]. *)
Definition skips (itag jtag : Z) (xi xj : V3) : bool :=
  if (itag >? jtag)%Z then Z.eqb (Z.rem (itag + jtag) 2) 0
  else if (itag <? jtag)%Z then Z.eqb (Z.rem (itag + jtag) 2) 1
  else
    Rltb (c2 xj) (c2 xi)
    || (Reqb (c2 xj) (c2 xi) && Rltb (c1 xj) (c1 xi))
    || (Reqb (c2 xj) (c2 xi) && Reqb (c1 xj) (c1 xi) && Rltb (c0 xj) (c0 xi)).

(** [f[p] -= v] on the three components. *)
Definition sub_force (f : list V3) (p : nat) (v : V3) : list V3 :=
  <[p := V3_sub (f !!! p) v]> f.

(** The anchor iteration of [i] reaches the evaluation of the network for
    neighbour [j]: neither of the two [continue] is taken. *)
Definition processes (atoms : Atoms) (i j : nat) : bool :=
  let xi := atom_x atoms !!! i in
  let xj := atom_x atoms !!! j in
  negb (skips (tag atoms !!! i) (tag atoms !!! j) xi xj)
  && negb (if Rge_dec (rsq (V3_sub xi xj)) (cutoff * cutoff) then true else false).

(** Body of the loop over [jj]; [ftmp] is [fxtmp, fytmp, fztmp]. *)
Definition pair_term (atoms : Atoms) (i : nat) (acc : V3 * Sim) (jz : Z) : V3 * Sim :=
  let '(ftmp, sim) := acc in
  let xi := atom_x atoms !!! i in
  let j := mask NEIGHMASK jz in
  if skips (tag atoms !!! i) (tag atoms !!! j) xi (atom_x atoms !!! j) then acc
  else
    let del := V3_sub xi (atom_x atoms !!! j) in
    if Rge_dec (rsq del) (cutoff * cutoff) then acc
    else
      let r := sqrt (rsq del) in
      let '(evdwl, nn) := network (net sim) r in
      let '(dEdr, nn) := backPropagation nn in
      let fpair := - dEdr / r in
      (V3_add ftmp (V3_scale fpair del),
       mkSim (sub_force (atom_f sim) j (V3_scale fpair del)) nn).

(** Body of the loop over [ii]. *)
Definition compute_anchor (atoms : Atoms) (sim : Sim) (i : nat) : Sim :=
  let '(ftmp, sim) :=
    fold_left (pair_term atoms i) (firstneigh atoms !!! i) (V3_zero, sim) in
  mkSim (add_force (atom_f sim) i ftmp) (net sim).

(** [void compute(int eflag, int vflag)], without the inherited tallies. *)
Definition compute (atoms : Atoms) (sim : Sim) : Sim :=
  fold_left (compute_anchor atoms) (ilist atoms) sim.

End Code.

(** *** read_file *)

(** What the loader prints on [std::cout]. *)
Inductive Message : Type :=
| Text (s : string)
| Field (label : string) (value : nat)
| Name (label : string) (value : string).

(** A graph file that could be opened: the five header tokens, the lines
    up to the first empty one, and the lines after it. *)
Record GraphFile : Type := mkGraphFile {
  h_nLayers : nat;
  h_nNodes : nat;
  h_activation : string;
  h_numberOfInputs : nat;
  h_numberOfOutputs : nat;
  weight_lines : list (list R);
  bias_lines : list (list R)
}.

(** The fields of the class that the loader sets. *)
Record Loader : Type := mkLoader {
  nn : Net;
  m_nNodes : nat;
  m_numberOfInputs : nat;
  m_numberOfOutputs : nat
}.

(** How a call of [read_file] ends.  The function has no [error->all] and
    no [return] before its last line: it ends at its last line, or in an
    access that C++ or Armadillo leave undefined or answer with an
    exception of their own. *)
Inductive LoadResult : Type :=
| Loaded (log : list Message) (ld : Loader)
| Fault (log : list Message) (what : string).

Section Loading.

(** What an entry of [arma::mat matrix(1, m_nNodes)] holds when the line
    has no token for it. *)
Variable unset : R.

(** [while (ss >> buffer) { matrix(0,i) = buffer; i++; }] *)
Definition parse_row (nNodes : nat) (tokens : list R) : option row :=
  if Nat.leb (length tokens) nNodes
  then Some (tokens ++ repeat unset (nNodes - length tokens))
  else None.

Fixpoint parse_rows (nNodes : nat) (lines : list (list R)) : option (list row) :=
  match lines with
  | [] => Some []
  | l :: lines' =>
      match parse_row nNodes l, parse_rows nNodes lines' with
      | Some r, Some rs => Some (r :: rs)
      | _, _ => None
      end
  end.

(** [weightsTemp[first], ..., weightsTemp[first + count - 1]] joined by
    [join_cols]; [None] when one of the indices leaves the vector. *)
Definition rows_from (weightsTemp : list row) (first count : nat) : option mat :=
  if Nat.leb (first + count) (length weightsTemp)
  then Some (firstn count (skipn first weightsTemp))
  else None.

(** The weights of the hidden layers after the first: [m_nLayers - 1]
    blocks of [m_nNodes] rows starting at row [first]. *)
Fixpoint hidden_blocks (weightsTemp : list row) (nNodes first blocks : nat)
  : option (list mat) :=
  match blocks with
  | O => Some []
  | S blocks' =>
      match rows_from weightsTemp first (Nat.max nNodes 1),
            hidden_blocks weightsTemp nNodes (first + Nat.max nNodes 1) blocks' with
      | Some W, Some Ws => Some (W :: Ws)
      | _, _ => None
      end
  end.

(** [v.resize(n)] on a [std::vector] of matrices. *)
Definition resize {A : Type} (d : A) (v : list A) (n : nat) : list A :=
  firstn n v ++ repeat d (n - length v).

(** [arma::reshape(A, r, c)]: the entries of [A] in column-major order
    refill an [r x c] matrix, zeros where [A] runs out. *)
Definition reshape (A : mat) (r c : nat) : mat :=
  let flat := concat (transpose A) in
  map (fun i => map (fun j => nth (i + j * r) flat 0) (seq 0 c)) (seq 0 r).

(** [r.shed_cols(first, last)] on a matrix of one row: the columns
    [first..last] are removed; Armadillo refuses [first > last] and
    [last >= n_cols]. *)
Definition shed_cols (r : row) (first last : nat) : option row :=
  if Nat.leb first last && Nat.ltb last (length r)
  then Some (firstn first r ++ skipn (S last) r)
  else None.

(** [void read_file(char *file)]; [None] is a file that cannot be opened. *)
Definition read_file (file : option GraphFile) (ld : Loader) : LoadResult :=
  let log0 := match file with
              | Some _ => []
              | None => [Text "File is not opened"]
              end in
  (* a failed extraction leaves the fields as they were *)
  let nLayers := match file with Some g => h_nLayers g | None => m_nLayers (nn ld) end in
  let nNodes := match file with Some g => h_nNodes g | None => m_nNodes ld end in
  let nInputs :=
    match file with Some g => h_numberOfInputs g | None => m_numberOfInputs ld end in
  let nOutputs :=
    match file with Some g => h_numberOfOutputs g | None => m_numberOfOutputs ld end in
  let activation := match file with Some g => h_activation g | None => EmptyString end in
  let log :=
    log0 ++ [Field "Layers: " nLayers; Field "Nodes: " nNodes;
             Name "Activation: " activation; Field "Neighbours: " nInputs;
             Field "Outputs: " nOutputs] in
  let wlines := match file with Some g => weight_lines g | None => [] end in
  let blines := match file with Some g => bias_lines g | None => [] end in
  match parse_rows nNodes wlines, parse_rows nNodes blines with
  | Some weightsTemp, Some newBiases =>
      let biases := m_biases (nn ld) ++ newBiases in
      match rows_from weightsTemp 0 (Nat.max nInputs 1),
            hidden_blocks weightsTemp nNodes (Nat.max nInputs 1) (nLayers - 1),
            rows_from weightsTemp
              (Nat.max nInputs 1 + (nLayers - 1) * Nat.max nNodes 1)
              (Nat.max nOutputs 1) with
      | Some W0, Some Ws, Some outputLayer =>
          (* [m_nNodes - 1] is -1 for no node: no column index *)
          match (if Nat.ltb nLayers (length biases) && Nat.leb 1 nNodes
                 then shed_cols (biases !!! nLayers) 1 (nNodes - 1)
                 else None) with
          | Some outputBias =>
            let weights := resize [] (m_weights (nn ld)) (nLayers + 1) in
            let weights := <[0%nat := W0]> weights in
            let weights :=
              fold_left (fun ws '(i, W) => <[(i + 1)%nat := W]> ws)
                        (zip (seq 0 (length Ws)) Ws) weights in
            let weights := <[nLayers := reshape outputLayer nNodes nOutputs]> weights in
            let biases := <[nLayers := outputBias]> biases in
            Loaded log
              (mkLoader
                 (mkNet nLayers weights (map transpose weights) biases
                    (resize [] (m_preActivations (nn ld)) (nLayers + 2))
                    (resize [] (m_activations (nn ld)) (nLayers + 2))
                    (resize [] (m_derivatives (nn ld)) (nLayers + 2)))
                 nNodes nInputs nOutputs)
          | None => Fault log "m_biases[m_nLayers].shed_cols(1,m_nNodes-1)"
          end
      | _, _, _ => Fault log "weightsTemp[currentRow]"
      end
  | _, _ => Fault log "matrix(0,i)"
  end.

End Loading.

End PairNN.

(** ** PairNN: the setup functions *)

Module PairNNSetup.

(** How a setup function ends: at its last line, in [error->all] with its
    message (which ends the run), or in one of the accesses of [read_file]
    that C++ leaves undefined. *)
Inductive Outcome (A : Type) : Type :=
| Done (a : A)
| Stop (message : string)
| Undefined (what : string).

Arguments Done {A} a.
Arguments Stop {A} message.
Arguments Undefined {A} what.

(** The fields of the class that the setup functions use; [setflag] is an
    [int **] indexed by two atom types. *)
Record Pair : Type := mkPair {
  allocated : bool;
  setflag : nat -> nat -> Z;
  cutoff : R;
  loader : PairNN.Loader;
  printed : list PairNN.Message
}.

Section Environment.

(** What the functions read of LAMMPS and of the file system:
    [atom->ntypes], [atom->tag_enable], [force->newton_pair], the number
    that [force->numeric] reads off a word, the graph file behind a name,
    what [memory->create] leaves in a new array, and what a new
    [arma::mat] holds. *)
Variable ntypes : nat.
Variable tag_enable : Z.
Variable newton_pair : Z.
Variable numeric : string -> R.
Variable open_graph : string -> option PairNN.GraphFile.
Variable created : nat -> nat -> Z.
Variable unset : R.

(** [void allocate()] *)
Definition allocate (p : Pair) : Pair :=
  mkPair true created (cutoff p) (loader p) (printed p).

(** [void settings(int narg, char **arg)] *)
Definition settings (arg : list string) (p : Pair) : Outcome Pair :=
  if negb (Nat.eqb (length arg) 0) then Stop "Illegal pair_style command"
  else Done p.

(** [setflag[i][j] = 1] *)
Definition set_flag (flags : nat -> nat -> Z) (i j : nat) : nat -> nat -> Z :=
  fun a b => if Nat.eqb a i && Nat.eqb b j then 1%Z else flags a b.

(** [for (i = 1; i <= n; i++) for (j = i; j <= n; j++) { setflag[i][j] = 1;
    count++; }] *)
Definition mark_all (n : nat) (flags : nat -> nat -> Z) : (nat -> nat -> Z) * nat :=
  fold_left
    (fun acc i =>
       fold_left (fun '(fl, count) j => (set_flag fl i j, S count))
                 (seq i (n + 1 - i)) acc)
    (seq 1 n) (flags, 0%nat).

(** [void coeff(int narg, char **arg)] *)
Definition coeff (arg : list string) (p : Pair) : Outcome Pair :=
  let p := if allocated p then p else allocate p in
  if negb (Nat.eqb (length arg) 4)
  then Stop "Incorrect args for pair coefficients"
  else if negb (String.eqb (nth 0 arg EmptyString) "*")
          || negb (String.eqb (nth 1 arg EmptyString) "*")
  then Stop "Incorrect args for pair coefficients"
  else
    match PairNN.read_file unset (open_graph (nth 2 arg EmptyString)) (loader p) with
    | PairNN.Fault log what => Undefined what
    | PairNN.Loaded log ld =>
        let cutoff := numeric (nth 3 arg EmptyString) in
        let '(flags, count) := mark_all ntypes (setflag p) in
        if Nat.eqb count 0 then Stop "Incorrect args for pair coefficients"
        else Done (mkPair true flags cutoff ld (printed p ++ log))
    end.

(** [void init_style()]: the two flags of the neighbour request, [half]
    and [full]. *)
Definition init_style : Outcome (Z * Z) :=
  if Z.eqb tag_enable 0 then Stop "Pair style NN requires atom IDs"
  else if Z.eqb newton_pair 0 then Stop "Pair style NN requires newton pair on"
  else Done (0%Z, 1%Z).

(** [double init_one(int i, int j)] *)
Definition init_one (i j : nat) (p : Pair) : Outcome R :=
  if Z.eqb (setflag p i j) 0 then Stop "All pair coeffs are not set"
  else Done (cutoff p).

End Environment.

End PairNNSetup.

(** * Definitions for the statements *)

(** ** The layer recursion *)

(** The layer recursion in the words of the specification: the activation
    of layer 0 is the input row, and
    [pre[l+1] = activation[l] * W[l] + b[l]],
    [activation[l+1] = sigmoid(pre[l+1])] for the hidden layers. *)
Fixpoint activation_spec (ws : list mat) (bs : list row) (x : row) (l : nat) : row :=
  match l with
  | O => x
  | S l' =>
      sigmoid (row_add (row_mul (activation_spec ws bs x l') (ws !!! l')) (bs !!! l'))
  end.

Definition pre_spec (ws : list mat) (bs : list row) (x : row) (l : nat) : row :=
  match l with
  | O => x
  | S l' => row_add (row_mul (activation_spec ws bs x l') (ws !!! l')) (bs !!! l')
  end.

(** The output layer is linear: no sigmoid is applied to it. *)
Definition output_spec (n : nat) (ws : list mat) (bs : list row) (x : row) : row :=
  row_add (row_mul (activation_spec ws bs x n) (ws !!! n)) (bs !!! n).

Definition network_spec (n : nat) (ws : list mat) (bs : list row) (x : row) : R :=
  nth 0 (output_spec n ws bs x) 0.

(** The caches have the [m_nLayers + 2] slots that [read_file] gives them. *)
Definition caches_sized (st : Net) : Prop :=
  length (m_preActivations st) = (m_nLayers st + 2)%nat /\
  length (m_activations st) = (m_nLayers st + 2)%nat /\
  length (m_derivatives st) = (m_nLayers st + 2)%nat.


(** What the hidden-layer loop has established after [k] rounds. *)
Definition forward_inv (st0 st : Net) (x : row) (k : nat) : Prop :=
  m_nLayers st = m_nLayers st0 /\
  m_weights st = m_weights st0 /\
  m_weightsTransposed st = m_weightsTransposed st0 /\
  m_biases st = m_biases st0 /\
  m_derivatives st = m_derivatives st0 /\
  length (m_preActivations st) = length (m_preActivations st0) /\
  length (m_activations st) = length (m_activations st0) /\
  forall l, (l <= k)%nat ->
    m_preActivations st !!! l = pre_spec (m_weights st0) (m_biases st0) x l /\
    m_activations st !!! l = activation_spec (m_weights st0) (m_biases st0) x l.

(** The error row that [backPropagation] stores in [m_derivatives[l]], read
    off the cached pre-activations: [f] counts the layers between [l] and
    the output slot [m_nLayers + 1]. *)
Fixpoint error_row (wts : list mat) (pres : list row) (f l : nat) : row :=
  match f with
  | O => [1]
  | S f' =>
      schur (row_mul (error_row wts pres f' (S l)) (wts !!! l))
            (sigmoidDerivative (pres !!! l))
  end.

Definition backward_inv (st0 st : Net) (s : nat) : Prop :=
  let n := m_nLayers st0 in
  m_nLayers st = n /\
  m_weights st = m_weights st0 /\
  m_weightsTransposed st = m_weightsTransposed st0 /\
  m_biases st = m_biases st0 /\
  m_preActivations st = m_preActivations st0 /\
  m_activations st = m_activations st0 /\
  length (m_derivatives st) = length (m_derivatives st0) /\
  forall l, (s <= l <= n + 1)%nat ->
    m_derivatives st !!! l =
    error_row (m_weightsTransposed st0) (m_preActivations st0) (n + 1 - l) l.

(** Weights and biases with consistently chained shapes, transposes as
    [read_file] stores them, caches as [read_file] sizes them. *)
Definition well_formed (st : Net) (dims : nat -> nat) : Prop :=
  let n := m_nLayers st in
  caches_sized st /\
  (forall i, (i <= n + 1)%nat -> (1 <= dims i)%nat) /\
  dims (n + 1)%nat = 1%nat /\
  (forall i, (i <= n)%nat ->
     shape (m_weights st !!! i) (dims i) (dims (i + 1)%nat)) /\
  (forall i, (i <= n)%nat -> length (m_biases st !!! i) = dims (i + 1)%nat) /\
  (forall i, (i <= n)%nat ->
     m_weightsTransposed st !!! i = transpose (m_weights st !!! i)).

Section LayerFunctions.

Variables (ws wts : list mat) (bs : list row).

(** The pre-activation that layer [i] feeds forward from activation [a]. *)
Definition feed (i : nat) (a : row) : row :=
  row_add (row_mul a (ws !!! i)) (bs !!! i).

(** The network output as a function of the activation [a] of layer [i],
    [f] hidden layers before the output layer. *)
Fixpoint output_from (f i : nat) (a : row) : R :=
  match f with
  | O => nth 0 (feed i a) 0
  | S f' => output_from f' (S i) (sigmoid (feed i a))
  end.

(** The error row of slot [i + 1] as a function of the activation of layer [i]. *)
Fixpoint error_of (f i : nat) (a : row) : row :=
  match f with
  | O => [1]
  | S f' =>
      schur (row_mul (error_of f' (S i) (sigmoid (feed i a))) (wts !!! (S i)))
            (sigmoidDerivative (feed i a))
  end.

End LayerFunctions.

(** ** Sums over the neighbours of an anchor *)

Section NeighbourSums.

Variable m_pi : R.
Variable pow : R -> R -> R.
Variable NEIGHMASK : Z.
Variable sty : Style.
Variable x : list V3.
Variable xi : V3.

(** The test that both loops apply before using a neighbour. *)
Definition beyond_cutoff (jz : Z) : Prop :=
  rsq (V3_sub (x !!! mask NEIGHMASK jz) xi) >= cutoff sty * cutoff sty.

Definition neighbour_distance (jz : Z) : R :=
  sqrt (rsq (V3_sub (x !!! mask NEIGHMASK jz) xi)).

Definition neighbour_cos (jz kz : Z) : R :=
  dot (V3_sub (x !!! mask NEIGHMASK jz) xi) (V3_sub (x !!! mask NEIGHMASK kz) xi)
  / (neighbour_distance jz * neighbour_distance kz).

(** What one pair [(i,j)] adds to a radial entry with record [p], and what
    one triplet [(i,j,k)] adds to an angular entry. *)
Definition radial_part (p : list R) (jz : Z) : R :=
  G2_of m_pi (neighbour_distance jz) p.

Definition angular_part (p : list R) (jz kz : Z) : R :=
  G5_of m_pi pow (neighbour_distance jz) (neighbour_distance kz)
        (neighbour_cos jz kz) p.

(** Sum of [term] over the entries of [js] that pass the cutoff test. *)
Fixpoint near_sum (term : Z -> R) (js : list Z) : R :=
  match js with
  | [] => 0
  | jz :: js' =>
      if Rge_dec (rsq (V3_sub (x !!! mask NEIGHMASK jz) xi)) (cutoff sty * cutoff sty)
      then near_sum term js'
      else term jz + near_sum term js'
  end.

(** Sum over the pairs [jj < kk] of entries that both pass the test. *)
Fixpoint near_pair_sum (term : Z -> Z -> R) (js : list Z) : R :=
  match js with
  | [] => 0
  | jz :: js' =>
      if Rge_dec (rsq (V3_sub (x !!! mask NEIGHMASK jz) xi)) (cutoff sty * cutoff sty)
      then near_pair_sum term js'
      else near_sum (term jz) js' + near_pair_sum term js'
  end.

(** An entry that the loops over [s] can reach and whose record has
    [arity] numbers. *)
Definition entry_of_arity (arity : nat) (len s : nat) : bool :=
  Nat.ltb s (m_numberOfSymmFunc sty) && Nat.ltb s len
  && Nat.eqb (length (m_parameters sty !!! s)) arity.

End NeighbourSums.

Section RadialSpec.

Variable m_pi : R.
Variable NEIGHMASK : Z.

(** The radial descriptor in the words of the specification: the sum, over
    the neighbours [j] whose distance [Rij] is strictly within the global
    cutoff, of [exp(-eta (Rij - Rs)^2) * Fc(Rij, Rc)]. *)
Definition radial_descriptor_spec (cutoff : R) (x : list V3) (xi : V3)
           (jlist : list Z) (eta Rc Rs : R) : R :=
  accu (map (fun jz =>
               let Rij := neighbour_distance NEIGHMASK x xi jz in
               exp (- eta * (Rij - Rs) ^ 2) * Fc m_pi Rij Rc)
            (List.filter (fun jz => Rltb (neighbour_distance NEIGHMASK x xi jz) cutoff)
                         jlist)).

End RadialSpec.

(** ** Bookkeeping of the forces *)

Definition V3_opp (a : V3) : V3 := mkV3 (- c0 a) (- c1 a) (- c2 a).

(** The sum of all the forces in the array. *)
Definition total (f : list V3) : V3 := fold_right V3_add V3_zero f.

(** The forces in the array together with what the running sums hold for
    the anchor. *)
Definition balance (acc : Forces) : V3 :=
  V3_add (total (forces acc)) (V3_add (f2 acc) (V3_add (f3j acc) (f3k acc))).

(** Every particle index that the force loops use lies inside the array. *)
Definition tags_in_range (len : nat) (nbs : list Neighbour) : Prop :=
  Forall (fun nb => (tagj nb < len)%nat /\
                    Forall (fun t => (tagk t < len)%nat) (triplets nb)) nbs.

(** [f] is [g] with [base] added entry by entry. *)
Definition offset (base f g : list V3) : Prop :=
  length f = length base /\ length g = length base /\
  forall q, f !!! q = V3_add (base !!! q) (g !!! q).

Definition offset_acc (base : list V3) (acc acc0 : Forces) : Prop :=
  f2 acc = f2 acc0 /\ f3j acc = f3j acc0 /\ f3k acc = f3k acc0 /\
  offset base (forces acc) (forces acc0).

Definition offset_sim (base : list V3) (sim sim0 : Sim) : Prop :=
  net sim = net sim0 /\ eng_vdwl sim = eng_vdwl sim0 /\ myStep sim = myStep sim0 /\
  offset base (atom_f sim) (atom_f sim0).

(** Two runs that agree on everything that is not a force. *)
Definition in_step (base : list V3) (r r0 : option Sim) : Prop :=
  match r, r0 with
  | Some sim', Some delta => offset_sim base sim' delta
  | None, None => True
  | _, _ => False
  end.

(** ** The visits of the pair-only loops *)

Section Visits.

Variable NEIGHMASK : Z.
Variable cutoff : R.



End Visits.



(** ** Small systems *)

(** A network on one descriptor with one hidden layer of two nodes: all
    weights 1, all biases 0. *)
Definition tiny_net : Net :=
  mkNet 1 [[[1; 1]]; [[1]; [1]]] [[[1]; [1]]; [[1; 1]]] [[0; 0]; [0]]
        [[]; []; []] [[]; []; []] [[]; []; []].

(** The layer widths of [tiny_net]. *)
Definition tiny_dims (i : nat) : nat := if Nat.eqb i 1 then 2%nat else 1%nat.

(** Two atoms one unit apart, one radial symmetry function. *)
Definition two_atoms : Atoms :=
  mkAtoms [mkV3 0 0 0; mkV3 1 0 0] [0%nat; 1%nat] [[1%Z]; [0%Z]].

Definition one_radial (cutoff : R) : Style := mkStyle cutoff 1 [[1; 1; 0]] false [].

(** An anchor with two neighbours, listed in the two possible orders. *)
Definition three_atoms (jlist : list Z) : Atoms :=
  mkAtoms [mkV3 0 0 0; mkV3 1 0 0; mkV3 0 1 0] [0%nat] [jlist].

Definition idle_sim : Sim := mkSim [V3_zero; V3_zero; V3_zero] 0 tiny_net 0.

(** The atoms of [two_atoms] with a cutoff of one half: atom 1 is in the
    neighbour list of atom 0 but outside the cutoff. *)
Definition rest_sim : Sim := mkSim [V3_zero; V3_zero] 0 tiny_net 0.

(** Two atoms with IDs 1 and 2, one unit apart, each in the list of the
    other. *)
Definition tagged_pair : PairNN.Atoms :=
  PairNN.mkAtoms [mkV3 0 0 0; mkV3 1 0 0] [1%Z; 2%Z] [0%nat; 1%nat] [[1%Z]; [0%Z]].



(** One owned atom with a neighbour one unit away and a second entry of
    its list three units away. *)
Definition lone_owner : Atoms :=
  mkAtoms [mkV3 0 0 0; mkV3 1 0 0; mkV3 0 3 0] [0%nat] [[1%Z; 2%Z]].

(** One radial and one angular symmetry function, both with [Rc = 3], and
    a cutoff of 2. *)
Definition both_kinds : Style := mkStyle 2 2 [[1; 3; 0]; [1; 3; 1; 1]] false [].

(** A network on two descriptors with one hidden layer of two nodes. *)
Definition duo_net : Net :=
  mkNet 1 [[[1; 1]; [1; 1]]; [[1]; [1]]] [[[1; 1]; [1; 1]]; [[1; 1]]] [[0; 0]; [0]]
        [[]; []; []] [[]; []; []] [[]; []; []].

Definition duo_dims (i : nat) : nat := if Nat.eqb i 2 then 1%nat else 2%nat.

Definition duo_sim : Sim := mkSim [V3_zero; V3_zero; V3_zero] 0 duo_net 0.

(** ** Symmetry functions of the displacements *)

Section AtDisplacements.

Variable m_pi : R.
Variable pow : R -> R -> R.

(** The angular term as [compute] evaluates it from the two displacements
    [delj = x[j] - x[i]] and [delk = x[k] - x[i]]: [Rij] and [Rik] are the
    square roots of [rsq1] and [rsq2], and [cosTheta] is the scalar product
    over [Rij*Rik]. *)
Definition G5_at (delj delk : V3) (eta Rc zeta lambda : R) : R :=
  let rij := sqrt (rsq delj) in
  let rik := sqrt (rsq delk) in
  G5 m_pi pow rij rik (dot delj delk / (rij * rik)) eta Rc zeta lambda.

(** The call of [dG5dR] that the force loop makes for these displacements. *)
Definition dG5dR_at (delj delk : V3) (eta Rc zeta lambda : R) : V3 * V3 :=
  let rij := sqrt (rsq delj) in
  let rik := sqrt (rsq delk) in
  dG5dR m_pi pow (c0 delj) (c1 delj) (c2 delj) (c0 delk) (c1 delk) (c2 delk)
        rij rik (dot delj delk / (rij * rik)) eta Rc zeta lambda.

End AtDisplacements.

(** ** Rigid motions of the system *)

Section RigidMotions.

(** A linear map [M] of space and a translation [a]. *)
Variable M : V3 -> V3.
Variable a : V3.

(** Every position [p] replaced by [M p + a]. *)
Definition moved (atoms : Atoms) : Atoms :=
  mkAtoms (map (fun p => V3_add (M p) a) (atom_x atoms)) (ilist atoms)
          (firstneigh atoms).

(** Every force [f] replaced by [M f]. *)
Definition turned (sim : Sim) : Sim :=
  mkSim (map M (atom_f sim)) (eng_vdwl sim) (net sim) (myStep sim).

Definition turn_triplet (t : Triplet) : Triplet :=
  mkTriplet (tagk t) (M (drik t)) (Rik t) (cosTheta t) (Rjk t) (M (drjk t)).

Definition turn_neighbour (nb : Neighbour) : Neighbour :=
  mkNeighbour (tagj nb) (M (drij nb)) (Rij nb) (map turn_triplet (triplets nb)).

Definition turn_acc (acc : Forces) : Forces :=
  mkForces (M (f2 acc)) (M (f3j acc)) (M (f3k acc)) (map M (forces acc)).

End RigidMotions.

(** The rotation by a quarter turn about the third axis. *)
Definition quarter_turn (p : V3) : V3 := mkV3 (- c1 p) (c0 p) (c2 p).

(** ** Graph files *)

(** The layer widths that the header of a graph file announces: the
    inputs, [m_nLayers] hidden layers of [m_nNodes] nodes, one output. *)
Definition file_dims (g : PairNN.GraphFile) (i : nat) : nat :=
  if Nat.eqb i 0 then Nat.max (PairNN.h_numberOfInputs g) 1
  else if Nat.leb i (PairNN.h_nLayers g) then PairNN.h_nNodes g else 1%nat.

(** A class on which [read_file] has not run yet. *)
Definition blank_loader : PairNN.Loader :=
  PairNN.mkLoader (mkNet 0 [] [] [] [] [] []) 0 0 0.

(** The graph file of [tiny_net]: header [1 2 sigmoid 1 1], two weight
    lines, an empty line, two bias lines. *)
Definition tiny_graph : PairNN.GraphFile :=
  PairNN.mkGraphFile 1 2 "sigmoid" 1 1 [[1; 1]; [1; 1]] [[0; 0]; [0]].

(** ** Torques *)

Definition cross (a b : V3) : V3 :=
  mkV3 (c1 a * c2 b - c2 a * c1 b)
       (c2 a * c0 b - c0 a * c2 b)
       (c0 a * c1 b - c1 a * c0 b).

(** The total torque of the forces [f] on atoms at [x]: the sum of
    [x[q] x f[q]]. *)
Definition torque (x f : list V3) : V3 := total (zip_with cross x f).

(** The same with what the running sums hold for the anchor [i]. *)
Definition torque_balance (x : list V3) (i : nat) (acc : Forces) : V3 :=
  V3_add (torque x (forces acc))
         (cross (x !!! i) (V3_add (f2 acc) (V3_add (f3j acc) (f3k acc)))).

(** The stored displacements are those of the stored particle indices. *)
Definition placed (x : list V3) (xi : V3) (nbs : list Neighbour) : Prop :=
  Forall (fun nb => drij nb = V3_sub (x !!! tagj nb) xi /\
                    Forall (fun t => drik t = V3_sub (x !!! tagk t) xi) (triplets nb))
         nbs.

(** ** The cutoff test *)

(** The outcome of the test [rsq < cutoff*cutoff] that both loops of
    [compute] apply to a list entry. *)
Definition passes_cutoff (NEIGHMASK : Z) (sty : Style) (x : list V3) (xi : V3)
           (jz : Z) : bool :=
  if Rge_dec (rsq (V3_sub (x !!! mask NEIGHMASK jz) xi)) (cutoff sty * cutoff sty)
  then false else true.

(** ** Moving the atoms *)

(** Every atom [q] moved from [x[q]] to [x[q] + t w[q]]. *)
Definition displaced (w : list V3) (t : R) (atoms : Atoms) : Atoms :=
  mkAtoms (zip_with (fun p d => V3_add p (V3_scale t d)) (atom_x atoms) w)
          (ilist atoms) (firstneigh atoms).

(** The rate at which the forces [f] do work on atoms moving with the
    velocities [w]: the sum of [f[q] . w[q]]. *)
Definition power (w f : list V3) : R := accu (zip_with dot f w).

(** The same with what the running sums hold for the anchor [i]. *)
Definition virtual (w : list V3) (i : nat) (acc : Forces) : R :=
  power w (forces acc)
  + dot (V3_add (f2 acc) (V3_add (f3j acc) (f3k acc))) (w !!! i).

Section Regular.

Variable m_pi : R.
Variable pow : R -> R -> R.
Variable NEIGHMASK : Z.
Variable sty : Style.

(** What [compute] adds to [eng_vdwl] for the anchor [i]: [evdwl =
    network(inputVector)]. *)
Definition anchor_energy (atoms : Atoms) (sim : Sim) (i : nat) : R :=
  fst (network (net sim) (shift_inputs sty (descriptor m_pi pow NEIGHMASK sty atoms i))).

Variable x : list V3.
Variable xi : V3.

(** [x[j] - x[i]] for a list entry. *)
Definition separation (jz : Z) : V3 := V3_sub (x !!! mask NEIGHMASK jz) xi.

(** No list entry sits on the cutoff sphere, and none that passes the
    cutoff test sits on the anchor. *)
Definition regular_neighbours (js : list Z) : Prop :=
  Forall (fun jz => rsq (separation jz) <> cutoff sty * cutoff sty /\
                    (~ beyond_cutoff NEIGHMASK sty x xi jz -> 0 < rsq (separation jz)))
         js.

(** A record is [(eta, Rc, Rs)] with every neighbour within the cutoff
    also within [Rc], or [(eta, Rc, zeta, lambda)] with no such neighbour
    at distance [Rc] and [1 + lambda cosTheta > 0] for every triplet. *)
Definition regular_record (p : list R) (js : list Z) : Prop :=
  (length p = 3%nat /\
   Forall (fun jz => ~ beyond_cutoff NEIGHMASK sty x xi jz ->
                     neighbour_distance NEIGHMASK x xi jz < p !!! 1%nat) js) \/
  (length p = 4%nat /\
   Forall (fun jz => ~ beyond_cutoff NEIGHMASK sty x xi jz ->
                     neighbour_distance NEIGHMASK x xi jz <> p !!! 1%nat) js /\
   ForallOrdPairs
     (fun jz kz => ~ beyond_cutoff NEIGHMASK sty x xi jz ->
                   ~ beyond_cutoff NEIGHMASK sty x xi kz ->
                   0 < 1 + p !!! 3%nat * neighbour_cos NEIGHMASK x xi jz kz) js).

End Regular.

Section Rates.

Variable m_pi : R.
Variable pow : R -> R -> R.
Variable NEIGHMASK : Z.
Variable sty : Style.
Variable x : list V3.
Variable xi : V3.
Variable w : list V3.
Variable i : nat.

(** The velocity of a list entry relative to the anchor. *)
Definition drift (jz : Z) : V3 := V3_sub (w !!! mask NEIGHMASK jz) (w !!! i).

(** The rates at which the force loop takes one pair, one triplet, and a
    whole descriptor entry to change when the atoms move with the
    velocities [w]: [dG2/Rij * (drij . drift)] with the entry of [dG2dR],
    and [dGj . drift_j + dGk . drift_k] with the arrays of [dG5dR]. *)
Definition radial_rate (p : list R) (jz : Z) : R :=
  let r := neighbour_distance NEIGHMASK x xi jz in
  nth 0 (dG2dR m_pi [r] (p !!! 0%nat) (p !!! 1%nat) (p !!! 2%nat)) 0 / r
  * dot (separation NEIGHMASK x xi jz) (drift jz).

Definition angular_rate (p : list R) (jz kz : Z) : R :=
  let dG := dG5dR_at m_pi pow (separation NEIGHMASK x xi jz) (separation NEIGHMASK x xi kz)
                     (p !!! 0%nat) (p !!! 1%nat) (p !!! 2%nat) (p !!! 3%nat) in
  dot (fst dG) (drift jz) + dot (snd dG) (drift kz).

Definition entry_rate (js : list Z) (s : nat) : R :=
  let p := m_parameters sty !!! s in
  if Nat.eqb (length p) 3
  then near_sum NEIGHMASK sty x xi (radial_rate p) js
  else near_pair_sum NEIGHMASK sty x xi (angular_rate p) js.

End Rates.

(** ** A setup call *)

(** A class on which no setup function has run, and the command
    [pair_coeff * * graph 2.5]. *)
Definition blank_pair : PairNNSetup.Pair :=
  PairNNSetup.mkPair false (fun _ _ => 0%Z) 10 blank_loader [].

Definition star_command : list string :=
  ["*"%string; "*"%string; "graph"%string; "2.5"%string].

(** * Verification *)

(** ** Facts about rows, matrices and finite sums *)

Section ArmaFacts.

Lemma big_sum_ext (n : nat) (f g : nat -> R) :
  (forall k, (k < n)%nat -> f k = g k) -> big_sum n f = big_sum n g.
Proof.
  induction n as [|n IH]; intros H; simpl; [reflexivity|].
  rewrite IH by (intros; apply H; lia). rewrite H by lia. reflexivity.
Qed.

Lemma big_sum_plus (n : nat) (f g : nat -> R) :
  big_sum n (fun k => f k + g k) = big_sum n f + big_sum n g.
Proof. induction n as [|n IH]; simpl; [lra|rewrite IH; lra]. Qed.

Lemma big_sum_scal_l (n : nat) (c : R) (f : nat -> R) :
  big_sum n (fun k => c * f k) = c * big_sum n f.
Proof. induction n as [|n IH]; simpl; [lra|rewrite IH; lra]. Qed.

Lemma big_sum_zero (n : nat) : big_sum n (fun _ => 0) = 0.
Proof. induction n as [|n IH]; simpl; [reflexivity|rewrite IH; lra]. Qed.

(** Exchange of two finite sums. *)
Lemma big_sum_swap (n m : nat) (f : nat -> nat -> R) :
  big_sum n (fun i => big_sum m (fun j => f i j)) =
  big_sum m (fun j => big_sum n (fun i => f i j)).
Proof.
  induction n as [|n IH]; simpl.
  - now rewrite big_sum_zero.
  - rewrite IH, <- big_sum_plus. reflexivity.
Qed.

(** Summing against the indicator of one index picks that entry. *)
Lemma big_sum_indicator (n d : nat) (g : nat -> R) :
  (d < n)%nat ->
  big_sum n (fun k => (if Nat.eqb k d then 1 else 0) * g k) = g d.
Proof.
  induction n as [|n IH]; intros Hd; [lia|]. simpl.
  destruct (Nat.eqb_spec n d) as [->|Hne].
  - rewrite (big_sum_ext d _ (fun _ => 0)), big_sum_zero; [lra|].
    intros k Hk. destruct (Nat.eqb_spec k d); [lia|lra].
  - rewrite IH by lia. lra.
Qed.

Lemma nth_map_seq {A : Type} (f : nat -> A) (n j : nat) (d : A) :
  (j < n)%nat -> nth j (map f (seq 0 n)) d = f j.
Proof.
  intros Hj. rewrite (nth_indep _ d (f O)) by now rewrite length_map, length_seq.
  rewrite (map_nth f (seq 0 n) O j), seq_nth by exact Hj. reflexivity.
Qed.

Lemma length_row_mul (x : row) (W : mat) : length (row_mul x W) = n_cols W.
Proof. unfold row_mul. now rewrite length_map, length_seq. Qed.

Lemma nth_row_mul (x : row) (W : mat) (j : nat) :
  (j < n_cols W)%nat ->
  nth j (row_mul x W) 0 = big_sum (length x) (fun k => nth k x 0 * at2 W k j).
Proof. intros Hj. unfold row_mul. now rewrite nth_map_seq. Qed.

Lemma nth_zip_with (f : R -> R -> R) (a b : row) (j : nat) :
  (j < length a)%nat -> (j < length b)%nat ->
  nth j (zip_with f a b) 0 = f (nth j a 0) (nth j b 0).
Proof.
  revert b j. induction a as [|x a IH]; intros [|y b] j Ha Hb; simpl in *; try lia.
  destruct j as [|j]; [reflexivity|]. apply IH; lia.
Qed.

Lemma nth_map_in (f : R -> R) (a : row) (j : nat) :
  (j < length a)%nat -> nth j (map f a) 0 = f (nth j a 0).
Proof.
  intros Hj. rewrite (nth_indep _ 0 (f 0)) by now rewrite length_map.
  apply map_nth.
Qed.

Lemma shape_n_cols (W : mat) (r c : nat) :
  shape W r c -> (1 <= r)%nat -> n_cols W = c.
Proof.
  intros [Hr Hc] Hpos. unfold n_cols. destruct W as [|w W]; simpl in *; [lia|].
  now inversion Hc.
Qed.

Lemma shape_row_length (W : mat) (r c i : nat) :
  shape W r c -> (i < r)%nat -> length (nth i W []) = c.
Proof.
  intros [Hr Hc] Hi. rewrite List.Forall_forall in Hc. apply Hc, nth_In. lia.
Qed.

Lemma at2_transpose (W : mat) (i j : nat) :
  (i < n_rows W)%nat -> (j < n_cols W)%nat ->
  at2 (transpose W) j i = at2 W i j.
Proof.
  intros Hi Hj. unfold at2 at 1, transpose.
  rewrite nth_map_seq by exact Hj. now rewrite nth_map_seq.
Qed.

Lemma shape_transpose (W : mat) (r c : nat) :
  shape W r c -> (1 <= r)%nat -> shape (transpose W) c r.
Proof.
  intros HW Hr. pose proof (shape_n_cols W r c HW Hr) as Hc.
  destruct HW as [Hlen _]. unfold shape, transpose. split.
  - now rewrite length_map, length_seq.
  - apply List.Forall_forall. intros rw Hin. apply in_map_iff in Hin.
    destruct Hin as [j [<- _]]. now rewrite length_map, length_seq.
Qed.

End ArmaFacts.

(** ** The forward pass *)

Section Forward.

Lemma forward_inv_init (st0 : Net) (x : row) :
  caches_sized st0 ->
  forward_inv st0
    (set_activation (set_preActivation st0 0 x) 0
       (m_preActivations (set_preActivation st0 0 x) !!! 0%nat)) x 0.
Proof.
  intros (Hp & Ha & _). unfold forward_inv; simpl.
  rewrite !length_insert. repeat split; try reflexivity.
  - assert (l = 0%nat) as -> by lia.
    rewrite list_lookup_total_insert_eq by lia. reflexivity.
  - assert (l = 0%nat) as -> by lia.
    rewrite !list_lookup_total_insert_eq by lia. reflexivity.
Qed.

Lemma forward_inv_step (st0 st : Net) (x : row) (k : nat) :
  caches_sized st0 -> (k < m_nLayers st0 + 1)%nat ->
  forward_inv st0 st x k ->
  forward_inv st0 (network_layer st k) x (S k).
Proof.
  intros (Hp & Ha & _) Hk (Hn & Hw & Hwt & Hb & Hd & Hlp & Hla & Hval).
  unfold forward_inv, network_layer; simpl.
  rewrite !length_insert. repeat split; try assumption.
  - destruct (Nat.eq_dec l (S k)) as [->|Hne].
    + replace (k + 1)%nat with (S k) by lia.
      rewrite list_lookup_total_insert_eq by lia. simpl.
      destruct (Hval k (Nat.le_refl k)) as [_ ->]. now rewrite Hw, Hb.
    + rewrite list_lookup_total_insert_ne by lia. apply Hval. lia.
  - destruct (Nat.eq_dec l (S k)) as [->|Hne].
    + replace (k + 1)%nat with (S k) by lia.
      rewrite !list_lookup_total_insert_eq by (rewrite ?length_insert; lia). simpl.
      destruct (Hval k (Nat.le_refl k)) as [_ ->]. now rewrite Hw, Hb.
    + rewrite list_lookup_total_insert_ne by lia. apply Hval. lia.
Qed.

Lemma forward_inv_loop (st0 st : Net) (x : row) (k : nat) :
  caches_sized st0 -> (k <= m_nLayers st0)%nat ->
  forward_inv st0 st x 0 ->
  forward_inv st0 (fold_left network_layer (seq 0 k) st) x k.
Proof.
  intros Hc. induction k as [|k IH]; intros Hk H0; [exact H0|].
  rewrite seq_S, fold_left_app. simpl.
  apply forward_inv_step; [exact Hc|lia|]. apply IH; [lia|exact H0].
Qed.

(** The state in which [network] leaves the class on input [x]. *)
Lemma network_state (st : Net) (x : row) :
  caches_sized st ->
  let n := m_nLayers st in
  let st' := snd (network st x) in
  fst (network st x) = network_spec n (m_weights st) (m_biases st) x /\
  m_nLayers st' = n /\ m_weights st' = m_weights st /\
  m_weightsTransposed st' = m_weightsTransposed st /\
  m_biases st' = m_biases st /\ caches_sized st' /\
  (forall l, (l <= n)%nat ->
     m_preActivations st' !!! l = pre_spec (m_weights st) (m_biases st) x l /\
     m_activations st' !!! l = activation_spec (m_weights st) (m_biases st) x l) /\
  m_preActivations st' !!! (n + 1)%nat = output_spec n (m_weights st) (m_biases st) x /\
  m_activations st' !!! (n + 1)%nat = output_spec n (m_weights st) (m_biases st) x.
Proof.
  intros Hc n.
  pose proof (forward_inv_loop st _ x n Hc (Nat.le_refl _) (forward_inv_init st x Hc))
    as (Hn & Hw & Hwt & Hb & Hd & Hlp & Hla & Hval).
  destruct Hc as (Hp & Ha & Hdl).
  unfold network. fold n. cbv zeta.
  set (st1 := fold_left network_layer (seq 0 n) _) in *.
  simpl. unfold caches_sized. simpl.
  rewrite !length_insert, Hn, Hlp, Hla, Hd.
  rewrite !list_lookup_total_insert_eq by (rewrite ?length_insert; lia).
  destruct (Hval n (Nat.le_refl n)) as [_ Hact].
  rewrite Hact, Hw, Hb. fold n.
  repeat split; try assumption; try reflexivity.
  - rewrite list_lookup_total_insert_ne by lia. now apply Hval.
  - rewrite list_lookup_total_insert_ne by lia. now apply Hval.
Qed.

End Forward.

(** ** The backward pass *)

Section Backward.

Lemma backward_inv_step (st0 st : Net) (s : nat) :
  caches_sized st0 -> (1 <= s <= m_nLayers st0)%nat ->
  backward_inv st0 st (S s) ->
  backward_inv st0 (backPropagation_layer st s) s.
Proof.
  intros (_ & _ & Hdl) Hs (Hn & Hw & Hwt & Hb & Hp & Ha & Hlen & Hval).
  unfold backward_inv, backPropagation_layer; simpl.
  rewrite length_insert. repeat split; try assumption.
  intros l Hl. destruct (Nat.eq_dec l s) as [->|Hne].
  - rewrite list_lookup_total_insert_eq by lia.
    replace (m_nLayers st0 + 1 - s)%nat with (S (m_nLayers st0 + 1 - S s)) by lia.
    simpl. replace (s + 1)%nat with (S s) by lia.
    rewrite Hval by lia. now rewrite Hwt, Hp.
  - rewrite list_lookup_total_insert_ne by lia. apply Hval. lia.
Qed.

Lemma backward_inv_loop (st0 st : Net) (len s : nat) :
  caches_sized st0 -> (1 <= s)%nat -> (s + len = m_nLayers st0 + 1)%nat ->
  backward_inv st0 st (m_nLayers st0 + 1) ->
  backward_inv st0 (fold_left backPropagation_layer (rev (seq s len)) st) s.
Proof.
  intros Hc. revert s. induction len as [|len IH]; intros s Hs Hsum H0.
  - simpl. now replace s with (m_nLayers st0 + 1)%nat by lia.
  - simpl. rewrite fold_left_app. simpl.
    apply backward_inv_step; [exact Hc|lia|]. apply IH; [lia|lia|exact H0].
Qed.

(** The row that [backPropagation] returns, in terms of the caches. *)
Lemma backPropagation_state (st : Net) :
  caches_sized st ->
  fst (backPropagation st) =
  row_mul (error_row (m_weightsTransposed st) (m_preActivations st) (m_nLayers st) 1)
          (m_weightsTransposed st !!! 0%nat).
Proof.
  intros Hc. pose proof Hc as (_ & _ & Hdl).
  assert (backward_inv st (set_derivative st (m_nLayers st + 1) [1]) (m_nLayers st + 1))
    as H0.
  { unfold backward_inv; simpl. rewrite length_insert. repeat split; try reflexivity.
    intros l Hl. assert (l = (m_nLayers st + 1)%nat) as -> by lia.
    rewrite list_lookup_total_insert_eq by lia.
    now replace (m_nLayers st + 1 - (m_nLayers st + 1))%nat with 0%nat by lia. }
  pose proof (backward_inv_loop st _ (m_nLayers st) 1 Hc (Nat.le_refl 1) ltac:(lia) H0)
    as (Hn & Hw & Hwt & Hb & Hp & Ha & Hlen & Hval).
  unfold backPropagation. cbv zeta.
  set (st1 := fold_left backPropagation_layer _ _) in *. simpl.
  rewrite list_lookup_total_insert_eq by lia.
  rewrite Hval by lia. rewrite Hwt.
  now replace (m_nLayers st + 1 - 1)%nat with (m_nLayers st) by lia.
Qed.

End Backward.

(** ** Differentiating the network *)

Section Calculus.

Lemma derivable_pt_lim_big_sum (m : nat) (g : nat -> R -> R) (dg : nat -> R)
      (c : nat -> R) (t0 : R) :
  (forall k, (k < m)%nat -> derivable_pt_lim (g k) t0 (dg k)) ->
  derivable_pt_lim (fun t => big_sum m (fun k => g k t * c k)) t0
                   (big_sum m (fun k => dg k * c k)).
Proof.
  induction m as [|m IH]; intros Hg; simpl.
  - apply (derivable_pt_lim_const 0).
  - apply (derivable_pt_lim_plus (fun t => big_sum m (fun k => g k t * c k))
                                 (fun t => g m t * c m)).
    + apply IH. intros k Hk. apply Hg. lia.
    + apply derivable_pt_lim_scal_right. apply Hg. lia.
Qed.

Lemma sigmoid1_denominator (x : R) : 1 + exp (- x) <> 0.
Proof. pose proof (exp_pos (- x)). lra. Qed.

(** [sigmoid' = sigmoid * (1 - sigmoid)], the factor the code multiplies in. *)
Lemma derivable_pt_lim_sigmoid1 (x : R) :
  derivable_pt_lim sigmoid1 x (sigmoid1 x * (1 - sigmoid1 x)).
Proof.
  pose proof (sigmoid1_denominator x) as Hden.
  assert (derivable_pt_lim (fun y => 1 + exp (- y)) x (0 + exp (- x) * (- 1))) as H2.
  { apply (derivable_pt_lim_plus (fct_cte 1) (fun y => exp (- y))).
    - apply derivable_pt_lim_const.
    - apply (derivable_pt_lim_comp (fun y => - y) exp).
      + apply (derivable_pt_lim_opp id), derivable_pt_lim_id.
      + apply derivable_pt_lim_exp. }
  pose proof (derivable_pt_lim_div (fct_cte 1) (fun y => 1 + exp (- y)) x _ _
                (derivable_pt_lim_const 1 x) H2 Hden) as H.
  replace (sigmoid1 x * (1 - sigmoid1 x))
    with ((0 * (1 + exp (- x)) - (0 + exp (- x) * -1) * fct_cte 1 x)
          / Rsqr (1 + exp (- x))).
  - exact H.
  - unfold sigmoid1, fct_cte, Rsqr. field. exact Hden.
Qed.

Lemma derivable_pt_lim_sigmoid1_comp (h : R -> R) (t0 dh : R) :
  derivable_pt_lim h t0 dh ->
  derivable_pt_lim (fun t => sigmoid1 (h t)) t0
                   (sigmoid1 (h t0) * (1 - sigmoid1 (h t0)) * dh).
Proof.
  intros Hh. apply (derivable_pt_lim_comp h sigmoid1); [exact Hh|].
  apply derivable_pt_lim_sigmoid1.
Qed.

End Calculus.

(** ** Back-propagation computes the gradient *)

Section Gradient.

(** Layer widths [dims 0, ..., dims (n+1)], weights [ws], their transposes
    [wts] and biases [bs], with shapes that chain. *)
Variables (n : nat) (ws wts : list mat) (bs : list row) (dims : nat -> nat).
Hypothesis Hdims : forall i, (i <= n + 1)%nat -> (1 <= dims i)%nat.
Hypothesis Hout : dims (n + 1)%nat = 1%nat.
Hypothesis Hshape :
  forall i, (i <= n)%nat -> shape (ws !!! i) (dims i) (dims (i + 1)%nat).
Hypothesis Hbias : forall i, (i <= n)%nat -> length (bs !!! i) = dims (i + 1)%nat.
Hypothesis Hwts : forall i, (i <= n)%nat -> wts !!! i = transpose (ws !!! i).

Lemma n_cols_weight (i : nat) : (i <= n)%nat -> n_cols (ws !!! i) = dims (i + 1)%nat.
Proof. intros Hi. eapply shape_n_cols; [apply Hshape, Hi|apply Hdims; lia]. Qed.

Lemma length_feed (i : nat) (a : row) :
  (i <= n)%nat -> length (feed ws bs i a) = dims (i + 1)%nat.
Proof.
  intros Hi. unfold feed, row_add.
  rewrite length_zip_with, length_row_mul, n_cols_weight, Hbias by exact Hi. lia.
Qed.

Lemma nth_feed (i j : nat) (a : row) :
  (i <= n)%nat -> (j < dims (i + 1))%nat ->
  nth j (feed ws bs i a) 0 =
  big_sum (length a) (fun k => nth k a 0 * at2 (ws !!! i) k j) + nth j (bs !!! i) 0.
Proof.
  intros Hi Hj. unfold feed, row_add.
  rewrite nth_zip_with
    by (rewrite ?length_row_mul, ?n_cols_weight, ?Hbias by exact Hi; exact Hj).
  rewrite nth_row_mul by (rewrite n_cols_weight by exact Hi; exact Hj).
  reflexivity.
Qed.

Lemma length_sigmoid (p : row) : length (sigmoid p) = length p.
Proof. apply length_map. Qed.

Lemma length_sigmoidDerivative (p : row) : length (sigmoidDerivative p) = length p.
Proof.
  unfold sigmoidDerivative, schur. cbv zeta.
  rewrite length_zip_with, length_map, length_sigmoid. lia.
Qed.

Lemma nth_sigmoidDerivative (p : row) (j : nat) :
  (j < length p)%nat ->
  nth j (sigmoidDerivative p) 0 = sigmoid1 (nth j p 0) * (1 - sigmoid1 (nth j p 0)).
Proof.
  intros Hj. unfold sigmoidDerivative, schur. cbv zeta.
  rewrite nth_zip_with by (rewrite ?length_map, length_sigmoid; exact Hj).
  rewrite nth_map_in by (rewrite length_sigmoid; exact Hj).
  unfold sigmoid. now rewrite nth_map_in.
Qed.

Lemma length_mul_transposed (i : nat) (e : row) :
  (i <= n)%nat -> length (row_mul e (wts !!! i)) = dims i.
Proof.
  intros Hi. rewrite length_row_mul, Hwts by exact Hi.
  eapply shape_n_cols.
  - apply shape_transpose; [apply Hshape, Hi|apply Hdims; lia].
  - apply Hdims. lia.
Qed.

Lemma nth_mul_transposed (i k : nat) (e : row) :
  (i <= n)%nat -> (k < dims i)%nat -> length e = dims (i + 1)%nat ->
  nth k (row_mul e (wts !!! i)) 0 =
  big_sum (dims (i + 1)) (fun j => nth j e 0 * at2 (ws !!! i) k j).
Proof.
  intros Hi Hk He.
  rewrite nth_row_mul
    by (rewrite <- (length_row_mul e), length_mul_transposed; assumption).
  rewrite He, Hwts by exact Hi. apply big_sum_ext. intros j Hj.
  rewrite at2_transpose; [reflexivity| |].
  - unfold n_rows. destruct (Hshape i Hi) as [-> _]. exact Hk.
  - now rewrite n_cols_weight.
Qed.

Lemma length_error_of (f i : nat) (a : row) :
  (f + i = n)%nat -> length (error_of ws wts bs f i a) = dims (i + 1)%nat.
Proof.
  revert i a. induction f as [|f IH]; intros i a Hfi; simpl.
  - replace i with n by lia. now rewrite Hout.
  - unfold schur.
    rewrite length_zip_with, length_sigmoidDerivative, length_feed by lia.
    replace (S i) with (i + 1)%nat by lia.
    rewrite length_mul_transposed by lia. lia.
Qed.

(** Chain rule along a differentiable path of activations of layer [i]. *)
Lemma output_from_derivable (f : nat) :
  forall (i : nat) (g : R -> row) (dg : nat -> R) (t0 : R),
    (f + i = n)%nat ->
    (forall t, length (g t) = dims i) ->
    (forall k, (k < dims i)%nat ->
       derivable_pt_lim (fun t => nth k (g t) 0) t0 (dg k)) ->
    derivable_pt_lim (fun t => output_from ws bs f i (g t)) t0
      (big_sum (dims i)
         (fun k => dg k * nth k (row_mul (error_of ws wts bs f i (g t0)) (wts !!! i)) 0)).
Proof.
  induction f as [|f IH]; intros i g dg t0 Hfi Hlen Hg.
  - assert (i = n) as -> by lia. simpl.
    apply derivable_pt_lim_ext with
      (f := fun t => big_sum (dims n) (fun k => nth k (g t) 0 * at2 (ws !!! n) k 0)
                     + fct_cte (nth 0 (bs !!! n) 0) t).
    { intros t. rewrite nth_feed by (rewrite ?Hout; lia). now rewrite Hlen. }
    replace (big_sum (dims n) _)
      with (big_sum (dims n) (fun k => dg k * at2 (ws !!! n) k 0) + 0).
    + apply (derivable_pt_lim_plus
               (fun t => big_sum (dims n) (fun k => nth k (g t) 0 * at2 (ws !!! n) k 0))
               (fct_cte (nth 0 (bs !!! n) 0))).
      * apply (derivable_pt_lim_big_sum (dims n) (fun k t => nth k (g t) 0)). exact Hg.
      * apply derivable_pt_lim_const.
    + rewrite Rplus_0_r. apply big_sum_ext. intros k Hk.
      rewrite nth_mul_transposed by (rewrite ?Hout; simpl; lia).
      rewrite Hout. simpl. lra.
  - simpl output_from.
    set (p := feed ws bs i (g t0)).
    set (dg2 := fun j => sigmoid1 (nth j p 0) * (1 - sigmoid1 (nth j p 0)) *
                         big_sum (dims i) (fun k => dg k * at2 (ws !!! i) k j)).
    assert (forall t, length (sigmoid (feed ws bs i (g t))) = dims (S i)) as Hlen2.
    { intros t. rewrite length_sigmoid, length_feed by lia. f_equal. lia. }
    assert (forall j, (j < dims (S i))%nat ->
              derivable_pt_lim (fun t => nth j (sigmoid (feed ws bs i (g t))) 0) t0 (dg2 j))
      as Hg2.
    { intros j Hj. replace (S i) with (i + 1)%nat in Hj by lia.
      apply derivable_pt_lim_ext with
        (f := fun t => sigmoid1
                (big_sum (dims i) (fun k => nth k (g t) 0 * at2 (ws !!! i) k j)
                 + fct_cte (nth j (bs !!! i) 0) t)).
      { intros t. unfold sigmoid.
        rewrite nth_map_in by (rewrite length_feed by lia; exact Hj).
        rewrite nth_feed by (exact Hj || lia). now rewrite Hlen. }
      unfold dg2, p. rewrite nth_feed by (exact Hj || lia). rewrite Hlen.
      apply (derivable_pt_lim_sigmoid1_comp
               (fun t => big_sum (dims i) (fun k => nth k (g t) 0 * at2 (ws !!! i) k j)
                         + fct_cte (nth j (bs !!! i) 0) t)).
      replace (big_sum (dims i) (fun k => dg k * at2 (ws !!! i) k j))
        with (big_sum (dims i) (fun k => dg k * at2 (ws !!! i) k j) + 0) by lra.
      apply (derivable_pt_lim_plus
               (fun t => big_sum (dims i) (fun k => nth k (g t) 0 * at2 (ws !!! i) k j))
               (fct_cte (nth j (bs !!! i) 0))).
      - apply (derivable_pt_lim_big_sum (dims i) (fun k t => nth k (g t) 0)). exact Hg.
      - apply derivable_pt_lim_const. }
    pose proof (IH (S i) (fun t => sigmoid (feed ws bs i (g t))) dg2 t0
                   ltac:(lia) Hlen2 Hg2) as HD.
    cbv beta in HD. fold p in HD.
    replace (big_sum (dims i) _)
      with (big_sum (dims (S i))
              (fun j => dg2 j *
                 nth j (row_mul (error_of ws wts bs f (S i) (sigmoid p)) (wts !!! (S i))) 0));
      [exact HD|].
    set (G := fun j => nth j (row_mul (error_of ws wts bs f (S i) (sigmoid p)) (wts !!! (S i))) 0).
    set (s := fun j => sigmoid1 (nth j p 0) * (1 - sigmoid1 (nth j p 0))).
    transitivity (big_sum (dims (S i))
                    (fun j => big_sum (dims i)
                       (fun k => dg k * (G j * s j * at2 (ws !!! i) k j)))).
    { apply big_sum_ext. intros j Hj. unfold dg2. fold (G j) (s j).
      rewrite (big_sum_ext (dims i)
                 (fun k => dg k * (G j * s j * at2 (ws !!! i) k j))
                 (fun k => (G j * s j) * (dg k * at2 (ws !!! i) k j)))
        by (intros; ring).
      rewrite big_sum_scal_l. ring. }
    rewrite big_sum_swap. apply big_sum_ext. intros k Hk.
    rewrite big_sum_scal_l. f_equal.
    rewrite nth_mul_transposed; [| lia | exact Hk |].
    + replace (i + 1)%nat with (S i) by lia. apply big_sum_ext. intros j Hj.
      f_equal. simpl error_of. fold p. unfold schur.
      rewrite nth_zip_with.
      * rewrite nth_sigmoidDerivative; [reflexivity|].
        unfold p. rewrite length_feed by lia. now replace (i + 1)%nat with (S i) by lia.
      * rewrite length_mul_transposed by lia. exact Hj.
      * rewrite length_sigmoidDerivative. unfold p. rewrite length_feed by lia.
        now replace (i + 1)%nat with (S i) by lia.
    + apply length_error_of. lia.
Qed.

End Gradient.

(** ** The class against the layer recursion *)

Section NetworkGradient.

Lemma output_from_activation (n : nat) (ws : list mat) (bs : list row) (x : row) (f : nat) :
  forall i, (f + i = n)%nat ->
    output_from ws bs f i (activation_spec ws bs x i) = network_spec n ws bs x.
Proof.
  induction f as [|f IH]; intros i Hfi.
  - simpl in Hfi. subst i. reflexivity.
  - simpl. rewrite <- (IH (S i)) by lia. reflexivity.
Qed.

Lemma error_row_activation (n : nat) (ws wts : list mat) (bs pres : list row)
      (x : row) (f : nat) :
  (forall l, (l <= n)%nat -> pres !!! l = pre_spec ws bs x l) ->
  forall i, (f + i = n)%nat ->
    error_row wts pres f (S i) = error_of ws wts bs f i (activation_spec ws bs x i).
Proof.
  intros Hpres. induction f as [|f IH]; intros i Hfi; [reflexivity|].
  simpl. rewrite IH by lia. rewrite Hpres by lia. reflexivity.
Qed.

Lemma nth_insert_row (x : row) (d k : nat) (t : R) :
  (d < length x)%nat ->
  nth k (<[d:=t]> x) 0 = if Nat.eqb k d then t else nth k x 0.
Proof.
  revert d k. induction x as [|a x IH]; intros d k Hd; simpl in Hd; [lia|].
  destruct d as [|d], k as [|k]; simpl; try reflexivity.
  apply IH. lia.
Qed.

Lemma insert_nth_row (x : row) (d : nat) : <[d:=nth d x 0]> x = x.
Proof.
  revert d. induction x as [|a x IH]; intros [|d]; simpl; try reflexivity.
  f_equal. apply IH.
Qed.

End NetworkGradient.

Section NetworkClaims.

(** C1. For every parameter set whose shapes chain and every input row [x]
    of width [D = dims 0], the row that [backPropagation] returns after
    [network] has run on [x] has width [D], and its [d]-th entry is the
    derivative of the scalar returned by [network] with respect to the
    [d]-th component of the input, for every [d < D]. *)
Theorem backPropagation_is_gradient (st : Net) (dims : nat -> nat) (x : row) (d : nat) :
  well_formed st dims -> length x = dims 0%nat -> (d < dims 0%nat)%nat ->
  let dEdG := fst (backPropagation (snd (network st x))) in
  length dEdG = dims 0%nat /\
  derivable_pt_lim (fun t => fst (network st (<[d:=t]> x))) (nth d x 0) (nth d dEdG 0).
Proof.
  intros (Hc & Hdims & Hout & Hshape & Hbias & Hwts) Hx Hd dEdG.
  set (n := m_nLayers st) in *.
  set (ws := m_weights st) in *. set (bs := m_biases st) in *.
  set (wts := m_weightsTransposed st) in *.
  destruct (network_state st x Hc)
    as (_ & Hn' & _ & Hwt' & _ & Hc' & Hcache & _).
  assert (dEdG = row_mul (error_of ws wts bs n 0 x) (wts !!! 0%nat)) as HdEdG.
  { unfold dEdG. rewrite backPropagation_state by exact Hc'.
    rewrite Hwt', Hn'. fold wts n.
    rewrite (error_row_activation n ws wts bs _ x n); [reflexivity| |lia].
    intros l Hl. now apply Hcache. }
  split.
  - rewrite HdEdG.
    eapply (length_mul_transposed n ws wts dims); try eassumption. lia.
  - apply derivable_pt_lim_ext with (f := fun t => output_from ws bs n 0 (<[d:=t]> x)).
    { intros t. destruct (network_state st (<[d:=t]> x) Hc) as (-> & _).
      apply (output_from_activation n ws bs (<[d:=t]> x) n 0%nat). lia. }
    pose proof (fun H1 H2 H3 H4 H5 =>
                  output_from_derivable n ws wts bs dims H1 H2 H3 H4 H5 n 0%nat
                  (fun t => <[d:=t]> x) (fun k => if Nat.eqb k d then 1 else 0)
                  (nth d x 0)) as HD.
    specialize (HD Hdims Hout Hshape Hbias Hwts).
    cbv beta in HD. rewrite insert_nth_row in HD.
    rewrite big_sum_indicator in HD by exact Hd.
    rewrite HdEdG. apply HD.
    + lia.
    + intros t. now rewrite length_insert.
    + intros k Hk. apply derivable_pt_lim_ext with
        (f := fun t => if Nat.eqb k d then id t else fct_cte (nth k x 0) t).
      { intros t. rewrite nth_insert_row by lia. reflexivity. }
      destruct (Nat.eqb k d).
      * apply derivable_pt_lim_id.
      * apply derivable_pt_lim_const.
Qed.

Lemma tiny_net_well_formed : well_formed tiny_net tiny_dims.
Proof.
  unfold well_formed, caches_sized, tiny_net; simpl.
  split; [repeat split|].
  split; [intros [|[|[|k]]] Hk; unfold tiny_dims; simpl; lia|].
  split; [reflexivity|].
  split; [|split]; intros [|[|k]] Hk; try lia; try reflexivity;
    unfold shape, tiny_dims; simpl; repeat constructor.
Qed.

Lemma backPropagation_is_gradient_witness :
  let dEdG := fst (backPropagation (snd (network tiny_net [0]))) in
  length dEdG = 1%nat /\
  derivable_pt_lim (fun t => fst (network tiny_net (<[0%nat:=t]> [0]))) 0 (nth 0 dEdG 0).
Proof.
  apply (backPropagation_is_gradient tiny_net tiny_dims [0] 0%nat).
  - exact tiny_net_well_formed.
  - reflexivity.
  - unfold tiny_dims. simpl. lia.
Defined.

(** C5. On a [1 x D] input row, [network] leaves in its caches, for each
    hidden layer [l] in order, [pre[l+1] = activation[l] * W[l] + b[l]] and
    [activation[l+1] = sigmoid(pre[l+1])], where [sigmoid] is
    [1/(1+exp(-x))] entry by entry; the output layer gets the same affine
    map and the identity instead of the sigmoid; the value returned is entry
    [(0,0)] of that last activation. *)
Theorem network_forward_pass (st : Net) (x : row) :
  caches_sized st ->
  let n := m_nLayers st in
  let out := fst (network st x) in
  let pre := m_preActivations (snd (network st x)) in
  let activation := m_activations (snd (network st x)) in
  let W := m_weights st in
  let b := m_biases st in
  activation !!! 0%nat = x /\
  (forall l, (l < n)%nat ->
     pre !!! (l + 1)%nat = row_add (row_mul (activation !!! l) (W !!! l)) (b !!! l) /\
     activation !!! (l + 1)%nat = sigmoid (pre !!! (l + 1)%nat)) /\
  (forall (m : row) (j : nat), (j < length m)%nat ->
     nth j (sigmoid m) 0 = 1 / (1 + exp (- nth j m 0))) /\
  pre !!! (n + 1)%nat = row_add (row_mul (activation !!! n) (W !!! n)) (b !!! n) /\
  activation !!! (n + 1)%nat = pre !!! (n + 1)%nat /\
  out = nth 0 (activation !!! (n + 1)%nat) 0 /\
  out = network_spec n W b x.
Proof.
  intros Hc n out pre activation W b.
  destruct (network_state st x Hc)
    as (Hout & _ & _ & _ & _ & _ & Hcache & Hpre & Hact).
  fold n pre activation W b in Hout, Hcache, Hpre, Hact.
  split; [apply (Hcache 0%nat); lia|].
  split.
  { intros l Hl. replace (l + 1)%nat with (S l) by lia.
    destruct (Hcache (S l) ltac:(lia)) as [-> ->].
    destruct (Hcache l ltac:(lia)) as [_ ->]. split; reflexivity. }
  split; [intros m j Hj; unfold sigmoid; now rewrite nth_map_in|].
  destruct (Hcache n (Nat.le_refl n)) as [_ Hn].
  rewrite Hpre, Hact, Hn. repeat split; exact Hout.
Qed.

Lemma network_forward_pass_witness :
  let out := fst (network tiny_net [3]) in
  let pre := m_preActivations (snd (network tiny_net [3])) in
  let activation := m_activations (snd (network tiny_net [3])) in
  let W := m_weights tiny_net in
  let b := m_biases tiny_net in
  activation !!! 0%nat = [3] /\
  (forall l, (l < 1)%nat ->
     pre !!! (l + 1)%nat = row_add (row_mul (activation !!! l) (W !!! l)) (b !!! l) /\
     activation !!! (l + 1)%nat = sigmoid (pre !!! (l + 1)%nat)) /\
  (forall (m : row) (j : nat), (j < length m)%nat ->
     nth j (sigmoid m) 0 = 1 / (1 + exp (- nth j m 0))) /\
  pre !!! (1 + 1)%nat = row_add (row_mul (activation !!! 1%nat) (W !!! 1%nat)) (b !!! 1%nat) /\
  activation !!! (1 + 1)%nat = pre !!! (1 + 1)%nat /\
  out = nth 0 (activation !!! (1 + 1)%nat) 0 /\
  out = network_spec 1 W b [3].
Proof.
  apply (network_forward_pass tiny_net [3]).
  unfold caches_sized. simpl. repeat split.
Defined.

End NetworkClaims.

(** ** The cutoff envelope and the radial symmetry function *)

Section Envelope.

Variable m_pi : R.

Lemma nth_insert_any (x : row) (d k : nat) (t : R) :
  nth k (<[d:=t]> x) 0 =
  if Nat.eqb k d && Nat.ltb d (length x) then t else nth k x 0.
Proof.
  destruct (Nat.ltb_spec d (length x)) as [Hd|Hd].
  - rewrite nth_insert_row by exact Hd. now rewrite andb_true_r.
  - rewrite list_insert_ge by exact Hd. now rewrite andb_false_r.
Qed.

(** One pass of the loop over the symmetry functions, entry by entry. *)
Lemma add_symmetry_spec (sty : Style) (arity : nat) (G : list R -> R) (input : row) :
  length (add_symmetry sty arity G input) = length input /\
  forall s,
    nth s (add_symmetry sty arity G input) 0 =
    if Nat.ltb s (m_numberOfSymmFunc sty) && Nat.ltb s (length input)
       && Nat.eqb (length (m_parameters sty !!! s)) arity
    then nth s input 0 + G (m_parameters sty !!! s)
    else nth s input 0.
Proof.
  unfold add_symmetry. induction (m_numberOfSymmFunc sty) as [|n [IHlen IH]].
  - simpl. split; [reflexivity|]. intros s. reflexivity.
  - rewrite seq_S, fold_left_app. simpl.
    set (inp := fold_left _ (seq 0 n) input) in *.
    destruct (Nat.eqb_spec (length (m_parameters sty !!! n)) arity) as [Har|Har].
    + split; [now rewrite length_insert|]. intros s.
      rewrite nth_insert_any, IHlen, !IH.
      destruct (Nat.eqb_spec s n) as [->|Hne]; simpl.
      * rewrite Nat.ltb_irrefl. simpl.
        replace (n <? S n)%nat with true by (symmetry; apply Nat.ltb_lt; lia).
        destruct (Nat.ltb_spec n (length input)); simpl.
        -- destruct (Nat.eqb_spec (length (m_parameters sty !!! n)) arity);
             [reflexivity|contradiction].
        -- reflexivity.
      * replace (s <? S n)%nat with (s <? n)%nat; [reflexivity|].
        destruct (Nat.ltb_spec s n), (Nat.ltb_spec s (S n)); try reflexivity; lia.
    + split; [exact IHlen|]. intros s. rewrite IH.
      destruct (Nat.eqb_spec s n) as [->|Hne].
      * rewrite Nat.ltb_irrefl. simpl.
        destruct (Nat.eqb_spec (length (m_parameters sty !!! n)) arity);
          [contradiction|]. now rewrite andb_false_r.
      * replace (s <? S n)%nat with (s <? n)%nat; [reflexivity|].
        destruct (Nat.ltb_spec s n), (Nat.ltb_spec s (S n)); try reflexivity; lia.
Qed.

Lemma Fc_beyond (r Rc : R) : Rc <= r -> Fc m_pi r Rc = 0.
Proof. intros H. unfold Fc. destruct (Rlt_dec r Rc); [lra|reflexivity]. Qed.

Lemma G2_at_cutoff (eta Rc Rs : R) : G2 m_pi Rc eta Rc Rs = 0.
Proof. unfold G2. rewrite Fc_beyond by lra. ring. Qed.

(** C4. For every cutoff radius [Rc > 0], both overloads of [Fc]:
    [Fc(0,Rc) = 1]; [Fc(R,Rc) = 0] for every [R >= Rc] (the clamped branch
    returns the constant 0, not the cosine), and below [Rc] it is
    [0.5 (cos(m_pi R / Rc) + 1)]; the matrix overload keeps the number of
    entries, is 1 at an entry 0 whatever [cut], is 0 with [cut = true] at
    every entry beyond [Rc], and at [Rc] itself as soon as
    [cos(m_pi) = -1], and is the cosine expression at every entry up to
    [Rc], or at every entry when [cut = false]; hence [G2] vanishes at
    distance [Rc], and a neighbour at distance exactly [Rc] leaves
    unchanged every descriptor entry whose record is [(eta, Rc, Rs)]. *)
Theorem Fc_envelope (Rc : R) :
  0 < Rc ->
  Fc m_pi 0 Rc = 1 /\
  (forall r, Rc <= r -> Fc m_pi r Rc = 0) /\
  (forall r, r < Rc -> Fc m_pi r Rc = 0.5 * (cos (m_pi * r / Rc) + 1)) /\
  (forall (rs : row) (cut : bool), length (Fc_mat m_pi rs Rc cut) = length rs) /\
  (forall (rs : row) (cut : bool) (j : nat), (j < length rs)%nat ->
     nth j rs 0 = 0 -> nth j (Fc_mat m_pi rs Rc cut) 0 = 1) /\
  (forall (rs : row) (j : nat), (j < length rs)%nat ->
     (Rc < nth j rs 0 \/ (nth j rs 0 = Rc /\ cos m_pi = -1)) ->
     nth j (Fc_mat m_pi rs Rc true) 0 = 0) /\
  (forall (rs : row) (cut : bool) (j : nat), (j < length rs)%nat ->
     (nth j rs 0 <= Rc \/ cut = false) ->
     nth j (Fc_mat m_pi rs Rc cut) 0 = 0.5 * (cos (m_pi * nth j rs 0 / Rc) + 1)) /\
  (forall eta Rs, G2 m_pi Rc eta Rc Rs = 0) /\
  (forall (sty : Style) (inputVector : row) (s : nat) (eta Rs : R),
     m_parameters sty !!! s = [eta; Rc; Rs] ->
     nth s (add_symmetry sty 3 (G2_of m_pi Rc) inputVector) 0 = nth s inputVector 0).
Proof.
  intros HRc.
  assert (forall (rs : row) (cut : bool) (j : nat), (j < length rs)%nat ->
            (nth j rs 0 <= Rc \/ cut = false) ->
            nth j (Fc_mat m_pi rs Rc cut) 0 =
            0.5 * (cos (m_pi * nth j rs 0 / Rc) + 1)) as Hcos.
  { intros rs cut j Hj Hr. unfold Fc_mat. rewrite nth_map_in by exact Hj. cbv zeta.
    destruct cut; [|reflexivity].
    destruct (Rgt_dec (nth j rs 0) Rc) as [Hgt|_]; [|reflexivity].
    destruct Hr as [Hr|Hr]; [lra|discriminate]. }
  repeat match goal with |- _ /\ _ => split end.
  - unfold Fc. destruct (Rlt_dec 0 Rc) as [_|H]; [|lra].
    replace (m_pi * 0 / Rc) with 0 by (field; lra). rewrite cos_0. lra.
  - intros r Hr. now apply Fc_beyond.
  - intros r Hr. unfold Fc. destruct (Rlt_dec r Rc); [reflexivity|lra].
  - intros rs cut. unfold Fc_mat. apply length_map.
  - intros rs cut j Hj H0. rewrite Hcos by (try assumption; left; lra).
    rewrite H0. replace (m_pi * 0 / Rc) with 0 by (field; lra). rewrite cos_0. lra.
  - intros rs j Hj Hr. unfold Fc_mat. rewrite nth_map_in by exact Hj. cbv zeta.
    destruct (Rgt_dec (nth j rs 0) Rc) as [_|Hle]; [reflexivity|].
    destruct Hr as [Hr|[Hr Hcosm]]; [lra|].
    rewrite Hr. replace (m_pi * Rc / Rc) with m_pi by (field; lra).
    rewrite Hcosm. lra.
  - exact Hcos.
  - intros eta Rs. apply G2_at_cutoff.
  - intros sty inputVector s eta Rs Hp.
    destruct (add_symmetry_spec sty 3 (G2_of m_pi Rc) inputVector) as [_ ->].
    destruct (_ && _); [|reflexivity].
    unfold G2_of. rewrite Hp. simpl. rewrite G2_at_cutoff. lra.
Qed.

End Envelope.

Lemma Fc_envelope_witness :
  Fc PI 0 2 = 1 /\
  (forall r, 2 <= r -> Fc PI r 2 = 0) /\
  (forall r, r < 2 -> Fc PI r 2 = 0.5 * (cos (PI * r / 2) + 1)) /\
  (forall (rs : row) (cut : bool), length (Fc_mat PI rs 2 cut) = length rs) /\
  (forall (rs : row) (cut : bool) (j : nat), (j < length rs)%nat ->
     nth j rs 0 = 0 -> nth j (Fc_mat PI rs 2 cut) 0 = 1) /\
  (forall (rs : row) (j : nat), (j < length rs)%nat ->
     (2 < nth j rs 0 \/ (nth j rs 0 = 2 /\ cos PI = -1)) ->
     nth j (Fc_mat PI rs 2 true) 0 = 0) /\
  (forall (rs : row) (cut : bool) (j : nat), (j < length rs)%nat ->
     (nth j rs 0 <= 2 \/ cut = false) ->
     nth j (Fc_mat PI rs 2 cut) 0 = 0.5 * (cos (PI * nth j rs 0 / 2) + 1)) /\
  (forall eta Rs, G2 PI 2 eta 2 Rs = 0) /\
  (forall (sty : Style) (inputVector : row) (s : nat) (eta Rs : R),
     m_parameters sty !!! s = [eta; 2; Rs] ->
     nth s (add_symmetry sty 3 (G2_of PI 2) inputVector) 0 = nth s inputVector 0).
Proof. apply (Fc_envelope PI 2). lra. Defined.

(** ** The descriptor engine *)

Section Descriptor.

Variable m_pi : R.
Variable pow : R -> R -> R.
Variable NEIGHMASK : Z.

Variable sty : Style.
Variable x : list V3.
Variable xi : V3.

Lemma collect_triplets_input (jz : Z) (ks : list Z) (input : row) :
  let res := collect_triplets m_pi pow NEIGHMASK sty x xi (mask NEIGHMASK jz)
               (V3_sub (x !!! mask NEIGHMASK jz) xi) (neighbour_distance NEIGHMASK x xi jz) ks input in
  length (snd res) = length input /\
  forall s,
    nth s (snd res) 0 =
    nth s input 0 +
    (if entry_of_arity sty 4 (length input) s
     then near_sum NEIGHMASK sty x xi (angular_part m_pi pow NEIGHMASK x xi (m_parameters sty !!! s) jz) ks else 0).
Proof.
  revert input. induction ks as [|kz ks IH]; intros input; simpl.
  - split; [reflexivity|]. intros s. destruct (entry_of_arity _ _ _ _); lra.
  - destruct (Rge_dec _ _) as [Hfar|Hnear]; [apply IH|].
    match goal with
    | |- context [collect_triplets _ _ _ _ _ _ _ _ _ ks ?inp] =>
        specialize (IH inp); destruct (add_symmetry_spec sty 4 (G5_of m_pi pow
          (neighbour_distance NEIGHMASK x xi jz) (sqrt (rsq (V3_sub (x !!! mask NEIGHMASK kz) xi)))
          (dot (V3_sub (x !!! mask NEIGHMASK jz) xi) (V3_sub (x !!! mask NEIGHMASK kz) xi)
           / (neighbour_distance NEIGHMASK x xi jz * sqrt (rsq (V3_sub (x !!! mask NEIGHMASK kz) xi)))))
          input) as [Hlen Hnth];
        destruct (collect_triplets _ _ _ _ _ _ _ _ _ ks inp) as [ts out]
    end.
    simpl in *. destruct IH as [IHlen IHnth]. split; [congruence|].
    intros s. rewrite IHnth, Hnth, Hlen. unfold entry_of_arity, angular_part,
      neighbour_cos, neighbour_distance.
    destruct (_ && _); lra.
Qed.

Lemma collect_pairs_input (js : list Z) (input : row) :
  let res := collect_pairs m_pi pow NEIGHMASK sty x xi js input in
  length (snd res) = length input /\
  forall s,
    nth s (snd res) 0 =
    nth s input 0 +
    (if entry_of_arity sty 3 (length input) s
     then near_sum NEIGHMASK sty x xi (radial_part m_pi NEIGHMASK x xi (m_parameters sty !!! s)) js else 0) +
    (if entry_of_arity sty 4 (length input) s
     then near_pair_sum NEIGHMASK sty x xi (angular_part m_pi pow NEIGHMASK x xi (m_parameters sty !!! s)) js else 0).
Proof.
  revert input. induction js as [|jz js IH]; intros input; simpl.
  - split; [reflexivity|]. intros s. do 2 destruct (entry_of_arity _ _ _ _); lra.
  - destruct (Rge_dec _ _) as [Hfar|Hnear]; [apply IH|].
    fold (neighbour_distance NEIGHMASK x xi jz).
    destruct (add_symmetry_spec sty 3 (G2_of m_pi (neighbour_distance NEIGHMASK x xi jz)) input)
      as [Hlen Hnth].
    pose proof (collect_triplets_input jz js
                  (add_symmetry sty 3 (G2_of m_pi (neighbour_distance NEIGHMASK x xi jz)) input))
      as [Tlen Tnth].
    destruct (collect_triplets _ _ _ _ _ _ _ _ _ js _) as [ts out1].
    specialize (IH out1).
    destruct (collect_pairs _ _ _ _ _ _ js out1) as [ps out2].
    simpl in *. destruct IH as [IHlen IHnth]. split; [congruence|].
    intros s. rewrite IHnth, Tnth, Hnth, Tlen, Hlen.
    unfold entry_of_arity, radial_part.
    destruct (_ && _), (_ && _); lra.
Qed.

End Descriptor.

(** ** Radial descriptors *)

Section Radial.

Variable m_pi : R.
Variable pow : R -> R -> R.
Variable NEIGHMASK : Z.

Lemma rsq_nonneg (d : V3) : 0 <= rsq d.
Proof. unfold rsq. nra. Qed.

(** For a non-negative cutoff, the test on squares is the test on distances. *)
Lemma cutoff_test (c r : R) : 0 <= c -> 0 <= r -> (r >= c * c <-> ~ sqrt r < c).
Proof.
  intros Hc Hr. split.
  - intros Hge Hlt.
    assert (sqrt r * sqrt r < c * c) by (pose proof (sqrt_pos r); nra).
    rewrite sqrt_sqrt in H by exact Hr. lra.
  - intros Hn. destruct (Rge_dec r (c * c)) as [|Hlt]; [assumption|].
    exfalso. apply Hn. apply Rnot_ge_lt in Hlt.
    rewrite <- (sqrt_square c) by exact Hc. apply sqrt_lt_1_alt. lra.
Qed.

Lemma near_sum_filter (sty : Style) (x : list V3) (xi : V3) (term : Z -> R)
      (js : list Z) :
  0 <= cutoff sty ->
  near_sum NEIGHMASK sty x xi term js =
  accu (map term
          (List.filter (fun jz => Rltb (neighbour_distance NEIGHMASK x xi jz) (cutoff sty))
                       js)).
Proof.
  intros Hc. induction js as [|jz js IH]; simpl; [reflexivity|].
  unfold Rltb at 1, neighbour_distance at 1.
  pose proof (cutoff_test (cutoff sty) _ Hc
                (rsq_nonneg (V3_sub (x !!! mask NEIGHMASK jz) xi))) as Ht.
  destruct (Rge_dec _ _) as [Hfar|Hnear], (Rlt_dec _ _) as [Hlt|Hnlt]; simpl.
  - exfalso. now apply Ht in Hfar.
  - exact IH.
  - now rewrite IH.
  - exfalso. now apply Ht in Hnlt.
Qed.

(** C6 on the code.  Take a symmetry-function record with exactly three
    parameters [(eta, Rc, Rs)] and an anchor [i].  An anchor iteration
    that completes had a neighbour list that is not empty, and it has
    evaluated the network on the (shifted) descriptor.  When the list is
    not empty, the descriptor entry of the record is the sum, over the
    neighbours whose distance is strictly within the global cutoff, of
    [exp(-eta (Rij - Rs)^2) * Fc(Rij, Rc)]; it is 0 when no neighbour
    qualifies; and the iteration completes when the shapes of the network
    chain from [m_numberOfSymmFunc] inputs, every index is inside its
    array and every record has three or four numbers.  When the list is
    empty, the sum of the claim is the empty sum 0, but the iteration
    stops at [std::vector<arma::mat> Riks(jnum-1)], before the input
    vector is declared: no descriptor is produced. *)
Theorem radial_descriptor_sum (sty : Style) (atoms : Atoms) (sim : Sim) (i s : nat)
        (eta Rc Rs : R) :
  0 <= cutoff sty ->
  (s < m_numberOfSymmFunc sty)%nat ->
  m_parameters sty !!! s = [eta; Rc; Rs] ->
  let jlist := firstneigh atoms !!! i in
  let xi := atom_x atoms !!! i in
  let entry := nth s (descriptor m_pi pow NEIGHMASK sty atoms i) 0 in
  (forall sim',
     compute_anchor m_pi pow NEIGHMASK sty atoms sim i = Some sim' ->
     jlist <> [] /\
     eng_vdwl sim' =
     eng_vdwl sim
     + fst (network (net sim)
              (shift_inputs sty (descriptor m_pi pow NEIGHMASK sty atoms i)))) /\
  (jlist <> [] ->
   entry =
   radial_descriptor_spec m_pi NEIGHMASK (cutoff sty) (atom_x atoms) xi jlist eta Rc Rs /\
   (List.filter (fun jz => Rltb (neighbour_distance NEIGHMASK (atom_x atoms) xi jz)
                             (cutoff sty)) jlist = [] ->
    entry = 0)) /\
  (jlist <> [] ->
   forall dims,
     well_formed (net sim) dims -> dims 0%nat = m_numberOfSymmFunc sty ->
     length (atom_f sim) = length (atom_x atoms) ->
     (i < length (atom_x atoms))%nat ->
     Forall (fun jz => (mask NEIGHMASK jz < length (atom_x atoms))%nat) jlist ->
     (m_numberOfSymmFunc sty <= length (m_parameters sty))%nat ->
     (forall s', (s' < m_numberOfSymmFunc sty)%nat ->
        length (m_parameters sty !!! s') = 3%nat \/
        length (m_parameters sty !!! s') = 4%nat) ->
     (m_shift sty = true -> (m_numberOfSymmFunc sty <= length (m_allMeans sty))%nat) ->
     exists sim', compute_anchor m_pi pow NEIGHMASK sty atoms sim i = Some sim') /\
  (jlist = [] ->
   radial_descriptor_spec m_pi NEIGHMASK (cutoff sty) (atom_x atoms) xi jlist eta Rc Rs = 0 /\
   compute_anchor m_pi pow NEIGHMASK sty atoms sim i = None).
Proof.
  intros Hc Hs Hp jlist xi entry.
  assert (entry =
          radial_descriptor_spec m_pi NEIGHMASK (cutoff sty) (atom_x atoms) xi jlist eta Rc Rs) as Heq.
  { unfold entry, descriptor. fold jlist xi.
    destruct (collect_pairs_input m_pi pow NEIGHMASK sty (atom_x atoms) xi jlist
                (repeat 0 (m_numberOfSymmFunc sty))) as [_ ->].
    unfold entry_of_arity. rewrite repeat_length, Hp. simpl.
    replace (s <? m_numberOfSymmFunc sty)%nat with true
      by (symmetry; apply Nat.ltb_lt; exact Hs). simpl.
    rewrite nth_repeat, near_sum_filter by exact Hc.
    unfold radial_descriptor_spec. rewrite Rplus_0_l, Rplus_0_r.
    f_equal. apply map_ext. intros jz. unfold radial_part, G2_of, G2. simpl.
    f_equal. f_equal. ring. }
  split; [|split; [|split]].
  - intros sim'. unfold compute_anchor, descriptor. fold jlist.
    destruct jlist as [|jz js]; [discriminate|]. cbn [length Nat.eqb].
    destruct (collect_pairs _ _ _ _ _ _ _ _) as [nbs inp]. cbn [snd].
    destruct (network (net sim) (shift_inputs sty inp)) as [e nn]. cbn [fst].
    destruct (backPropagation nn) as [g nn'].
    intros Hrun.
    pose proof (f_equal (fun o => match o with Some r => eng_vdwl r | None => 0 end) Hrun)
      as Heng.
    cbn [eng_vdwl] in Heng. split; [discriminate|]. symmetry. exact Heng.
  - intros Hlist. split; [exact Heq|].
    intros Hnone. rewrite Heq. unfold radial_descriptor_spec. now rewrite Hnone.
  - intros Hlist dims _ _ _ _ _ _ _ _. unfold compute_anchor. fold jlist.
    destruct jlist as [|jz js]; [contradiction|]. cbn [length Nat.eqb].
    destruct (collect_pairs _ _ _ _ _ _ _ _) as [nbs inp].
    destruct (network (net sim) (shift_inputs sty inp)) as [e nn].
    destruct (backPropagation nn) as [g nn']. eexists. reflexivity.
  - intros Hlist. split.
    + rewrite Hlist. reflexivity.
    + unfold compute_anchor. fold jlist. rewrite Hlist. reflexivity.
Qed.

End Radial.

Lemma duo_net_well_formed : well_formed duo_net duo_dims.
Proof.
  unfold well_formed, caches_sized, duo_net; simpl.
  split; [repeat split|].
  split; [intros [|[|[|k]]] Hk; unfold duo_dims; simpl; lia|].
  split; [reflexivity|].
  split; [|split]; intros [|[|k]] Hk; try lia; try reflexivity;
    unfold shape, duo_dims; simpl; repeat constructor.
Qed.

(** The two cases at concrete anchors: the anchor of [three_atoms []] has
    no neighbour at all; the anchor of [lone_owner] has one neighbour
    inside the cutoff and one outside. *)
Lemma radial_descriptor_sum_witness :
  (radial_descriptor_spec PI 1073741823 2 (atom_x (three_atoms []))
     (atom_x (three_atoms []) !!! 0%nat) (firstneigh (three_atoms []) !!! 0%nat) 1 3 0 = 0 /\
   compute_anchor PI Rpower 1073741823 both_kinds (three_atoms []) duo_sim 0 = None) /\
  let jlist := firstneigh lone_owner !!! 0%nat in
  let xi := atom_x lone_owner !!! 0%nat in
  let entry := nth 0 (descriptor PI Rpower 1073741823 both_kinds lone_owner 0) 0 in
  (entry = radial_descriptor_spec PI 1073741823 2 (atom_x lone_owner) xi jlist 1 3 0 /\
   (List.filter (fun jz => Rltb (neighbour_distance 1073741823 (atom_x lone_owner) xi jz) 2)
                jlist = [] ->
    entry = 0)) /\
  exists sim', compute_anchor PI Rpower 1073741823 both_kinds lone_owner duo_sim 0 = Some sim'.
Proof.
  split; [|split].
  - apply (radial_descriptor_sum PI Rpower 1073741823 both_kinds (three_atoms []) duo_sim
             0 0 1 3 0).
    + simpl. lra.
    + simpl. lia.
    + reflexivity.
    + reflexivity.
  - apply (radial_descriptor_sum PI Rpower 1073741823 both_kinds lone_owner duo_sim
             0 0 1 3 0).
    + simpl. lra.
    + simpl. lia.
    + reflexivity.
    + discriminate.
  - apply (radial_descriptor_sum PI Rpower 1073741823 both_kinds lone_owner duo_sim
             0 0 1 3 0 ltac:(simpl; lra) ltac:(simpl; lia) eq_refl) with (dims := duo_dims).
    + discriminate.
    + exact duo_net_well_formed.
    + reflexivity.
    + reflexivity.
    + simpl. lia.
    + simpl. repeat constructor.
    + simpl. lia.
    + intros [|[|s']] Hs'; simpl in *; [left; reflexivity|right; reflexivity|lia].
    + discriminate.
Defined.

(** ** Permutations of the neighbour list *)

Section NeighbourOrder.

Variable m_pi : R.
Variable pow : R -> R -> R.
Variable NEIGHMASK : Z.

Lemma near_sum_perm (sty : Style) (x : list V3) (xi : V3) (term : Z -> R)
      (js js' : list Z) :
  Permutation js js' ->
  near_sum NEIGHMASK sty x xi term js = near_sum NEIGHMASK sty x xi term js'.
Proof.
  induction 1 as [|a l l' _ IH|a b l|l l' l'' _ IH1 _ IH2]; simpl.
  - reflexivity.
  - destruct (Rge_dec _ _); now rewrite IH.
  - do 2 destruct (Rge_dec _ _); lra.
  - congruence.
Qed.

Lemma near_pair_sum_perm (sty : Style) (x : list V3) (xi : V3)
      (term : Z -> Z -> R) (js js' : list Z) :
  (forall a b, term a b = term b a) ->
  Permutation js js' ->
  near_pair_sum NEIGHMASK sty x xi term js = near_pair_sum NEIGHMASK sty x xi term js'.
Proof.
  intros Hsym.
  induction 1 as [|a l l' Hl IH|a b l|l l' l'' _ IH1 _ IH2]; simpl.
  - reflexivity.
  - destruct (Rge_dec _ _); [exact IH|].
    now rewrite IH, (near_sum_perm sty x xi (term a) l l' Hl).
  - do 2 destruct (Rge_dec _ _); try lra. rewrite (Hsym a b). lra.
  - congruence.
Qed.

Lemma G5_symmetric (rij rik c eta Rc zeta lambda : R) :
  G5 m_pi pow rij rik c eta Rc zeta lambda = G5 m_pi pow rik rij c eta Rc zeta lambda.
Proof.
  unfold G5. replace (rik * rik + rij * rij) with (rij * rij + rik * rik) by ring.
  ring.
Qed.

Lemma angular_part_symmetric (x : list V3) (xi : V3) (p : list R) (jz kz : Z) :
  angular_part m_pi pow NEIGHMASK x xi p jz kz =
  angular_part m_pi pow NEIGHMASK x xi p kz jz.
Proof.
  unfold angular_part, G5_of.
  replace (neighbour_cos NEIGHMASK x xi kz jz) with (neighbour_cos NEIGHMASK x xi jz kz).
  - apply G5_symmetric.
  - unfold neighbour_cos.
    rewrite (Rmult_comm (neighbour_distance NEIGHMASK x xi kz)).
    unfold Rdiv. f_equal. unfold dot. ring.
Qed.

Lemma collect_pairs_perm (sty : Style) (x : list V3) (xi : V3) (js js' : list Z)
      (input : row) :
  Permutation js js' ->
  snd (collect_pairs m_pi pow NEIGHMASK sty x xi js input) =
  snd (collect_pairs m_pi pow NEIGHMASK sty x xi js' input).
Proof.
  intros Hperm.
  destruct (collect_pairs_input m_pi pow NEIGHMASK sty x xi js input) as [Hlen Hnth].
  destruct (collect_pairs_input m_pi pow NEIGHMASK sty x xi js' input) as [Hlen' Hnth'].
  apply nth_ext with (d := 0) (d' := 0); [congruence|].
  intros s _. rewrite Hnth, Hnth'.
  rewrite (near_sum_perm sty x xi _ js js' Hperm).
  rewrite (near_pair_sum_perm sty x xi _ js js'
             (angular_part_symmetric x xi _) Hperm).
  reflexivity.
Qed.

(** One anchor, with the loops folded into their results. *)
Lemma compute_anchor_unfold (sty : Style) (atoms : Atoms) (sim : Sim) (i : nat) :
  compute_anchor m_pi pow NEIGHMASK sty atoms sim i =
  if Nat.eqb (length (firstneigh atoms !!! i)) 0 then None
  else
    let nbs := fst (collect_pairs m_pi pow NEIGHMASK sty (atom_x atoms)
                      (atom_x atoms !!! i) (firstneigh atoms !!! i)
                      (repeat 0 (m_numberOfSymmFunc sty))) in
    let inputVector := shift_inputs sty (descriptor m_pi pow NEIGHMASK sty atoms i) in
    let nn := snd (network (net sim) inputVector) in
    let acc := symmetry_forces m_pi pow sty (fst (backPropagation nn)) nbs
                 (mkForces V3_zero V3_zero V3_zero (atom_f sim)) in
    Some (mkSim (add_force (add_force (forces acc) i (V3_add (f3j acc) (f3k acc)))
                           i (f2 acc))
                (eng_vdwl sim + fst (network (net sim) inputVector))
                (snd (backPropagation nn)) (myStep sim)).
Proof.
  unfold compute_anchor, descriptor.
  destruct (Nat.eqb _ 0); [reflexivity|].
  destruct (collect_pairs _ _ _ _ _ _ _ _) as [nbs inp]. simpl.
  destruct (network (net sim) (shift_inputs sty inp)) as [e nn]. simpl.
  destruct (backPropagation nn) as [g nn']. reflexivity.
Qed.

(** C9. Exchanging neighbours in the neighbour list of an anchor (any
    permutation of the list, in particular the exchange of two entries [j]
    and [k]) leaves the descriptor vector of the anchor unchanged, and with
    it the energy that the anchor adds; and each angular term [G5] is
    symmetric under exchange of its two distances [Rij] and [Rik]. *)
Theorem neighbour_exchange_invariance (sty : Style) (atoms atoms' : Atoms)
        (sim : Sim) (i : nat) :
  atom_x atoms' = atom_x atoms ->
  Permutation (firstneigh atoms !!! i) (firstneigh atoms' !!! i) ->
  descriptor m_pi pow NEIGHMASK sty atoms' i = descriptor m_pi pow NEIGHMASK sty atoms i /\
  option_map eng_vdwl (compute_anchor m_pi pow NEIGHMASK sty atoms' sim i) =
  option_map eng_vdwl (compute_anchor m_pi pow NEIGHMASK sty atoms sim i) /\
  (forall rij rik c eta Rc zeta lambda,
     G5 m_pi pow rij rik c eta Rc zeta lambda =
     G5 m_pi pow rik rij c eta Rc zeta lambda).
Proof.
  intros Hx Hperm.
  assert (descriptor m_pi pow NEIGHMASK sty atoms' i =
          descriptor m_pi pow NEIGHMASK sty atoms i) as Hd.
  { unfold descriptor. rewrite Hx. symmetry. now apply collect_pairs_perm. }
  split; [exact Hd|]. split; [|apply G5_symmetric].
  rewrite !compute_anchor_unfold, Hd.
  rewrite <- (Permutation_length Hperm).
  destruct (Nat.eqb _ 0); reflexivity.
Qed.

End NeighbourOrder.

Lemma neighbour_exchange_invariance_witness :
  descriptor PI Rpower 1073741823 (one_radial 2) (three_atoms [2%Z; 1%Z]) 0 =
  descriptor PI Rpower 1073741823 (one_radial 2) (three_atoms [1%Z; 2%Z]) 0 /\
  option_map eng_vdwl
    (compute_anchor PI Rpower 1073741823 (one_radial 2) (three_atoms [2%Z; 1%Z]) idle_sim 0) =
  option_map eng_vdwl
    (compute_anchor PI Rpower 1073741823 (one_radial 2) (three_atoms [1%Z; 2%Z]) idle_sim 0) /\
  (forall rij rik c eta Rc zeta lambda,
     G5 PI Rpower rij rik c eta Rc zeta lambda =
     G5 PI Rpower rik rij c eta Rc zeta lambda).
Proof.
  apply (neighbour_exchange_invariance PI Rpower 1073741823 (one_radial 2)
           (three_atoms [1%Z; 2%Z]) (three_atoms [2%Z; 1%Z]) idle_sim 0).
  - reflexivity.
  - simpl. apply perm_swap.
Defined.

(** ** The force assembler *)

Section Forces.

Variable m_pi : R.
Variable pow : R -> R -> R.
Variable NEIGHMASK : Z.

Lemma V3_eq (a b : V3) : c0 a = c0 b -> c1 a = c1 b -> c2 a = c2 b -> a = b.
Proof. destruct a, b; simpl; intros; subst; reflexivity. Qed.

Ltac v3 := apply V3_eq; simpl; try ring.

Lemma length_add_force (f : list V3) (p : nat) (v : V3) :
  length (add_force f p v) = length f.
Proof. unfold add_force. apply length_insert. Qed.

Lemma lookup_add_force_eq (f : list V3) (p : nat) (v : V3) :
  (p < length f)%nat -> add_force f p v !!! p = V3_add (f !!! p) v.
Proof. intros Hp. unfold add_force. now rewrite list_lookup_total_insert_eq. Qed.

Lemma lookup_add_force_ne (f : list V3) (p q : nat) (v : V3) :
  p <> q -> add_force f p v !!! q = f !!! q.
Proof. intros Hp. unfold add_force. now rewrite list_lookup_total_insert_ne. Qed.

Lemma total_add_force (f : list V3) (p : nat) (v : V3) :
  (p < length f)%nat -> total (add_force f p v) = V3_add (total f) v.
Proof.
  unfold add_force. revert p. induction f as [|a f IH]; intros p Hp; simpl in Hp; [lia|].
  destruct p as [|p]; simpl.
  - v3.
  - change (<[p:=V3_add ((a :: f) !!! S p) v]> f) with (<[p:=V3_add (f !!! p) v]> f).
    rewrite IH by lia. v3.
Qed.

Lemma add_force_zero (f : list V3) (p : nat) : add_force f p V3_zero = f.
Proof.
  unfold add_force. revert p. induction f as [|a f IH]; intros [|p]; simpl;
    try reflexivity.
  - f_equal. v3.
  - f_equal. apply IH.
Qed.

Lemma radial_term_balance (acc : Forces) (nb : Neighbour) (fpair : R) :
  (tagj nb < length (forces acc))%nat ->
  balance (radial_term acc nb fpair) = balance acc /\
  length (forces (radial_term acc nb fpair)) = length (forces acc).
Proof.
  intros Hj. unfold balance, radial_term. simpl.
  rewrite total_add_force, length_add_force by exact Hj. split; [v3|reflexivity].
Qed.

Lemma angular_term_balance (dEdG_s : R) (p : list R) (nb : Neighbour)
      (acc : Forces) (t : Triplet) :
  (tagj nb < length (forces acc))%nat -> (tagk t < length (forces acc))%nat ->
  balance (angular_term m_pi pow dEdG_s p nb acc t) = balance acc /\
  length (forces (angular_term m_pi pow dEdG_s p nb acc t)) = length (forces acc).
Proof.
  intros Hj Hk. unfold balance, angular_term.
  destruct (dG5dR _ _ _ _ _ _ _ _ _ _ _ _ _ _ _) as [dGj dGk]. simpl.
  rewrite !total_add_force, !length_add_force
    by (rewrite ?length_add_force; assumption).
  split; [v3|reflexivity].
Qed.

(** A loop whose every round keeps the balance and the size of the array. *)
Lemma fold_left_balance {A : Type} (step : Forces -> A -> Forces) (P : A -> Prop)
      (len : nat) (l : list A) :
  (forall acc a, P a -> length (forces acc) = len ->
     balance (step acc a) = balance acc /\ length (forces (step acc a)) = len) ->
  Forall P l ->
  forall acc, length (forces acc) = len ->
    balance (fold_left step l acc) = balance acc /\
    length (forces (fold_left step l acc)) = len.
Proof.
  intros Hstep HP. induction HP as [|a l Ha _ IH]; intros acc Hlen; simpl.
  - split; [reflexivity|exact Hlen].
  - destruct (Hstep acc a Ha Hlen) as [Hb Hl].
    destruct (IH _ Hl) as [Hb' Hl']. split; [congruence|exact Hl'].
Qed.

Lemma radial_forces_balance (dEdG_s : R) (p : list R) (nbs : list Neighbour)
      (len : nat) (acc : Forces) :
  tags_in_range len nbs -> length (forces acc) = len ->
  balance (radial_forces m_pi dEdG_s p nbs acc) = balance acc /\
  length (forces (radial_forces m_pi dEdG_s p nbs acc)) = len.
Proof.
  intros Hr Hlen. unfold radial_forces. cbv zeta.
  apply (fold_left_balance _ (fun q : Neighbour * R => (tagj (fst q) < len)%nat) len);
    [| |exact Hlen].
  - intros acc' [nb fpair] Hq Hl. simpl in Hq. rewrite <- Hl in Hq.
    destruct (radial_term_balance acc' nb fpair Hq) as [Hb Hl']. split; congruence.
  - apply Forall_forall. intros [nb fpair] Hin. simpl.
    apply elem_of_zip_l in Hin.
    unfold tags_in_range in Hr. rewrite Forall_forall in Hr.
    now apply Hr in Hin.
Qed.

Lemma angular_forces_balance (dEdG_s : R) (p : list R) (nbs : list Neighbour)
      (len : nat) (acc : Forces) :
  tags_in_range len nbs -> length (forces acc) = len ->
  balance (angular_forces m_pi pow dEdG_s p nbs acc) = balance acc /\
  length (forces (angular_forces m_pi pow dEdG_s p nbs acc)) = len.
Proof.
  intros Hr Hlen. unfold angular_forces.
  apply (fold_left_balance _
           (fun nb => (tagj nb < len)%nat /\
                      Forall (fun t => (tagk t < len)%nat) (triplets nb)) len);
    [| |exact Hlen].
  - intros acc' nb [Hj Hts] Hl.
    apply (fold_left_balance _ (fun t => (tagk t < len)%nat) len); [|exact Hts|exact Hl].
    intros acc'' t Ht Hl''. rewrite <- Hl'' in Hj, Ht.
    destruct (angular_term_balance dEdG_s p nb acc'' t Hj Ht) as [Hb Hl3].
    split; congruence.
  - now apply Forall_take.
Qed.

Lemma symmetry_forces_balance (sty : Style) (dEdG : row) (nbs : list Neighbour)
      (len : nat) (acc : Forces) :
  tags_in_range len nbs -> length (forces acc) = len ->
  balance (symmetry_forces m_pi pow sty dEdG nbs acc) = balance acc /\
  length (forces (symmetry_forces m_pi pow sty dEdG nbs acc)) = len.
Proof.
  intros Hr Hlen. unfold symmetry_forces.
  apply (fold_left_balance _ (fun _ : nat => True) len); [| |exact Hlen].
  - intros acc' s _ Hl. cbv zeta. destruct (Nat.eqb _ 3).
    + now apply radial_forces_balance.
    + now apply angular_forces_balance.
  - apply List.Forall_forall. intros; exact I.
Qed.

Lemma collect_triplets_tags (sty : Style) (x : list V3) (xi : V3) (j : nat)
      (delj : V3) (rij : R) (len : nat) (ks : list Z) (input : row) :
  Forall (fun kz => (mask NEIGHMASK kz < len)%nat) ks ->
  Forall (fun t => (tagk t < len)%nat)
         (fst (collect_triplets m_pi pow NEIGHMASK sty x xi j delj rij ks input)).
Proof.
  intros Hks. revert input. induction Hks as [|kz ks Hk _ IH]; intros input; simpl.
  - constructor.
  - destruct (Rge_dec _ _); [apply IH|].
    match goal with
    | |- context [collect_triplets _ _ _ _ _ _ _ _ _ ks ?inp] =>
        specialize (IH inp);
        destruct (collect_triplets m_pi pow NEIGHMASK sty x xi j delj rij ks inp)
          as [ts out]
    end.
    simpl in *. constructor; [exact Hk|exact IH].
Qed.

Lemma collect_pairs_tags (sty : Style) (x : list V3) (xi : V3) (len : nat)
      (js : list Z) (input : row) :
  Forall (fun jz => (mask NEIGHMASK jz < len)%nat) js ->
  tags_in_range len (fst (collect_pairs m_pi pow NEIGHMASK sty x xi js input)).
Proof.
  intros Hjs. revert input. induction Hjs as [|jz js Hj Hrest IH]; intros input; simpl.
  - constructor.
  - destruct (Rge_dec _ _); [apply IH|].
    match goal with
    | |- context [collect_triplets _ _ _ _ _ _ ?j ?d ?r js ?inp] =>
        pose proof (collect_triplets_tags sty x xi j d r len js inp Hrest) as Hts;
        destruct (collect_triplets m_pi pow NEIGHMASK sty x xi j d r js inp)
          as [ts out1]
    end.
    specialize (IH out1).
    destruct (collect_pairs m_pi pow NEIGHMASK sty x xi js out1) as [ps out2].
    simpl in *. constructor; [split; [exact Hj|exact Hts]|exact IH].
Qed.

(** One anchor leaves the sum of all forces as it found it. *)
Lemma compute_anchor_total (sty : Style) (atoms : Atoms) (sim : Sim) (i : nat) :
  (i < length (atom_f sim))%nat ->
  Forall (fun jz => (mask NEIGHMASK jz < length (atom_f sim))%nat)
         (firstneigh atoms !!! i) ->
  match compute_anchor m_pi pow NEIGHMASK sty atoms sim i with
  | Some sim' =>
      total (atom_f sim') = total (atom_f sim) /\
      length (atom_f sim') = length (atom_f sim)
  | None => length (firstneigh atoms !!! i) = 0%nat
  end.
Proof.
  intros Hi Hjs. rewrite compute_anchor_unfold.
  destruct (Nat.eqb_spec (length (firstneigh atoms !!! i)) 0) as [H0|_]; [exact H0|].
  cbv zeta.
  set (nbs := fst (collect_pairs _ _ _ _ _ _ _ _)).
  set (dEdG := fst (backPropagation _)).
  pose proof (collect_pairs_tags sty (atom_x atoms) (atom_x atoms !!! i)
                (length (atom_f sim)) (firstneigh atoms !!! i)
                (repeat 0 (m_numberOfSymmFunc sty)) Hjs) as Hr.
  fold nbs in Hr.
  destruct (symmetry_forces_balance sty dEdG nbs (length (atom_f sim))
              (mkForces V3_zero V3_zero V3_zero (atom_f sim)) Hr eq_refl)
    as [Hb Hl].
  set (acc := symmetry_forces _ _ _ _ _ _) in *. simpl.
  rewrite !total_add_force, !length_add_force
    by (rewrite ?length_add_force; lia).
  split; [|exact Hl].
  unfold balance in Hb. simpl in Hb.
  transitivity (V3_add (total (forces acc))
                       (V3_add (f2 acc) (V3_add (f3j acc) (f3k acc)))); [v3|].
  rewrite Hb. v3.
Qed.

(** C2. Every force contribution of the assembler cancels over the
    particles it touches.  For a radial term of anchor [i] and neighbour
    [j], the increment of [f[j]] is the negation of the increment that the
    running sum [fx2, fy2, fz2] of the anchor receives, and no other entry
    moves.  For an angular term of a triplet [(i,j,k)], the increments of
    [f[j]] and [f[k]] and of the running sums of the anchor add up to zero.
    The running sums are added to [f[i]] at the end, so that one anchor
    leaves the sum of all forces unchanged. *)
Theorem force_contributions_cancel (sty : Style) (atoms : Atoms) (sim : Sim)
        (i : nat) (dEdG_s : R) (p : list R) (acc : Forces) (nb : Neighbour)
        (t : Triplet) (fpair : R) :
  (tagj nb < length (forces acc))%nat ->
  (tagk t < length (forces acc))%nat ->
  (i < length (atom_f sim))%nat ->
  Forall (fun jz => (mask NEIGHMASK jz < length (atom_f sim))%nat)
         (firstneigh atoms !!! i) ->
  let rad := radial_term acc nb fpair in
  let ang := angular_term m_pi pow dEdG_s p nb acc t in
  let to_i (a : Forces) :=
    V3_add (V3_sub (f2 a) (f2 acc))
           (V3_add (V3_sub (f3j a) (f3j acc)) (V3_sub (f3k a) (f3k acc))) in
  let to_particle (a : Forces) (q : nat) :=
    V3_sub (forces a !!! q) (forces acc !!! q) in
  to_particle rad (tagj nb) = V3_opp (to_i rad) /\
  (forall q, q <> tagj nb -> forces rad !!! q = forces acc !!! q) /\
  V3_add (V3_sub (total (forces ang)) (total (forces acc))) (to_i ang) = V3_zero /\
  (tagj nb <> tagk t ->
   V3_add (V3_add (to_particle ang (tagj nb)) (to_particle ang (tagk t))) (to_i ang)
   = V3_zero) /\
  (forall q, q <> tagj nb -> q <> tagk t -> forces ang !!! q = forces acc !!! q) /\
  match compute_anchor m_pi pow NEIGHMASK sty atoms sim i with
  | Some sim' => total (atom_f sim') = total (atom_f sim)
  | None => length (firstneigh atoms !!! i) = 0%nat
  end.
Proof.
  intros Hj Hk Hi Hjs rad ang to_i to_particle.
  split; [|split; [|split; [|split; [|split]]]].
  - unfold to_particle, to_i, rad, radial_term. simpl.
    rewrite lookup_add_force_eq by exact Hj. v3.
  - intros q Hq. unfold rad, radial_term. simpl.
    now rewrite lookup_add_force_ne by congruence.
  - unfold to_i, ang, angular_term.
    destruct (dG5dR _ _ _ _ _ _ _ _ _ _ _ _ _ _ _) as [dGj dGk]. simpl.
    rewrite !total_add_force by (rewrite ?length_add_force; assumption). v3.
  - intros Hne. unfold to_particle, to_i, ang, angular_term.
    destruct (dG5dR _ _ _ _ _ _ _ _ _ _ _ _ _ _ _) as [dGj dGk]. simpl.
    rewrite (lookup_add_force_ne _ (tagk t) (tagj nb)) by congruence.
    rewrite !lookup_add_force_eq by (rewrite ?length_add_force; assumption).
    rewrite lookup_add_force_ne by exact Hne. v3.
  - intros q Hq1 Hq2. unfold ang, angular_term.
    destruct (dG5dR _ _ _ _ _ _ _ _ _ _ _ _ _ _ _) as [dGj dGk]. simpl.
    now rewrite !lookup_add_force_ne by congruence.
  - pose proof (compute_anchor_total sty atoms sim i Hi Hjs) as H.
    destruct (compute_anchor _ _ _ _ _ _ _); [apply H|exact H].
Qed.

(** *** An anchor without neighbours inside the cutoff *)

Lemma collect_pairs_far (sty : Style) (x : list V3) (xi : V3) (js : list Z)
      (input : row) :
  Forall (beyond_cutoff NEIGHMASK sty x xi) js ->
  collect_pairs m_pi pow NEIGHMASK sty x xi js input = ([], input).
Proof.
  induction 1 as [|jz js Hfar _ IH]; simpl; [reflexivity|].
  unfold beyond_cutoff in Hfar. destruct (Rge_dec _ _); [exact IH|contradiction].
Qed.

Lemma symmetry_forces_nil (sty : Style) (dEdG : row) (acc : Forces) :
  symmetry_forces m_pi pow sty dEdG [] acc = acc.
Proof.
  unfold symmetry_forces. induction (seq 0 (m_numberOfSymmFunc sty)) as [|s l IH];
    simpl; [reflexivity|].
  destruct (Nat.eqb _ 3); exact IH.
Qed.

(** A network without hidden layer returns its bias on the zero input. *)
Lemma network_zero_input (st : Net) (D : nat) :
  m_nLayers st = 0%nat -> caches_sized st ->
  (1 <= n_cols (m_weights st !!! 0%nat))%nat ->
  (1 <= length (m_biases st !!! 0%nat))%nat ->
  fst (network st (repeat 0 D)) = nth 0 (m_biases st !!! 0%nat) 0.
Proof.
  intros Hn Hc HW Hb. destruct (network_state st (repeat 0 D) Hc) as [-> _].
  rewrite Hn. unfold network_spec, output_spec, row_add. simpl.
  rewrite nth_zip_with by (rewrite ?length_row_mul; lia).
  rewrite nth_row_mul by lia.
  rewrite (big_sum_ext _ _ (fun _ => 0)), big_sum_zero; [lra|].
  intros k _. rewrite nth_repeat. ring.
Qed.

Lemma isolated_anchor_result (sty : Style) (atoms : Atoms) (sim : Sim) (i : nat) :
  firstneigh atoms !!! i <> [] ->
  Forall (beyond_cutoff NEIGHMASK sty (atom_x atoms) (atom_x atoms !!! i))
         (firstneigh atoms !!! i) ->
  descriptor m_pi pow NEIGHMASK sty atoms i = repeat 0 (m_numberOfSymmFunc sty) /\
  exists sim',
    compute_anchor m_pi pow NEIGHMASK sty atoms sim i = Some sim' /\
    atom_f sim' = atom_f sim /\
    eng_vdwl sim' =
    eng_vdwl sim +
    fst (network (net sim) (shift_inputs sty (repeat 0 (m_numberOfSymmFunc sty)))).
Proof.
  intros Hne Hfar.
  assert (descriptor m_pi pow NEIGHMASK sty atoms i = repeat 0 (m_numberOfSymmFunc sty))
    as Hd.
  { unfold descriptor. now rewrite collect_pairs_far. }
  split; [exact Hd|].
  rewrite compute_anchor_unfold, Hd, collect_pairs_far by exact Hfar.
  destruct (Nat.eqb_spec (length (firstneigh atoms !!! i)) 0) as [H0|_].
  { destruct (firstneigh atoms !!! i); [contradiction|discriminate]. }
  eexists. split; [reflexivity|]. simpl. rewrite symmetry_forces_nil. simpl.
  split; [|reflexivity].
  replace (V3_add V3_zero V3_zero) with V3_zero by v3.
  now rewrite !add_force_zero.
Qed.

(** C3, as the code has it.  For an anchor whose neighbour list is not
    empty and holds no particle strictly within the (non-negative) cutoff,
    one evaluation produces a descriptor vector of zeros, adds to the
    energy the value of the network on that vector after the optional
    shift, and leaves every force as it was; the value of the network is
    the bias of the output layer when there is no hidden layer and no
    shift. *)
Theorem isolated_anchor (sty : Style) (atoms : Atoms) (sim : Sim) (i : nat) :
  0 <= cutoff sty ->
  firstneigh atoms !!! i <> [] ->
  Forall (fun jz => ~ neighbour_distance NEIGHMASK (atom_x atoms) (atom_x atoms !!! i) jz
                      < cutoff sty)
         (firstneigh atoms !!! i) ->
  descriptor m_pi pow NEIGHMASK sty atoms i = repeat 0 (m_numberOfSymmFunc sty) /\
  exists sim',
    compute_anchor m_pi pow NEIGHMASK sty atoms sim i = Some sim' /\
    atom_f sim' = atom_f sim /\
    eng_vdwl sim' =
    eng_vdwl sim +
    fst (network (net sim) (shift_inputs sty (repeat 0 (m_numberOfSymmFunc sty)))) /\
    (m_shift sty = false -> m_nLayers (net sim) = 0%nat -> caches_sized (net sim) ->
     (1 <= n_cols (m_weights (net sim) !!! 0%nat))%nat ->
     (1 <= length (m_biases (net sim) !!! 0%nat))%nat ->
     eng_vdwl sim' = eng_vdwl sim + nth 0 (m_biases (net sim) !!! 0%nat) 0).
Proof.
  intros Hc Hne Hfar.
  assert (Forall (beyond_cutoff NEIGHMASK sty (atom_x atoms) (atom_x atoms !!! i))
                 (firstneigh atoms !!! i)) as Hfar'.
  { eapply Forall_impl; [exact Hfar|]. intros jz Hjz. unfold beyond_cutoff.
    apply (cutoff_test (cutoff sty) _ Hc (rsq_nonneg _)). exact Hjz. }
  destruct (isolated_anchor_result sty atoms sim i Hne Hfar')
    as [Hd (sim' & Hrun & Hf & He)].
  split; [exact Hd|]. exists sim'. repeat split; try assumption.
  intros Hshift Hn Hcs HW Hb. rewrite He. f_equal.
  unfold shift_inputs. rewrite Hshift. now apply network_zero_input.
Qed.

(** *** Forces are only added to *)

Lemma add_force_offset (base f g : list V3) (p : nat) (v : V3) :
  offset base f g -> offset base (add_force f p v) (add_force g p v).
Proof.
  intros (Hlen & Hlen0 & Hoff).
  split; [now rewrite length_add_force|]. split; [now rewrite length_add_force|].
  intros q. destruct (Nat.eq_dec p q) as [<-|Hne].
  - destruct (Nat.lt_ge_cases p (length f)) as [Hp|Hp].
    + rewrite !lookup_add_force_eq by lia. rewrite Hoff. v3.
    + unfold add_force. rewrite !list_insert_ge by lia. apply Hoff.
  - rewrite !lookup_add_force_ne by exact Hne. apply Hoff.
Qed.

Lemma fold_left_offset {A : Type} (step : Forces -> A -> Forces) (base : list V3)
      (l : list A) :
  (forall acc acc0 a, offset_acc base acc acc0 ->
     offset_acc base (step acc a) (step acc0 a)) ->
  forall acc acc0, offset_acc base acc acc0 ->
    offset_acc base (fold_left step l acc) (fold_left step l acc0).
Proof.
  intros Hstep. induction l as [|a l IH]; intros acc acc0 H; simpl; [exact H|].
  apply IH, Hstep, H.
Qed.

Lemma radial_term_offset (base : list V3) (acc acc0 : Forces) (nb : Neighbour)
      (fpair : R) :
  offset_acc base acc acc0 ->
  offset_acc base (radial_term acc nb fpair) (radial_term acc0 nb fpair).
Proof.
  intros (H2 & H3j & H3k & Hf). unfold offset_acc, radial_term. simpl.
  rewrite H2. split; [reflexivity|]. split; [assumption|]. split; [assumption|].
  now apply add_force_offset.
Qed.

Lemma angular_term_offset (base : list V3) (dEdG_s : R) (p : list R)
      (nb : Neighbour) (acc acc0 : Forces) (t : Triplet) :
  offset_acc base acc acc0 ->
  offset_acc base (angular_term m_pi pow dEdG_s p nb acc t)
             (angular_term m_pi pow dEdG_s p nb acc0 t).
Proof.
  intros (H2 & H3j & H3k & Hf). unfold offset_acc, angular_term.
  destruct (dG5dR _ _ _ _ _ _ _ _ _ _ _ _ _ _ _) as [dGj dGk]. simpl.
  rewrite H3j, H3k. split; [assumption|]. split; [reflexivity|]. split; [reflexivity|].
  apply add_force_offset, add_force_offset, Hf.
Qed.

Lemma symmetry_forces_offset (base : list V3) (sty : Style) (dEdG : row)
      (nbs : list Neighbour) (acc acc0 : Forces) :
  offset_acc base acc acc0 ->
  offset_acc base (symmetry_forces m_pi pow sty dEdG nbs acc)
             (symmetry_forces m_pi pow sty dEdG nbs acc0).
Proof.
  unfold symmetry_forces. apply fold_left_offset. intros a a0 s H. cbv zeta.
  destruct (Nat.eqb _ 3).
  - unfold radial_forces. cbv zeta. apply fold_left_offset; [|exact H].
    intros b b0 [nb fpair] Hb. now apply radial_term_offset.
  - unfold angular_forces. apply fold_left_offset; [|exact H].
    intros b b0 nb Hb. apply fold_left_offset; [|exact Hb].
    intros c c0 t Hc. now apply angular_term_offset.
Qed.

Lemma compute_anchor_offset (base : list V3) (sty : Style) (atoms : Atoms)
      (sim sim0 : Sim) (i : nat) :
  offset_sim base sim sim0 ->
  in_step base (compute_anchor m_pi pow NEIGHMASK sty atoms sim i)
          (compute_anchor m_pi pow NEIGHMASK sty atoms sim0 i).
Proof.
  intros (Hnet & Heng & Hstep & Hf). rewrite !compute_anchor_unfold.
  destruct (Nat.eqb _ 0); [exact I|]. cbv zeta. rewrite <- Hnet, <- Heng, <- Hstep.
  set (nbs := fst (collect_pairs _ _ _ _ _ _ _ _)).
  set (dEdG := fst (backPropagation _)).
  destruct (symmetry_forces_offset base sty dEdG nbs
              (mkForces V3_zero V3_zero V3_zero (atom_f sim))
              (mkForces V3_zero V3_zero V3_zero (atom_f sim0)))
    as (H2 & H3j & H3k & Hacc).
  { unfold offset_acc. simpl. auto. }
  simpl. unfold offset_sim. simpl. rewrite H2, H3j, H3k.
  split; [reflexivity|]. split; [reflexivity|]. split; [reflexivity|].
  apply add_force_offset, add_force_offset, Hacc.
Qed.

Lemma compute_loop_offset (base : list V3) (sty : Style) (atoms : Atoms)
      (anchors : list nat) :
  forall sim sim0, offset_sim base sim sim0 ->
    in_step base (compute_loop m_pi pow NEIGHMASK sty atoms anchors sim)
            (compute_loop m_pi pow NEIGHMASK sty atoms anchors sim0).
Proof.
  induction anchors as [|i anchors IH]; intros sim sim0 H; simpl; [exact H|].
  pose proof (compute_anchor_offset base sty atoms sim sim0 i H) as Ha.
  unfold in_step in Ha.
  destruct (compute_anchor _ _ _ _ _ sim i), (compute_anchor _ _ _ _ _ sim0 i);
    try contradiction; [now apply IH|exact I].
Qed.

Lemma lookup_blank (f : list V3) (q : nat) :
  map (fun _ => V3_zero) f !!! q = V3_zero.
Proof.
  revert q. induction f as [|a f IH]; intros [|q]; simpl; try reflexivity. apply IH.
Qed.

(** C8, as the code has it.  Over one call of [compute] every final force
    is the initial force plus an increment that does not depend on the
    forces stored before the call (the increment is what the same call
    leaves in an array of zeros), and the array keeps its size.  The energy
    accumulator is set to zero when the call starts: its final value is
    what the call produces from zero, whatever was stored before. *)
Theorem compute_adds_forces (sty : Style) (atoms : Atoms) (sim : Sim) :
  let blank := mkSim (map (fun _ => V3_zero) (atom_f sim)) 0 (net sim) (myStep sim) in
  match compute m_pi pow NEIGHMASK sty atoms sim,
        compute m_pi pow NEIGHMASK sty atoms blank with
  | Some sim', Some delta =>
      (forall q, atom_f sim' !!! q = V3_add (atom_f sim !!! q) (atom_f delta !!! q)) /\
      length (atom_f sim') = length (atom_f sim) /\
      eng_vdwl sim' = eng_vdwl delta
  | None, None => True
  | _, _ => False
  end.
Proof.
  intros blank. unfold compute, blank. simpl.
  assert (offset_sim (atom_f sim) (mkSim (atom_f sim) 0 (net sim) (myStep sim))
            (mkSim (map (fun _ => V3_zero) (atom_f sim)) 0 (net sim) (myStep sim)))
    as H0.
  { unfold offset_sim, offset. simpl. rewrite length_map.
    do 5 (split; [reflexivity|]).
    intros q. rewrite lookup_blank. apply V3_eq; simpl; ring. }
  pose proof (compute_loop_offset (atom_f sim) sty atoms (ilist atoms) _ _ H0) as H.
  unfold in_step in H.
  destruct (compute_loop _ _ _ _ _ _ (mkSim (atom_f sim) _ _ _)) as [s|],
           (compute_loop _ _ _ _ _ _ (mkSim (map _ _) _ _ _)) as [d|];
    try exact H.
  destruct H as (_ & He & _ & Hlen & _ & Hoff). simpl.
  split; [exact Hoff|]. split; [exact Hlen|exact He].
Qed.

End Forces.

Lemma sigmoid1_0 : sigmoid1 0 = 1 / 2.
Proof. unfold sigmoid1. rewrite Ropp_0, exp_0. lra. Qed.

Lemma tiny_net_at_zero : fst (network tiny_net [0]) = 1.
Proof.
  destruct (network_state tiny_net [0]) as [-> _].
  { unfold caches_sized. simpl. repeat split. }
  unfold network_spec, output_spec. simpl. unfold at2. simpl.
  replace (0 + 0 * 1 + 0) with 0 by ring. rewrite sigmoid1_0. lra.
Qed.

Lemma two_atoms_far :
  Forall (fun jz => ~ neighbour_distance 1073741823 (atom_x two_atoms)
                        (atom_x two_atoms !!! 0%nat) jz < cutoff (one_radial (1 / 2)))
         (firstneigh two_atoms !!! 0%nat).
Proof.
  simpl. constructor; [|constructor].
  unfold neighbour_distance, mask, rsq. simpl.
  replace ((1 - 0) * (1 - 0) + (0 - 0) * (0 - 0) + (0 - 0) * (0 - 0)) with 1 by ring.
  rewrite sqrt_1. lra.
Qed.

Lemma two_atoms_beyond :
  Forall (beyond_cutoff 1073741823 (one_radial (1 / 2)) (atom_x two_atoms)
            (atom_x two_atoms !!! 0%nat))
         (firstneigh two_atoms !!! 0%nat).
Proof.
  simpl. constructor; [|constructor].
  unfold beyond_cutoff, mask, rsq. simpl. lra.
Qed.

(** C3 as stated fails: with a hidden layer, the isolated anchor's
    network output is not the bias of the output layer.  Here the anchor
    has one neighbour, outside the cutoff; the network has one hidden
    layer of two nodes, weights 1 and biases 0; the anchor adds
    [sigmoid(0) + sigmoid(0) = 1] to the energy, and the bias of the output
    layer is [0]. *)
Lemma isolated_anchor_output_is_not_bias :
  Forall (fun jz => ~ neighbour_distance 1073741823 (atom_x two_atoms)
                        (atom_x two_atoms !!! 0%nat) jz < cutoff (one_radial (1 / 2)))
         (firstneigh two_atoms !!! 0%nat) /\
  exists sim',
    compute_anchor PI Rpower 1073741823 (one_radial (1 / 2)) two_atoms rest_sim 0
    = Some sim' /\
    eng_vdwl sim' - eng_vdwl rest_sim = 1 /\
    eng_vdwl sim' - eng_vdwl rest_sim <>
    nth 0 (m_biases (net rest_sim) !!! m_nLayers (net rest_sim)) 0.
Proof.
  split; [exact two_atoms_far|].
  destruct (isolated_anchor_result PI Rpower 1073741823 (one_radial (1 / 2))
              two_atoms rest_sim 0) as [_ (sim' & Hrun & _ & He)].
  { simpl. discriminate. }
  { exact two_atoms_beyond. }
  exists sim'. split; [exact Hrun|].
  assert (eng_vdwl sim' - eng_vdwl rest_sim = 1) as Hhalf.
  { rewrite He.
    change (shift_inputs (one_radial (1 / 2))
              (repeat 0 (m_numberOfSymmFunc (one_radial (1 / 2))))) with [0].
    change (net rest_sim) with tiny_net.
    rewrite tiny_net_at_zero. simpl. lra. }
  split; [exact Hhalf|]. rewrite Hhalf. simpl. lra.
Qed.

Lemma isolated_anchor_witness :
  descriptor PI Rpower 1073741823 (one_radial (1 / 2)) two_atoms 0 = repeat 0 1 /\
  exists sim',
    compute_anchor PI Rpower 1073741823 (one_radial (1 / 2)) two_atoms rest_sim 0
    = Some sim' /\
    atom_f sim' = atom_f rest_sim /\
    eng_vdwl sim' =
    eng_vdwl rest_sim + fst (network (net rest_sim) (shift_inputs (one_radial (1 / 2))
                                                       (repeat 0 1))) /\
    (m_shift (one_radial (1 / 2)) = false -> m_nLayers (net rest_sim) = 0%nat ->
     caches_sized (net rest_sim) ->
     (1 <= n_cols (m_weights (net rest_sim) !!! 0%nat))%nat ->
     (1 <= length (m_biases (net rest_sim) !!! 0%nat))%nat ->
     eng_vdwl sim' = eng_vdwl rest_sim + nth 0 (m_biases (net rest_sim) !!! 0%nat) 0).
Proof.
  apply (isolated_anchor PI Rpower 1073741823 (one_radial (1 / 2)) two_atoms rest_sim 0).
  - simpl. lra.
  - simpl. discriminate.
  - exact two_atoms_far.
Defined.

(** C8 as stated fails for the energy: [compute] starts with
    [eng_vdwl = 0.0].  With no owned atom the call adds nothing, yet an
    energy of 5 stored before the call is not kept: the final energy is 0,
    not 5 plus what the call produces. *)
Lemma compute_resets_energy :
  let atoms := mkAtoms [] [] [] in
  let before := mkSim [] 5 tiny_net 0 in
  let blank := mkSim [] 0 tiny_net 0 in
  exists after produced,
    compute PI Rpower 1073741823 (one_radial 2) atoms before = Some after /\
    compute PI Rpower 1073741823 (one_radial 2) atoms blank = Some produced /\
    eng_vdwl after = 0 /\
    eng_vdwl after <> eng_vdwl before + eng_vdwl produced.
Proof.
  exists (mkSim [] 0 tiny_net 1), (mkSim [] 0 tiny_net 1).
  repeat split; simpl; lra.
Qed.

Lemma force_contributions_cancel_witness :
  let acc := mkForces V3_zero V3_zero V3_zero [V3_zero; V3_zero; V3_zero] in
  let nb := mkNeighbour 1 (mkV3 1 0 0) 1 [] in
  let t := mkTriplet 2 (mkV3 0 1 0) 1 0 (sqrt 2) (mkV3 (-1) 1 0) in
  let rad := radial_term acc nb 1 in
  let ang := angular_term PI Rpower 1 [1; 2; 1; 1] nb acc t in
  let to_i (a : Forces) :=
    V3_add (V3_sub (f2 a) (f2 acc))
           (V3_add (V3_sub (f3j a) (f3j acc)) (V3_sub (f3k a) (f3k acc))) in
  let to_particle (a : Forces) (q : nat) :=
    V3_sub (forces a !!! q) (forces acc !!! q) in
  to_particle rad (tagj nb) = V3_opp (to_i rad) /\
  (forall q, q <> tagj nb -> forces rad !!! q = forces acc !!! q) /\
  V3_add (V3_sub (total (forces ang)) (total (forces acc))) (to_i ang) = V3_zero /\
  (tagj nb <> tagk t ->
   V3_add (V3_add (to_particle ang (tagj nb)) (to_particle ang (tagk t))) (to_i ang)
   = V3_zero) /\
  (forall q, q <> tagj nb -> q <> tagk t -> forces ang !!! q = forces acc !!! q) /\
  match compute_anchor PI Rpower 1073741823 (one_radial 2) (three_atoms [1%Z; 2%Z])
                       idle_sim 0 with
  | Some sim' => total (atom_f sim') = total (atom_f idle_sim)
  | None => length (firstneigh (three_atoms [1%Z; 2%Z]) !!! 0%nat) = 0%nat
  end.
Proof.
  apply (force_contributions_cancel PI Rpower 1073741823 (one_radial 2)
           (three_atoms [1%Z; 2%Z]) idle_sim 0 1 [1; 2; 1; 1]
           (mkForces V3_zero V3_zero V3_zero [V3_zero; V3_zero; V3_zero])
           (mkNeighbour 1 (mkV3 1 0 0) 1 [])
           (mkTriplet 2 (mkV3 0 1 0) 1 0 (sqrt 2) (mkV3 (-1) 1 0)) 1).
  - simpl. lia.
  - simpl. lia.
  - simpl. lia.
  - simpl. repeat constructor.
Defined.

(** ** The pair-only variant visits each pair once *)

Section PairOnce.

Variable NEIGHMASK : Z.
Variable cutoff : R.










End PairOnce.

(** ** The parameter loader *)

Section Loader.

Variable unset : R.

Lemma rows_from_empty (first count : nat) :
  (1 <= count)%nat -> PairNN.rows_from [] first count = None.
Proof.
  intros Hc. unfold PairNN.rows_from.
  destruct (Nat.leb_spec (first + count) (length (@nil row))) as [Hle|_];
    [simpl in Hle; lia|reflexivity].
Qed.

(** C7 on the code.  When the file cannot be opened, [read_file] prints
    its message and goes on: it prints the header fields it did not read,
    reads no row, and reaches [weightsTemp[currentRow]] on an empty vector.
    It does not stop at the failed [open]; the same happens for a file
    that opens and holds no weight row. *)
Theorem read_file_missing_file (ld : PairNN.Loader) :
  PairNN.read_file unset None ld =
  PairNN.Fault
    [PairNN.Text "File is not opened";
     PairNN.Field "Layers: " (m_nLayers (PairNN.nn ld));
     PairNN.Field "Nodes: " (PairNN.m_nNodes ld);
     PairNN.Name "Activation: " EmptyString;
     PairNN.Field "Neighbours: " (PairNN.m_numberOfInputs ld);
     PairNN.Field "Outputs: " (PairNN.m_numberOfOutputs ld)]
    "weightsTemp[currentRow]" /\
  forall g : PairNN.GraphFile,
    PairNN.weight_lines g = [] ->
    (exists log what, PairNN.read_file unset (Some g) ld = PairNN.Fault log what).
Proof.
  split.
  - unfold PairNN.read_file. simpl. rewrite rows_from_empty by lia. reflexivity.
  - intros g Hg. unfold PairNN.read_file. rewrite Hg. simpl.
    rewrite rows_from_empty by lia.
    destruct (PairNN.parse_rows unset (PairNN.h_nNodes g) (PairNN.bias_lines g));
      eexists; eexists; reflexivity.
Qed.

End Loader.

(** ** Further properties of [compute] *)

Section Further.

Variable m_pi : R.
Variable pow : R -> R -> R.
Variable NEIGHMASK : Z.

Lemma compute_anchor_none (sty : Style) (atoms : Atoms) (sim : Sim) (i : nat) :
  compute_anchor m_pi pow NEIGHMASK sty atoms sim i = None <->
  firstneigh atoms !!! i = [].
Proof.
  rewrite compute_anchor_unfold.
  destruct (firstneigh atoms !!! i) as [|jz js]; simpl; split;
    intros H; try reflexivity; discriminate.
Qed.

Lemma compute_loop_none (sty : Style) (atoms : Atoms) (anchors : list nat) :
  forall sim,
    compute_loop m_pi pow NEIGHMASK sty atoms anchors sim = None <->
    Exists (fun i => firstneigh atoms !!! i = []) anchors.
Proof.
  induction anchors as [|i anchors IH]; intros sim; simpl.
  - split; [discriminate|]. intros H. inversion H.
  - destruct (compute_anchor m_pi pow NEIGHMASK sty atoms sim i) as [sim'|] eqn:Hrun.
    + rewrite IH. split; [now right|]. intros H.
      inversion H as [? ? Hhd|? ? Htl]; subst; [|exact Htl].
      apply (compute_anchor_none sty atoms sim i) in Hhd. congruence.
    + split; [|reflexivity]. intros _. left.
      now apply (compute_anchor_none sty atoms sim i).
Qed.

(** X1. [compute] does not complete when an owned atom has an empty
    neighbour list: at that atom at the latest,
    [std::vector<arma::mat> Riks(jnum-1)] is asked for [-1] elements, and
    nothing in the function catches what the constructor throws. *)
Theorem compute_stops_on_empty_neighbour_list (sty : Style) (atoms : Atoms) (sim : Sim)
        (i : nat) :
  In i (ilist atoms) -> firstneigh atoms !!! i = [] ->
  compute m_pi pow NEIGHMASK sty atoms sim = None.
Proof.
  intros Hin Hempty. unfold compute.
  rewrite (proj2 (compute_loop_none sty atoms (ilist atoms)
                    (mkSim (atom_f sim) 0 (net sim) (myStep sim)))); [reflexivity|].
  apply List.Exists_exists. exists i. split; assumption.
Qed.

Lemma dG2dR_entry (Rij : row) (eta Rc Rs : R) (l : nat) :
  (l < length Rij)%nat ->
  nth l (dG2dR m_pi Rij eta Rc Rs) 0 =
  exp (- eta * (nth l Rij 0 - Rs) * (nth l Rij 0 - Rs)) *
  (2 * eta * (Rs - nth l Rij 0) * (0.5 * (cos (m_pi * nth l Rij 0 / Rc) + 1))
   + - (0.5 * m_pi * (1 / Rc)) * sin (m_pi * nth l Rij 0 * (1 / Rc))).
Proof.
  intros Hl. unfold dG2dR, schur, row_add, Fc_mat, dFcdR_mat.
  rewrite !nth_zip_with, !nth_map_in;
    rewrite ?length_zip_with, ?length_map; try lia.
  reflexivity.
Qed.

End Further.

Lemma compute_stops_on_empty_neighbour_list_witness :
  compute PI Rpower 1073741823 both_kinds (three_atoms []) duo_sim = None.
Proof.
  apply (compute_stops_on_empty_neighbour_list PI Rpower 1073741823 both_kinds
           (three_atoms []) duo_sim 0).
  - simpl. left. reflexivity.
  - reflexivity.
Defined.

(** With [m_pi = PI], [Rc = 2] and a neighbour at distance 3, the radial
    symmetry function is 0 and the derivative used for the force is
    [PI/4]. *)
Lemma dG2dR_beyond_Rc :
  G2 PI 3 0 2 0 = 0 /\ nth 0 (dG2dR PI [3] 0 2 0) 0 = PI / 4.
Proof.
  split.
  - unfold G2. rewrite Fc_beyond by lra. ring.
  - rewrite dG2dR_entry by (simpl; lia). simpl nth.
    replace (PI * 3 * (1 / 2)) with (3 * (PI / 2)) by field.
    rewrite sin_3PI2.
    replace (- 0 * (3 - 0) * (3 - 0)) with 0 by ring. rewrite exp_0. lra.
Qed.

(** * More of the network *)

Section NetworkMore.

Lemma sigmoid1_range (x : R) : 0 < sigmoid1 x < 1.
Proof.
  unfold sigmoid1. pose proof (exp_pos (- x)) as He.
  assert (0 < / (1 + exp (- x)) < 1) as [H0 H1].
  { split; [apply Rinv_0_lt_compat; lra|].
    rewrite <- Rinv_1 at 2. apply Rinv_lt_contravar; lra. }
  lra.
Qed.

(** X3. Every entry of [sigmoid(m)] lies between 0 and 1, and the
    matching entry of [sigmoidDerivative(m)] is the derivative of the
    sigmoid at the entry of [m]; it lies between 0 and 1/4.  The bounds
    are meant inclusive: in exact arithmetic they are never reached
    ([sigmoid1_range]), a saturated [double] reaches them. *)
Theorem sigmoid_entries (m : row) (j : nat) :
  (j < length m)%nat ->
  0 <= nth j (sigmoid m) 0 <= 1 /\
  derivable_pt_lim sigmoid1 (nth j m 0) (nth j (sigmoidDerivative m) 0) /\
  0 <= nth j (sigmoidDerivative m) 0 <= 1 / 4.
Proof.
  intros Hj. rewrite nth_sigmoidDerivative by exact Hj.
  unfold sigmoid. rewrite nth_map_in by exact Hj.
  pose proof (sigmoid1_range (nth j m 0)) as Hs.
  split; [lra|]. split; [apply derivable_pt_lim_sigmoid1|].
  set (s := sigmoid1 (nth j m 0)) in *.
  pose proof (Rle_0_sqr (s - 1 / 2)) as Hq. unfold Rsqr in Hq.
  split; [apply Rmult_le_pos; lra | lra].
Qed.

(** The parameters of a network: what [read_file] sets and no evaluation
    changes. *)
Lemma backPropagation_frame (st : Net) :
  let st' := snd (backPropagation st) in
  m_nLayers st' = m_nLayers st /\ m_weights st' = m_weights st /\
  m_weightsTransposed st' = m_weightsTransposed st /\
  m_biases st' = m_biases st /\
  m_preActivations st' = m_preActivations st /\
  m_activations st' = m_activations st /\
  length (m_derivatives st') = length (m_derivatives st).
Proof.
  unfold backPropagation. cbv zeta. simpl. rewrite length_insert.
  assert (forall l st0,
            let r := fold_left backPropagation_layer l st0 in
            m_nLayers r = m_nLayers st0 /\ m_weights r = m_weights st0 /\
            m_weightsTransposed r = m_weightsTransposed st0 /\
            m_biases r = m_biases st0 /\
            m_preActivations r = m_preActivations st0 /\
            m_activations r = m_activations st0 /\
            length (m_derivatives r) = length (m_derivatives st0)) as Hloop.
  { induction l as [|i l IH]; intros st0; simpl; [repeat split|].
    destruct (IH (backPropagation_layer st0 i)) as (H1 & H2 & H3 & H4 & H5 & H6 & H7).
    simpl in *. rewrite length_insert in H7. repeat split; assumption. }
  destruct (Hloop (rev (seq 1 (m_nLayers st)))
              (set_derivative st (m_nLayers st + 1) [1]))
    as (H1 & H2 & H3 & H4 & H5 & H6 & H7).
  simpl in *. rewrite length_insert in H7. repeat split; assumption.
Qed.



(** X4. An evaluation leaves the parameters alone and does not depend on
    what an earlier evaluation left in the caches: after [network] and
    [backPropagation] on any input [y], the layer count, weights,
    transposes and biases are unchanged and the caches keep their size,
    and [network] on [x] returns what it returns on a fresh class, with
    the same gradient row from [backPropagation]. *)
Theorem evaluation_keeps_parameters (st : Net) (x y : row) :
  caches_sized st ->
  let st' := snd (backPropagation (snd (network st y))) in
  m_nLayers st' = m_nLayers st /\ m_weights st' = m_weights st /\
  m_weightsTransposed st' = m_weightsTransposed st /\
  m_biases st' = m_biases st /\ caches_sized st' /\
  fst (network st' x) = fst (network st x) /\
  fst (backPropagation (snd (network st' x))) =
  fst (backPropagation (snd (network st x))).
Proof.
  intros Hc st'.
  destruct (network_state st y Hc) as (_ & Hn & Hw & Hwt & Hb & Hc1 & _).
  destruct (backPropagation_frame (snd (network st y)))
    as (Bn & Bw & Bwt & Bb & Bp & Ba & Bd).
  fold st' in Bn, Bw, Bwt, Bb, Bp, Ba, Bd.
  assert (caches_sized st') as Hc'.
  { destruct Hc1 as (C1 & C2 & C3). unfold caches_sized.
    rewrite Bn, Bp, Ba, Bd. repeat split; assumption. }
  assert (m_nLayers st' = m_nLayers st) as En by congruence.
  assert (m_weights st' = m_weights st) as Ew by congruence.
  assert (m_weightsTransposed st' = m_weightsTransposed st) as Ewt by congruence.
  assert (m_biases st' = m_biases st) as Eb by congruence.
  do 4 (split; [assumption|]). split; [exact Hc'|].
  destruct (network_state st' x Hc') as (Ho' & Hn' & _ & Hwt' & _ & Hc2' & Hcache' & _).
  destruct (network_state st x Hc) as (Ho & Hn0 & _ & Hwt0 & _ & Hc2 & Hcache & _).
  split; [rewrite Ho', Ho, En, Ew, Eb; reflexivity|].
  rewrite !backPropagation_state by assumption.
  rewrite Hwt', Hwt0, Hn', Hn0, Ewt, En.
  rewrite (error_row_activation (m_nLayers st) (m_weights st) (m_weightsTransposed st)
             (m_biases st) _ x (m_nLayers st)
             ltac:(intros l Hl; rewrite <- Ew, <- Eb; apply Hcache'; lia) 0%nat)
    by lia.
  rewrite (error_row_activation (m_nLayers st) (m_weights st) (m_weightsTransposed st)
             (m_biases st) _ x (m_nLayers st)
             ltac:(intros l Hl; apply Hcache; lia) 0%nat)
    by lia.
  reflexivity.
Qed.

End NetworkMore.

Lemma evaluation_keeps_parameters_witness :
  let st' := snd (backPropagation (snd (network tiny_net [5]))) in
  m_nLayers st' = m_nLayers tiny_net /\ m_weights st' = m_weights tiny_net /\
  m_weightsTransposed st' = m_weightsTransposed tiny_net /\
  m_biases st' = m_biases tiny_net /\ caches_sized st' /\
  fst (network st' [0]) = fst (network tiny_net [0]) /\
  fst (backPropagation (snd (network st' [0]))) =
  fst (backPropagation (snd (network tiny_net [0]))).
Proof.
  apply (evaluation_keeps_parameters tiny_net [0] [5]).
  unfold caches_sized. simpl. repeat split.
Defined.

Lemma sigmoid_entries_witness :
  0 <= nth 0 (sigmoid [0]) 0 <= 1 /\
  derivable_pt_lim sigmoid1 (nth 0 [0] 0) (nth 0 (sigmoidDerivative [0]) 0) /\
  0 <= nth 0 (sigmoidDerivative [0]) 0 <= 1 / 4.
Proof. apply (sigmoid_entries [0] 0). simpl. lia. Defined.

(** * More of the envelope and the symmetry functions *)

Section DerivativeRules.

Lemma dl_const (c x : R) : derivable_pt_lim (fun _ => c) x 0.
Proof. exact (derivable_pt_lim_const c x). Qed.

Lemma dl_id (x : R) : derivable_pt_lim (fun t => t) x 1.
Proof. exact (derivable_pt_lim_id x). Qed.

Lemma dl_plus (f g : R -> R) (x a b : R) :
  derivable_pt_lim f x a -> derivable_pt_lim g x b ->
  derivable_pt_lim (fun t => f t + g t) x (a + b).
Proof. exact (derivable_pt_lim_plus f g x a b). Qed.

Lemma dl_mult (f g : R -> R) (x a b : R) :
  derivable_pt_lim f x a -> derivable_pt_lim g x b ->
  derivable_pt_lim (fun t => f t * g t) x (a * g x + f x * b).
Proof. exact (derivable_pt_lim_mult f g x a b). Qed.

Lemma dl_comp (f g : R -> R) (x a b : R) :
  derivable_pt_lim f x a -> derivable_pt_lim g (f x) b ->
  derivable_pt_lim (fun t => g (f t)) x (b * a).
Proof. exact (derivable_pt_lim_comp f g x a b). Qed.

Lemma dl_div (f g : R -> R) (x a b : R) :
  derivable_pt_lim f x a -> derivable_pt_lim g x b -> g x <> 0 ->
  derivable_pt_lim (fun t => f t / g t) x ((a * g x - b * f x) / Rsqr (g x)).
Proof. exact (derivable_pt_lim_div f g x a b). Qed.

Lemma dl_eq (f : R -> R) (x l l' : R) :
  derivable_pt_lim f x l -> l = l' -> derivable_pt_lim f x l'.
Proof. intros H <-. exact H. Qed.

Lemma dl_affine (a b x : R) : derivable_pt_lim (fun t => a + t * b) x b.
Proof.
  apply (dl_eq _ _ (0 + (1 * b + x * 0))); [|ring].
  apply dl_plus; [apply dl_const|]. apply dl_mult; [apply dl_id|apply dl_const].
Qed.

End DerivativeRules.

Section EnvelopeCalculus.

Variable m_pi : R.

Lemma Fc_range (r Rc : R) : 0 <= Fc m_pi r Rc <= 1.
Proof.
  unfold Fc. destruct (Rlt_dec r Rc); [|lra].
  pose proof (COS_bound (m_pi * r / Rc)). lra.
Qed.

Lemma cosine_part_derivable (r Rc : R) :
  derivable_pt_lim (fun t => 0.5 * (cos (m_pi * t / Rc) + 1)) r
                   (- (0.5 * m_pi * (1 / Rc)) * sin (m_pi * r * (1 / Rc))).
Proof.
  eapply dl_eq.
  - apply dl_mult; [apply dl_const|].
    apply dl_plus; [|apply dl_const].
    apply (dl_comp (fun t => m_pi * t / Rc) cos).
    + unfold Rdiv. apply dl_mult; [|apply dl_const].
      apply dl_mult; [apply dl_const|apply dl_id].
    + apply derivable_pt_lim_cos.
  - simpl. replace (m_pi * r / Rc) with (m_pi * r * (1 / Rc)) by (unfold Rdiv; ring).
    unfold Rdiv. ring.
Qed.

Lemma Fc_derivable (r Rc : R) :
  r <> Rc -> derivable_pt_lim (fun t => Fc m_pi t Rc) r (dFcdR m_pi r Rc).
Proof.
  intros Hr. unfold dFcdR. destruct (Rlt_dec r Rc) as [Hlt|Hge].
  - apply (derivable_pt_lim_locally_ext
             (fun t => 0.5 * (cos (m_pi * t / Rc) + 1)) _ r (r - 1) Rc); [lra| |].
    + intros z Hz. unfold Fc. destruct (Rlt_dec z Rc); [reflexivity|lra].
    + cbv zeta. apply cosine_part_derivable.
  - apply (derivable_pt_lim_locally_ext (fun _ => 0) _ r Rc (r + 1)); [lra| |].
    + intros z Hz. unfold Fc. destruct (Rlt_dec z Rc); [lra|reflexivity].
    + apply dl_const.
Qed.

(** X5. The envelope takes its values in [[0, 1]], and away from the
    cutoff radius the scalar [dFcdR] is the derivative of the scalar [Fc]
    (both are the constant 0 beyond [Rc]). *)
Theorem dFcdR_is_derivative (r Rc : R) :
  0 < Rc -> r <> Rc ->
  0 <= Fc m_pi r Rc <= 1 /\
  derivable_pt_lim (fun t => Fc m_pi t Rc) r (dFcdR m_pi r Rc).
Proof. intros _ Hr. split; [apply Fc_range|now apply Fc_derivable]. Qed.

(** X6. The matrix overloads with [cut = true] agree with the scalar
    overloads at every entry other than [Rc]; at an entry equal to [Rc]
    the scalar [Fc] is 0 and the matrix one is [0.5 (cos(m_pi) + 1)]: the
    matrix tests [R > Rc], the scalar [R < Rc]. *)
Theorem overloads_agree (rs : row) (Rc : R) (j : nat) :
  (j < length rs)%nat ->
  (nth j rs 0 <> Rc ->
   nth j (Fc_mat m_pi rs Rc true) 0 = Fc m_pi (nth j rs 0) Rc /\
   nth j (dFcdR_mat m_pi rs Rc true) 0 = dFcdR m_pi (nth j rs 0) Rc) /\
  (nth j rs 0 = Rc -> Rc <> 0 ->
   Fc m_pi (nth j rs 0) Rc = 0 /\
   nth j (Fc_mat m_pi rs Rc true) 0 = 0.5 * (cos m_pi + 1)).
Proof.
  intros Hj. unfold Fc_mat, dFcdR_mat, Fc, dFcdR. cbv zeta.
  rewrite !nth_map_in by exact Hj. split.
  - intros Hne.
    destruct (Rgt_dec (nth j rs 0) Rc), (Rlt_dec (nth j rs 0) Rc);
      try lra; split; reflexivity.
  - intros -> H0.
    destruct (Rgt_dec Rc Rc), (Rlt_dec Rc Rc); try lra.
    split; [reflexivity|]. replace (m_pi * Rc / Rc) with m_pi by (field; exact H0).
    reflexivity.
Qed.

Lemma G2_inside_derivable (r eta Rc Rs d : R) :
  d = exp (- eta * (r - Rs) * (r - Rs)) *
      (2 * eta * (Rs - r) * (0.5 * (cos (m_pi * r / Rc) + 1))
       + - (0.5 * m_pi * (1 / Rc)) * sin (m_pi * r * (1 / Rc))) ->
  derivable_pt_lim
    (fun t => exp (- eta * (t - Rs) * (t - Rs)) * (0.5 * (cos (m_pi * t / Rc) + 1)))
    r d.
Proof.
  intros ->. eapply dl_eq.
  - apply dl_mult; [|apply cosine_part_derivable].
    apply (dl_comp (fun t => - eta * (t - Rs) * (t - Rs)) exp).
    + apply dl_mult.
      * apply dl_mult; [apply dl_const|].
        apply dl_plus; [apply dl_id|apply dl_const].
      * apply dl_plus; [apply dl_id|apply dl_const].
    + apply derivable_pt_lim_exp.
  - simpl. ring.
Qed.

(** X2. [dG2dR] differentiates the envelope without the clamp.  At every
    distance [r] its entry is the derivative of
    [exp(-eta (r - Rs)^2) * 0.5 (cos(m_pi r / Rc) + 1)]; this is the
    derivative of [G2] for [r < Rc], but beyond [Rc] the function [G2] is
    the constant 0 and its derivative is 0. *)
Theorem dG2dR_is_not_clamped (Rij : row) (eta Rc Rs : R) (l : nat) :
  (l < length Rij)%nat -> 0 < Rc ->
  let r := nth l Rij 0 in
  let d := nth l (dG2dR m_pi Rij eta Rc Rs) 0 in
  derivable_pt_lim
    (fun t => exp (- eta * (t - Rs) * (t - Rs)) * (0.5 * (cos (m_pi * t / Rc) + 1)))
    r d /\
  (r < Rc -> derivable_pt_lim (fun t => G2 m_pi t eta Rc Rs) r d) /\
  (Rc < r -> derivable_pt_lim (fun t => G2 m_pi t eta Rc Rs) r 0).
Proof.
  intros Hl _ r d.
  assert (derivable_pt_lim
            (fun t => exp (- eta * (t - Rs) * (t - Rs)) *
                      (0.5 * (cos (m_pi * t / Rc) + 1))) r d) as Hd.
  { apply G2_inside_derivable. unfold d, r. now apply dG2dR_entry. }
  split; [exact Hd|]. split; intros Hr.
  - apply (derivable_pt_lim_locally_ext
             (fun t => exp (- eta * (t - Rs) * (t - Rs)) *
                       (0.5 * (cos (m_pi * t / Rc) + 1))) _ r (r - 1) Rc);
      [lra| |exact Hd].
    intros z Hz. unfold G2, Fc. destruct (Rlt_dec z Rc); [reflexivity|lra].
  - apply (derivable_pt_lim_locally_ext (fun _ => 0) _ r Rc (r + 1));
      [lra| |apply dl_const].
    intros z Hz. unfold G2. rewrite Fc_beyond by lra. ring.
Qed.

End EnvelopeCalculus.

Lemma dFcdR_is_derivative_witness :
  0 <= Fc PI 1 2 <= 1 /\ derivable_pt_lim (fun t => Fc PI t 2) 1 (dFcdR PI 1 2).
Proof. apply (dFcdR_is_derivative PI 1 2); lra. Defined.

Lemma overloads_agree_witness :
  (nth 0 [1] 0 <> 2 ->
   nth 0 (Fc_mat PI [1] 2 true) 0 = Fc PI (nth 0 [1] 0) 2 /\
   nth 0 (dFcdR_mat PI [1] 2 true) 0 = dFcdR PI (nth 0 [1] 0) 2) /\
  (nth 0 [1] 0 = 2 -> 2 <> 0 ->
   Fc PI (nth 0 [1] 0) 2 = 0 /\
   nth 0 (Fc_mat PI [1] 2 true) 0 = 0.5 * (cos PI + 1)).
Proof. apply (overloads_agree PI [1] 2 0). simpl. lia. Defined.

Lemma dG2dR_is_not_clamped_witness :
  let r := nth 0 [3] 0 in
  let d := nth 0 (dG2dR PI [3] 0 2 0) 0 in
  derivable_pt_lim
    (fun t => exp (- 0 * (t - 0) * (t - 0)) * (0.5 * (cos (PI * t / 2) + 1))) r d /\
  (r < 2 -> derivable_pt_lim (fun t => G2 PI t 0 2 0) r d) /\
  (2 < r -> derivable_pt_lim (fun t => G2 PI t 0 2 0) r 0).
Proof. apply (dG2dR_is_not_clamped PI [3] 0 2 0 0); [simpl; lia|lra]. Defined.

Section AngularCalculus.

Variable m_pi : R.
Variable pow : R -> R -> R.

Lemma dFcdR_beyond (r Rc : R) : Rc <= r -> dFcdR m_pi r Rc = 0.
Proof. intros H. unfold dFcdR. destruct (Rlt_dec r Rc); [lra|reflexivity]. Qed.

(** X7. A triplet with a leg at or beyond the cutoff radius [Rc] of an
    angular symmetry function adds nothing: [G5] is 0 and both arrays of
    [dG5dR] are zero.  (The radial [dG2dR] is not clamped this way.) *)
Theorem G5_beyond_Rc (xij yij zij xik yik zik rij rik c eta Rc zeta lambda : R) :
  Rc <= rij \/ Rc <= rik ->
  G5 m_pi pow rij rik c eta Rc zeta lambda = 0 /\
  dG5dR m_pi pow xij yij zij xik yik zik rij rik c eta Rc zeta lambda =
  (V3_zero, V3_zero).
Proof.
  intros H. unfold G5, dG5dR. cbv zeta.
  destruct H as [H|H]; rewrite (Fc_beyond m_pi _ _ H), (dFcdR_beyond _ _ H);
    (split; [ring|]); unfold V3_zero; f_equal; f_equal; ring.
Qed.

(** X8. Exchanging the two legs of a triplet exchanges the two arrays that
    [dG5dR] fills. *)
Theorem dG5dR_exchange (xij yij zij xik yik zik rij rik c eta Rc zeta lambda : R) :
  dG5dR m_pi pow xik yik zik xij yij zij rik rij c eta Rc zeta lambda =
  (snd (dG5dR m_pi pow xij yij zij xik yik zik rij rik c eta Rc zeta lambda),
   fst (dG5dR m_pi pow xij yij zij xik yik zik rij rik c eta Rc zeta lambda)).
Proof.
  unfold dG5dR. cbv zeta. simpl.
  replace (rik * rik + rij * rij) with (rij * rij + rik * rik) by ring.
  f_equal; f_equal; ring.
Qed.

End AngularCalculus.

Section AngularGradient.

Variable m_pi : R.
Variable pow : R -> R -> R.

(** What the force code takes from libm's [pow] on a positive base. *)
Hypothesis pow_derivable :
  forall x z, 0 < x -> derivable_pt_lim (fun t => pow t z) x (z * pow x (z - 1)).
Hypothesis pow_step : forall x z, 0 < x -> pow x z = pow x (z - 1) * x.

Lemma path_start (d u : V3) : V3_add d (V3_scale 0 u) = d.
Proof. destruct d, u. unfold V3_add, V3_scale. simpl. f_equal; ring. Qed.

Lemma rsq_path (d u : V3) (t0 : R) :
  derivable_pt_lim (fun t => rsq (V3_add d (V3_scale t u))) t0
                   (2 * dot (V3_add d (V3_scale t0 u)) u).
Proof.
  unfold rsq, dot. simpl. eapply dl_eq.
  - apply dl_plus; [apply dl_plus|]; apply dl_mult; apply dl_affine.
  - simpl. ring.
Qed.

Lemma dot_path (dj dk u v : V3) :
  derivable_pt_lim (fun t => dot (V3_add dj (V3_scale t u)) (V3_add dk (V3_scale t v)))
                   0 (dot u dk + dot dj v).
Proof.
  unfold dot. simpl. eapply dl_eq.
  - apply dl_plus; [apply dl_plus|]; apply dl_mult; apply dl_affine.
  - simpl. ring.
Qed.

Lemma norm_path (d u : V3) :
  0 < rsq d ->
  derivable_pt_lim (fun t => sqrt (rsq (V3_add d (V3_scale t u)))) 0
                   (dot d u / sqrt (rsq d)).
Proof.
  intros Hd. eapply dl_eq.
  - apply (dl_comp (fun t => rsq (V3_add d (V3_scale t u))) sqrt).
    + apply rsq_path.
    + apply derivable_pt_lim_sqrt. now rewrite path_start.
  - rewrite path_start. field. apply Rgt_not_eq, sqrt_lt_R0, Hd.
Qed.

Lemma G5_chain (rj rk D : R -> R) (rj' rk' D' eta Rc zeta lambda : R) :
  derivable_pt_lim rj 0 rj' -> derivable_pt_lim rk 0 rk' ->
  derivable_pt_lim D 0 D' ->
  rj 0 <> 0 -> rk 0 <> 0 -> rj 0 <> Rc -> rk 0 <> Rc ->
  0 < 1 + lambda * (D 0 / (rj 0 * rk 0)) ->
  derivable_pt_lim
    (fun t => G5 m_pi pow (rj t) (rk t) (D t / (rj t * rk t)) eta Rc zeta lambda) 0
    (let c := D 0 / (rj 0 * rk 0) in
     let c' := (D' * (rj 0 * rk 0) - (rj' * rk 0 + rj 0 * rk') * D 0)
               / Rsqr (rj 0 * rk 0) in
     let P := pow 2 (1 - zeta) in
     let Q := pow (1 + lambda * c) zeta in
     let E := exp (- eta * (rj 0 * rj 0 + rk 0 * rk 0)) in
     P * (zeta * pow (1 + lambda * c) (zeta - 1) * (lambda * c'))
       * E * Fc m_pi (rj 0) Rc * Fc m_pi (rk 0) Rc
     + P * Q * (E * (- eta * (2 * rj 0 * rj' + 2 * rk 0 * rk')))
       * Fc m_pi (rj 0) Rc * Fc m_pi (rk 0) Rc
     + P * Q * E * (dFcdR m_pi (rj 0) Rc * rj') * Fc m_pi (rk 0) Rc
     + P * Q * E * Fc m_pi (rj 0) Rc * (dFcdR m_pi (rk 0) Rc * rk')).
Proof.
  intros Hj Hk HD Nj Nk Cj Ck Hpos. unfold G5. cbv zeta. eapply dl_eq.
  - apply dl_mult; [apply dl_mult; [apply dl_mult; [apply dl_mult|]|]|].
    + apply dl_const.
    + apply (dl_comp (fun t => 1 + lambda * (D t / (rj t * rk t)))
                     (fun b => pow b zeta)).
      * apply dl_plus; [apply dl_const|]. apply dl_mult; [apply dl_const|].
        apply (dl_div D (fun t => rj t * rk t)); [exact HD| |].
        -- apply dl_mult; [exact Hj|exact Hk].
        -- now apply Rmult_integral_contrapositive.
      * apply pow_derivable. exact Hpos.
    + apply (dl_comp (fun t => - eta * (rj t * rj t + rk t * rk t)) exp).
      * apply dl_mult; [apply dl_const|].
        apply dl_plus; apply dl_mult; eassumption.
      * apply derivable_pt_lim_exp.
    + apply (dl_comp rj (fun r => Fc m_pi r Rc)); [exact Hj|].
      apply Fc_derivable. exact Cj.
    + apply (dl_comp rk (fun r => Fc m_pi r Rc)); [exact Hk|].
      apply Fc_derivable. exact Ck.
  - simpl. ring.
Qed.

(** The angular term along a motion of its two displacements. *)
Lemma G5_at_derivable (delj delk u v : V3) (eta Rc zeta lambda : R) :
  0 < rsq delj -> 0 < rsq delk ->
  sqrt (rsq delj) <> Rc -> sqrt (rsq delk) <> Rc ->
  0 < 1 + lambda * (dot delj delk / (sqrt (rsq delj) * sqrt (rsq delk))) ->
  derivable_pt_lim
    (fun t => G5_at m_pi pow (V3_add delj (V3_scale t u)) (V3_add delk (V3_scale t v))
                    eta Rc zeta lambda) 0
    (dot (fst (dG5dR_at m_pi pow delj delk eta Rc zeta lambda)) u
     + dot (snd (dG5dR_at m_pi pow delj delk eta Rc zeta lambda)) v).
Proof.
  intros Hj Hk Cj Ck Hpos.
  pose proof (sqrt_lt_R0 _ Hj) as Pj. pose proof (sqrt_lt_R0 _ Hk) as Pk.
  unfold G5_at. cbv zeta.
  eapply dl_eq.
  - apply (G5_chain (fun t => sqrt (rsq (V3_add delj (V3_scale t u))))
                    (fun t => sqrt (rsq (V3_add delk (V3_scale t v))))
                    (fun t => dot (V3_add delj (V3_scale t u))
                                  (V3_add delk (V3_scale t v)))).
    + apply norm_path, Hj.
    + apply norm_path, Hk.
    + apply dot_path.
    + rewrite path_start. lra.
    + rewrite path_start. lra.
    + now rewrite path_start.
    + now rewrite path_start.
    + now rewrite !path_start.
  - cbv beta zeta. rewrite !path_start.
    unfold dG5dR_at, dG5dR. cbv zeta. simpl fst. simpl snd.
    rewrite (pow_step _ zeta Hpos).
    set (rij := sqrt (rsq delj)) in *. set (rik := sqrt (rsq delk)) in *.
    set (c := dot delj delk / (rij * rik)) in *.
    set (Pm := pow (1 + lambda * c) (zeta - 1)).
    set (P2 := pow 2 (1 - zeta)).
    set (E := exp (- eta * (rij * rij + rik * rik))).
    set (Fj := Fc m_pi rij Rc). set (Fk := Fc m_pi rik Rc).
    set (Mj := dFcdR m_pi rij Rc). set (Mk := dFcdR m_pi rik Rc).
    unfold c, dot, Rsqr. simpl. field. lra.
Qed.

(** X9. [dG5dR] is the gradient of the angular term.  For displacements
    [delj], [delk] of non-zero length, both lengths different from [Rc],
    and [1 + lambda cosTheta > 0]: moving the two displacements along any
    directions [u] and [v] changes [G5] at the rate [dGij . u + dGik . v],
    where [dGij], [dGik] are the arrays that the call of [dG5dR] in the
    force loop fills. *)
Theorem dG5dR_is_gradient (delj delk u v : V3) (eta Rc zeta lambda : R) :
  0 < rsq delj -> 0 < rsq delk ->
  sqrt (rsq delj) <> Rc -> sqrt (rsq delk) <> Rc ->
  0 < 1 + lambda * (dot delj delk / (sqrt (rsq delj) * sqrt (rsq delk))) ->
  derivable_pt_lim
    (fun t => G5_at m_pi pow (V3_add delj (V3_scale t u)) (V3_add delk (V3_scale t v))
                    eta Rc zeta lambda) 0
    (dot (fst (dG5dR_at m_pi pow delj delk eta Rc zeta lambda)) u
     + dot (snd (dG5dR_at m_pi pow delj delk eta Rc zeta lambda)) v).
Proof.
  intros Hj Hk Cj Ck Hpos.
  now apply G5_at_derivable.
Qed.

End AngularGradient.

(** libm's [pow] read as the real power function. *)
Lemma Rpower_derivable (x z : R) :
  0 < x -> derivable_pt_lim (fun t => Rpower t z) x (z * Rpower x (z - 1)).
Proof. apply derivable_pt_lim_power. Qed.

Lemma Rpower_step (x z : R) : 0 < x -> Rpower x z = Rpower x (z - 1) * x.
Proof.
  intros Hx. rewrite <- (Rpower_1 x Hx) at 3. rewrite <- Rpower_plus.
  f_equal. ring.
Qed.

Lemma rsq_unit_x : rsq (mkV3 1 0 0) = 1.
Proof. unfold rsq. simpl. ring. Qed.

Lemma rsq_unit_y : rsq (mkV3 0 1 0) = 1.
Proof. unfold rsq. simpl. ring. Qed.

Lemma G5_beyond_Rc_witness :
  G5 PI Rpower 3 1 0 1 2 1 1 = 0 /\
  dG5dR PI Rpower 3 0 0 0 1 0 3 1 0 1 2 1 1 = (V3_zero, V3_zero).
Proof. apply (G5_beyond_Rc PI Rpower 3 0 0 0 1 0 3 1 0 1 2 1 1). left. lra. Defined.

Lemma dG5dR_is_gradient_witness :
  derivable_pt_lim
    (fun t => G5_at PI Rpower (V3_add (mkV3 1 0 0) (V3_scale t (mkV3 0 1 0)))
                    (V3_add (mkV3 0 1 0) (V3_scale t (mkV3 0 0 1))) 1 2 1 1) 0
    (dot (fst (dG5dR_at PI Rpower (mkV3 1 0 0) (mkV3 0 1 0) 1 2 1 1)) (mkV3 0 1 0)
     + dot (snd (dG5dR_at PI Rpower (mkV3 1 0 0) (mkV3 0 1 0) 1 2 1 1)) (mkV3 0 0 1)).
Proof.
  apply (dG5dR_is_gradient PI Rpower Rpower_derivable Rpower_step
           (mkV3 1 0 0) (mkV3 0 1 0) (mkV3 0 1 0) (mkV3 0 0 1) 1 2 1 1).
  - rewrite rsq_unit_x. lra.
  - rewrite rsq_unit_y. lra.
  - rewrite rsq_unit_x, sqrt_1. lra.
  - rewrite rsq_unit_y, sqrt_1. lra.
  - rewrite rsq_unit_x, rsq_unit_y, sqrt_1. unfold dot. simpl. lra.
Defined.

(** * More of [compute] *)

Section ComputeMore.

Variable m_pi : R.
Variable pow : R -> R -> R.
Variable NEIGHMASK : Z.

(** ** How the triplets relate to the pairs *)

Lemma collect_triplets_later (sty : Style) (x : list V3) (xi : V3) (j : nat)
      (delj : V3) (rij : R) (ks : list Z) :
  forall input input',
    map (fun t => (tagk t, drik t, Rik t))
        (fst (collect_triplets m_pi pow NEIGHMASK sty x xi j delj rij ks input)) =
    map (fun nb => (tagj nb, drij nb, Rij nb))
        (fst (collect_pairs m_pi pow NEIGHMASK sty x xi ks input')).
Proof.
  induction ks as [|kz ks IH]; intros input input'; simpl; [reflexivity|].
  destruct (Rge_dec _ _); [apply IH|].
  match goal with
  | |- context [collect_triplets _ _ _ _ _ _ j delj rij ks ?inp] =>
      pose proof (fun i' => IH inp i') as IH1;
      destruct (collect_triplets m_pi pow NEIGHMASK sty x xi j delj rij ks inp)
        as [ts out]
  end.
  match goal with
  | |- context [collect_triplets _ _ _ _ _ _ ?j' ?d' ?r' ks ?inp] =>
      destruct (collect_triplets m_pi pow NEIGHMASK sty x xi j' d' r' ks inp)
        as [ts' out']
  end.
  specialize (IH1 out').
  destruct (collect_pairs m_pi pow NEIGHMASK sty x xi ks out') as [ps out2].
  simpl in *. now rewrite IH1.
Qed.

Lemma collect_pairs_later (sty : Style) (x : list V3) (xi : V3) (js : list Z) :
  forall input l nb,
    fst (collect_pairs m_pi pow NEIGHMASK sty x xi js input) !! l = Some nb ->
    map (fun t => (tagk t, drik t, Rik t)) (triplets nb) =
    map (fun nb => (tagj nb, drij nb, Rij nb))
        (drop (S l) (fst (collect_pairs m_pi pow NEIGHMASK sty x xi js input))).
Proof.
  induction js as [|jz js IH]; intros input l nb; simpl; [discriminate|].
  destruct (Rge_dec _ _); [apply IH|].
  match goal with
  | |- context [collect_triplets _ _ _ _ _ _ ?j ?d ?r js ?inp] =>
      pose proof (fun i' => collect_triplets_later sty x xi j d r js inp i') as Ht;
      destruct (collect_triplets m_pi pow NEIGHMASK sty x xi j d r js inp)
        as [ts out1]
  end.
  specialize (Ht out1). specialize (IH out1).
  destruct (collect_pairs m_pi pow NEIGHMASK sty x xi js out1) as [ps out2].
  simpl in *. destruct l as [|l]; simpl.
  - intros [= <-]. simpl. rewrite drop_0. exact Ht.
  - apply IH.
Qed.

Lemma map_triple {A B : Type} (f : A -> nat * V3 * R) (g : B -> nat * V3 * R)
      (la : list A) (lb : list B) :
  map f la = map g lb ->
  map (fun a => fst (fst (f a))) la = map (fun b => fst (fst (g b))) lb /\
  map (fun a => snd (fst (f a))) la = map (fun b => snd (fst (g b))) lb /\
  map (fun a => snd (f a)) la = map (fun b => snd (g b)) lb.
Proof.
  intros H.
  pose proof (f_equal (map (fun q : nat * V3 * R => fst (fst q))) H) as H1.
  pose proof (f_equal (map (fun q : nat * V3 * R => snd (fst q))) H) as H2.
  pose proof (f_equal (map (fun q : nat * V3 * R => snd q)) H) as H3.
  rewrite !List.map_map in H1, H2, H3. auto.
Qed.

Lemma last_pair_alone (sty : Style) (x : list V3) (xi : V3) (js : list Z)
      (input : row) (nb : Neighbour) (front : list Neighbour) :
  fst (collect_pairs m_pi pow NEIGHMASK sty x xi js input) = front ++ [nb] ->
  triplets nb = [].
Proof.
  intros Hsplit.
  pose proof (collect_pairs_later sty x xi js input (length front) nb) as H.
  rewrite Hsplit in H.
  rewrite lookup_app_r in H by lia. rewrite Nat.sub_diag in H.
  specialize (H eq_refl).
  rewrite drop_ge in H by (rewrite length_app; simpl; lia).
  destruct (triplets nb); [reflexivity|discriminate].
Qed.

(** X10. The triplets stored for the [l]-th pair within the cutoff are the
    pairs stored after it, in the same order: same particle index, same
    displacement, same distance.  So the last pair has no triplet, and the
    bound [l < neighbours-1] of the angular force loop leaves out nothing:
    the loop does what the loop over all [l < neighbours] does. *)
Theorem triplets_are_later_pairs (sty : Style) (x : list V3) (xi : V3)
        (js : list Z) (input : row) (l : nat) (nb : Neighbour)
        (dEdG_s : R) (p : list R) (acc : Forces) :
  let nbs := fst (collect_pairs m_pi pow NEIGHMASK sty x xi js input) in
  (nbs !! l = Some nb ->
   map tagk (triplets nb) = map tagj (drop (S l) nbs) /\
   map drik (triplets nb) = map drij (drop (S l) nbs) /\
   map Rik (triplets nb) = map Rij (drop (S l) nbs)) /\
  angular_forces m_pi pow dEdG_s p nbs acc =
  fold_left (fun acc nb => fold_left (angular_term m_pi pow dEdG_s p nb) (triplets nb) acc)
            nbs acc.
Proof.
  intros nbs. split.
  - intros Hl. apply (map_triple (fun t => (tagk t, drik t, Rik t))
                                 (fun nb => (tagj nb, drij nb, Rij nb))).
    now apply collect_pairs_later.
  - unfold angular_forces.
    assert (forall L : list Neighbour,
              L = [] \/ exists front lastnb, L = front ++ [lastnb]) as Hcase.
    { intros L. induction L using rev_ind; [left; reflexivity|right; eauto]. }
    destruct (Hcase nbs) as [Hnil|(front & lastnb & Hsplit)].
    + rewrite Hnil. reflexivity.
    + rewrite Hsplit, length_app. simpl.
      replace (length front + 1 - 1)%nat with (length front) by lia.
      rewrite firstn_app, firstn_all, Nat.sub_diag. simpl.
      rewrite app_nil_r, fold_left_app. simpl.
      now rewrite (last_pair_alone sty x xi js input lastnb front Hsplit).
Qed.

(** ** The whole loop over the owned atoms *)

Lemma compute_loop_total (sty : Style) (atoms : Atoms) (anchors : list nat) :
  forall sim,
    Forall (fun i => (i < length (atom_f sim))%nat /\
                     Forall (fun jz => (mask NEIGHMASK jz < length (atom_f sim))%nat)
                            (firstneigh atoms !!! i)) anchors ->
    match compute_loop m_pi pow NEIGHMASK sty atoms anchors sim with
    | Some sim' =>
        total (atom_f sim') = total (atom_f sim) /\
        length (atom_f sim') = length (atom_f sim)
    | None => True
    end.
Proof.
  induction anchors as [|i anchors IH]; intros sim Hall; simpl; [split; reflexivity|].
  inversion Hall as [|? ? [Hi Hjs] Hrest]; subst.
  pose proof (compute_anchor_total m_pi pow NEIGHMASK sty atoms sim i Hi Hjs) as Ha.
  destruct (compute_anchor m_pi pow NEIGHMASK sty atoms sim i) as [sim1|]; [|exact I].
  destruct Ha as [Ht Hl]. specialize (IH sim1). rewrite Hl in IH. specialize (IH Hrest).
  destruct (compute_loop m_pi pow NEIGHMASK sty atoms anchors sim1) as [sim'|]; [|exact I].
  destruct IH as [Ht' Hl']. split; congruence.
Qed.

(** X11. One call of [compute] leaves the sum of all forces unchanged
    (whatever the positions, the neighbour lists and the network), as long
    as every index it uses lies inside the force array. *)
Theorem compute_conserves_total_force (sty : Style) (atoms : Atoms) (sim sim' : Sim) :
  Forall (fun i => (i < length (atom_f sim))%nat /\
                   Forall (fun jz => (mask NEIGHMASK jz < length (atom_f sim))%nat)
                          (firstneigh atoms !!! i)) (ilist atoms) ->
  compute m_pi pow NEIGHMASK sty atoms sim = Some sim' ->
  total (atom_f sim') = total (atom_f sim) /\
  length (atom_f sim') = length (atom_f sim).
Proof.
  intros Hall. unfold compute.
  pose proof (compute_loop_total sty atoms (ilist atoms)
                (mkSim (atom_f sim) 0 (net sim) (myStep sim)) Hall) as H.
  destruct (compute_loop _ _ _ _ _ _ _) as [s|]; [|discriminate].
  intros [= <-]. exact H.
Qed.

(** ** The energy *)

Lemma compute_anchor_energy (sty : Style) (atoms : Atoms) (sim sim' : Sim) (i : nat) :
  caches_sized (net sim) ->
  compute_anchor m_pi pow NEIGHMASK sty atoms sim i = Some sim' ->
  eng_vdwl sim' =
  eng_vdwl sim +
  network_spec (m_nLayers (net sim)) (m_weights (net sim)) (m_biases (net sim))
               (shift_inputs sty (descriptor m_pi pow NEIGHMASK sty atoms i)) /\
  caches_sized (net sim') /\
  m_nLayers (net sim') = m_nLayers (net sim) /\
  m_weights (net sim') = m_weights (net sim) /\
  m_weightsTransposed (net sim') = m_weightsTransposed (net sim) /\
  m_biases (net sim') = m_biases (net sim) /\
  myStep sim' = myStep sim.
Proof.
  intros Hc. rewrite compute_anchor_unfold.
  destruct (Nat.eqb _ 0); [discriminate|]. cbv zeta.
  set (inp := shift_inputs sty (descriptor m_pi pow NEIGHMASK sty atoms i)).
  intros H.
  pose proof (f_equal (fun o => match o with Some s => s | None => sim' end) H) as H'.
  cbv beta iota in H'. subst sim'. clear H. cbn [eng_vdwl net myStep].
  destruct (network_state (net sim) inp Hc) as (Ho & Hn & Hw & Hwt & Hb & Hc1 & _).
  destruct (backPropagation_frame (snd (network (net sim) inp)))
    as (Bn & Bw & Bwt & Bb & Bp & Ba & Bd).
  rewrite Ho. split; [reflexivity|].
  split; [|repeat split; congruence].
  destruct Hc1 as (C1 & C2 & C3). unfold caches_sized.
  rewrite Bn, Bp, Ba, Bd. repeat split; assumption.
Qed.

Lemma compute_loop_energy (sty : Style) (atoms : Atoms) (anchors : list nat) :
  forall sim sim',
    caches_sized (net sim) ->
    compute_loop m_pi pow NEIGHMASK sty atoms anchors sim = Some sim' ->
    eng_vdwl sim' =
    eng_vdwl sim +
    accu (map (fun i =>
                 network_spec (m_nLayers (net sim)) (m_weights (net sim))
                   (m_biases (net sim))
                   (shift_inputs sty (descriptor m_pi pow NEIGHMASK sty atoms i)))
              anchors) /\
    caches_sized (net sim') /\
    m_nLayers (net sim') = m_nLayers (net sim) /\
    m_weights (net sim') = m_weights (net sim) /\
    m_weightsTransposed (net sim') = m_weightsTransposed (net sim) /\
    m_biases (net sim') = m_biases (net sim) /\
    myStep sim' = myStep sim.
Proof.
  induction anchors as [|i anchors IH]; intros sim sim' Hc; simpl.
  - intros [= <-]. split; [ring|]. split; [exact Hc|]. repeat split.
  - destruct (compute_anchor m_pi pow NEIGHMASK sty atoms sim i) as [sim1|] eqn:Ha;
      [|discriminate].
    intros Hrest.
    destruct (compute_anchor_energy sty atoms sim sim1 i Hc Ha)
      as (He & Hc1 & Hn & Hw & Hwt & Hb & Hs).
    destruct (IH sim1 sim' Hc1 Hrest) as (He' & Hc' & Hn' & Hw' & Hwt' & Hb' & Hs').
    rewrite He', He, Hn, Hw, Hb.
    split; [ring|]. split; [exact Hc'|]. repeat split; congruence.
Qed.

(** X12. The energy that [compute] leaves in [eng_vdwl] is the sum, over
    the owned atoms, of the network output on the (shifted) descriptor of
    the atom, all with the parameters the class had when the call began:
    the caches written for one atom do not reach the next one.  The call
    leaves the parameters as they were and increments [myStep]. *)
Theorem compute_energy (sty : Style) (atoms : Atoms) (sim sim' : Sim) :
  caches_sized (net sim) ->
  compute m_pi pow NEIGHMASK sty atoms sim = Some sim' ->
  eng_vdwl sim' =
  accu (map (fun i =>
               network_spec (m_nLayers (net sim)) (m_weights (net sim))
                 (m_biases (net sim))
                 (shift_inputs sty (descriptor m_pi pow NEIGHMASK sty atoms i)))
            (ilist atoms)) /\
  m_nLayers (net sim') = m_nLayers (net sim) /\
  m_weights (net sim') = m_weights (net sim) /\
  m_weightsTransposed (net sim') = m_weightsTransposed (net sim) /\
  m_biases (net sim') = m_biases (net sim) /\
  myStep sim' = (myStep sim + 1)%Z.
Proof.
  intros Hc. unfold compute.
  destruct (compute_loop m_pi pow NEIGHMASK sty atoms (ilist atoms)
              (mkSim (atom_f sim) 0 (net sim) (myStep sim))) as [s|] eqn:Hloop;
    [|discriminate].
  intros [= <-]. simpl.
  destruct (compute_loop_energy sty atoms (ilist atoms)
              (mkSim (atom_f sim) 0 (net sim) (myStep sim)) s Hc Hloop)
    as (He & _ & Hn & Hw & Hwt & Hb & Hs).
  simpl in *. rewrite He, Hs. split; [ring|]. repeat split; assumption.
Qed.

Lemma compute_completes (sty : Style) (atoms : Atoms) (sim : Sim) :
  Forall (fun i => firstneigh atoms !!! i <> []) (ilist atoms) ->
  compute m_pi pow NEIGHMASK sty atoms sim =
  Some (default sim (compute m_pi pow NEIGHMASK sty atoms sim)).
Proof.
  intros Hall. unfold compute.
  destruct (compute_loop m_pi pow NEIGHMASK sty atoms (ilist atoms)
              (mkSim (atom_f sim) 0 (net sim) (myStep sim))) as [s|] eqn:Hloop;
    [reflexivity|].
  apply compute_loop_none in Hloop. apply List.Exists_exists in Hloop.
  destruct Hloop as (i & Hin & Hempty).
  rewrite List.Forall_forall in Hall. now apply Hall in Hin.
Qed.

(** ** Which forces a call can change *)

Lemma collect_triplets_near (P : nat -> Prop) (sty : Style) (x : list V3) (xi : V3)
      (j : nat) (delj : V3) (rij : R) (ks : list Z) (input : row) :
  Forall (fun kz => ~ beyond_cutoff NEIGHMASK sty x xi kz -> P (mask NEIGHMASK kz)) ks ->
  Forall (fun t => P (tagk t))
         (fst (collect_triplets m_pi pow NEIGHMASK sty x xi j delj rij ks input)).
Proof.
  intros Hks. revert input. induction Hks as [|kz ks Hk _ IH]; intros input; simpl.
  - constructor.
  - destruct (Rge_dec _ _) as [Hfar|Hnear]; [apply IH|].
    match goal with
    | |- context [collect_triplets _ _ _ _ _ _ _ _ _ ks ?inp] =>
        specialize (IH inp);
        destruct (collect_triplets m_pi pow NEIGHMASK sty x xi j delj rij ks inp)
          as [ts out]
    end.
    simpl in *. constructor; [apply Hk, Hnear|exact IH].
Qed.

Lemma collect_pairs_near (P : nat -> Prop) (sty : Style) (x : list V3) (xi : V3)
      (js : list Z) (input : row) :
  Forall (fun jz => ~ beyond_cutoff NEIGHMASK sty x xi jz -> P (mask NEIGHMASK jz)) js ->
  Forall (fun nb => P (tagj nb) /\ Forall (fun t => P (tagk t)) (triplets nb))
         (fst (collect_pairs m_pi pow NEIGHMASK sty x xi js input)).
Proof.
  intros Hjs. revert input. induction Hjs as [|jz js Hj Hrest IH]; intros input; simpl.
  - constructor.
  - destruct (Rge_dec _ _) as [Hfar|Hnear]; [apply IH|].
    match goal with
    | |- context [collect_triplets _ _ _ _ _ _ ?j ?d ?r js ?inp] =>
        pose proof (collect_triplets_near P sty x xi j d r js inp Hrest) as Hts;
        destruct (collect_triplets m_pi pow NEIGHMASK sty x xi j d r js inp)
          as [ts out1]
    end.
    specialize (IH out1).
    destruct (collect_pairs m_pi pow NEIGHMASK sty x xi js out1) as [ps out2].
    simpl in *. constructor; [split; [apply Hj, Hnear|exact Hts]|exact IH].
Qed.

Lemma fold_left_untouched {A : Type} (step : Forces -> A -> Forces) (P : A -> Prop)
      (q : nat) (l : list A) :
  (forall acc a, P a -> forces (step acc a) !!! q = forces acc !!! q) ->
  Forall P l ->
  forall acc, forces (fold_left step l acc) !!! q = forces acc !!! q.
Proof.
  intros Hstep HP. induction HP as [|a l Ha _ IH]; intros acc; simpl; [reflexivity|].
  rewrite IH. now apply Hstep.
Qed.

Lemma symmetry_forces_untouched (sty : Style) (dEdG : row) (nbs : list Neighbour)
      (q : nat) (acc : Forces) :
  Forall (fun nb => tagj nb <> q /\ Forall (fun t => tagk t <> q) (triplets nb)) nbs ->
  forces (symmetry_forces m_pi pow sty dEdG nbs acc) !!! q = forces acc !!! q.
Proof.
  intros Hnbs. unfold symmetry_forces.
  apply (fold_left_untouched _ (fun _ : nat => True)).
  - intros acc' s _. cbv zeta. destruct (Nat.eqb _ 3).
    + unfold radial_forces. cbv zeta.
      apply (fold_left_untouched _ (fun pr : Neighbour * R => tagj (fst pr) <> q)).
      * intros acc'' [nb fpair] Hne. simpl in *.
        now apply lookup_add_force_ne.
      * apply Forall_forall. intros [nb fpair] Hin. simpl.
        apply elem_of_zip_l in Hin. rewrite Forall_forall in Hnbs.
        now apply Hnbs in Hin.
    + unfold angular_forces.
      apply (fold_left_untouched _
               (fun nb => tagj nb <> q /\ Forall (fun t => tagk t <> q) (triplets nb))).
      * intros acc'' nb [Hj Hts].
        apply (fold_left_untouched _ (fun t => tagk t <> q)); [|exact Hts].
        intros acc3 t Ht. unfold angular_term.
        destruct (dG5dR _ _ _ _ _ _ _ _ _ _ _ _ _ _ _) as [dGj dGk]. simpl.
        now rewrite !lookup_add_force_ne.
      * now apply Forall_take.
  - apply List.Forall_forall. intros; exact I.
Qed.

Lemma compute_anchor_untouched (sty : Style) (atoms : Atoms) (sim sim' : Sim)
      (i q : nat) :
  q <> i ->
  (forall jz, In jz (firstneigh atoms !!! i) -> mask NEIGHMASK jz = q ->
     beyond_cutoff NEIGHMASK sty (atom_x atoms) (atom_x atoms !!! i) jz) ->
  compute_anchor m_pi pow NEIGHMASK sty atoms sim i = Some sim' ->
  atom_f sim' !!! q = atom_f sim !!! q.
Proof.
  intros Hqi Hfar. rewrite compute_anchor_unfold.
  destruct (Nat.eqb _ 0); [discriminate|]. cbv zeta.
  set (nbs := fst (collect_pairs _ _ _ _ _ _ _ _)).
  set (dEdG := fst (backPropagation _)).
  intros H.
  pose proof (f_equal (fun o => match o with Some s => s | None => sim' end) H) as H'.
  cbv beta iota in H'. subst sim'. clear H. cbn [atom_f].
  rewrite !lookup_add_force_ne by congruence.
  rewrite symmetry_forces_untouched; [reflexivity|].
  apply (collect_pairs_near (fun t => t <> q)).
  apply List.Forall_forall. intros jz Hin Hnear Heq.
  apply Hnear. now apply Hfar.
Qed.

(** X13. Forces are local.  A particle that is not an owned atom of the
    call and that no owned atom has within the cutoff (every occurrence of
    it in a neighbour list fails the test [rsq < cutoff*cutoff]) has the
    same force after [compute] as before. *)
Theorem forces_are_local (sty : Style) (atoms : Atoms) (sim sim' : Sim) (q : nat) :
  ~ In q (ilist atoms) ->
  (forall i jz, In i (ilist atoms) -> In jz (firstneigh atoms !!! i) ->
     mask NEIGHMASK jz = q ->
     beyond_cutoff NEIGHMASK sty (atom_x atoms) (atom_x atoms !!! i) jz) ->
  compute m_pi pow NEIGHMASK sty atoms sim = Some sim' ->
  atom_f sim' !!! q = atom_f sim !!! q.
Proof.
  intros Hq Hfar. unfold compute.
  assert (forall anchors s s',
            (forall i, In i anchors -> In i (ilist atoms)) ->
            compute_loop m_pi pow NEIGHMASK sty atoms anchors s = Some s' ->
            atom_f s' !!! q = atom_f s !!! q) as Hloop.
  { induction anchors as [|i anchors IH]; intros s s' Hsub; simpl.
    - now intros [= <-].
    - destruct (compute_anchor m_pi pow NEIGHMASK sty atoms s i) as [s1|] eqn:Ha;
        [|discriminate].
      intros Hrest. rewrite (IH s1 s') by (auto using in_cons).
      apply (compute_anchor_untouched sty atoms s s1 i q); [| |exact Ha].
      + intros ->. apply Hq, Hsub. now left.
      + intros jz Hin Hm. apply Hfar; [apply Hsub; now left|exact Hin|exact Hm]. }
  destruct (compute_loop _ _ _ _ _ _ _) as [s|] eqn:Hrun; [|discriminate].
  intros [= <-]. simpl.
  apply (Hloop (ilist atoms) _ s) in Hrun; [exact Hrun|auto].
Qed.

(** ** All the entries of the descriptor *)

(** X14. The descriptor of an anchor has [m_numberOfSymmFunc] entries.  An
    entry with a record of three numbers is the sum of [G2] over the
    neighbours that pass the cutoff test; an entry with a record of four
    numbers is the sum of [G5] over the pairs [jj < kk] of neighbours that
    both pass it (each unordered pair of list entries once); an entry with
    a record of any other length is 0. *)
Theorem descriptor_entries (sty : Style) (atoms : Atoms) (i s : nat) :
  let jlist := firstneigh atoms !!! i in
  let x := atom_x atoms in
  let xi := atom_x atoms !!! i in
  let p := m_parameters sty !!! s in
  length (descriptor m_pi pow NEIGHMASK sty atoms i) = m_numberOfSymmFunc sty /\
  nth s (descriptor m_pi pow NEIGHMASK sty atoms i) 0 =
  if Nat.ltb s (m_numberOfSymmFunc sty) then
    if Nat.eqb (length p) 3
    then near_sum NEIGHMASK sty x xi (radial_part m_pi NEIGHMASK x xi p) jlist
    else if Nat.eqb (length p) 4
         then near_pair_sum NEIGHMASK sty x xi (angular_part m_pi pow NEIGHMASK x xi p) jlist
         else 0
  else 0.
Proof.
  intros jlist x xi p. subst jlist x xi p. unfold descriptor.
  destruct (collect_pairs_input m_pi pow NEIGHMASK sty (atom_x atoms)
              (atom_x atoms !!! i) (firstneigh atoms !!! i)
              (repeat 0 (m_numberOfSymmFunc sty))) as [Hlen Hnth].
  split; [now rewrite Hlen, repeat_length|].
  rewrite Hnth. unfold entry_of_arity. rewrite repeat_length, nth_repeat.
  destruct (Nat.ltb s (m_numberOfSymmFunc sty)); simpl; [|lra].
  destruct (Nat.eqb_spec (length (m_parameters sty !!! s)) 3) as [H3|H3].
  - rewrite H3. simpl. lra.
  - destruct (Nat.eqb (length (m_parameters sty !!! s)) 4); simpl; lra.
Qed.

End ComputeMore.

Lemma two_atoms_listed :
  Forall (fun i => firstneigh two_atoms !!! i <> []) (ilist two_atoms).
Proof. repeat constructor; simpl; discriminate. Qed.

Lemma lone_owner_listed :
  Forall (fun i => firstneigh lone_owner !!! i <> []) (ilist lone_owner).
Proof. repeat constructor; simpl; discriminate. Qed.

Lemma compute_conserves_total_force_witness :
  let sim' := default rest_sim
                (compute PI Rpower 1073741823 (one_radial 2) two_atoms rest_sim) in
  total (atom_f sim') = total (atom_f rest_sim) /\
  length (atom_f sim') = length (atom_f rest_sim).
Proof.
  apply (compute_conserves_total_force PI Rpower 1073741823 (one_radial 2)
           two_atoms rest_sim).
  - simpl. repeat constructor.
  - apply compute_completes, two_atoms_listed.
Defined.

Lemma compute_energy_witness :
  let sim' := default rest_sim
                (compute PI Rpower 1073741823 (one_radial 2) two_atoms rest_sim) in
  eng_vdwl sim' =
  accu (map (fun i =>
               network_spec (m_nLayers (net rest_sim)) (m_weights (net rest_sim))
                 (m_biases (net rest_sim))
                 (shift_inputs (one_radial 2)
                    (descriptor PI Rpower 1073741823 (one_radial 2) two_atoms i)))
            (ilist two_atoms)) /\
  m_nLayers (net sim') = m_nLayers (net rest_sim) /\
  m_weights (net sim') = m_weights (net rest_sim) /\
  m_weightsTransposed (net sim') = m_weightsTransposed (net rest_sim) /\
  m_biases (net sim') = m_biases (net rest_sim) /\
  myStep sim' = (myStep rest_sim + 1)%Z.
Proof.
  apply (compute_energy PI Rpower 1073741823 (one_radial 2) two_atoms rest_sim).
  - unfold caches_sized. simpl. repeat split.
  - apply compute_completes, two_atoms_listed.
Defined.

Lemma forces_are_local_witness :
  atom_f (default idle_sim
            (compute PI Rpower 1073741823 (one_radial 2) lone_owner idle_sim))
    !!! 2%nat
  = atom_f idle_sim !!! 2%nat.
Proof.
  apply (forces_are_local PI Rpower 1073741823 (one_radial 2) lone_owner idle_sim).
  - simpl. intros [H|[]]. discriminate.
  - intros i jz [<-|[]] Hin Hm. simpl in Hin.
    destruct Hin as [<-|[<-|[]]]; [discriminate|].
    unfold beyond_cutoff, rsq. simpl. lra.
  - apply compute_completes, lone_owner_listed.
Defined.

(** * Rigid motions *)

Section RigidMotion.

Variable m_pi : R.
Variable pow : R -> R -> R.
Variable NEIGHMASK : Z.

Variable M : V3 -> V3.
Variable a : V3.
Hypothesis M_add : forall u v, M (V3_add u v) = V3_add (M u) (M v).
Hypothesis M_scale : forall k u, M (V3_scale k u) = V3_scale k (M u).
Hypothesis M_dot : forall u v, dot (M u) (M v) = dot u v.

Lemma V3_sub_add_scale (u v : V3) : V3_sub u v = V3_add u (V3_scale (-1) v).
Proof. apply V3_eq; simpl; ring. Qed.

Lemma M_sub (u v : V3) : M (V3_sub u v) = V3_sub (M u) (M v).
Proof. now rewrite !V3_sub_add_scale, M_add, M_scale. Qed.

Lemma M_zero : M V3_zero = V3_zero.
Proof.
  replace V3_zero with (V3_scale 0 V3_zero) at 1 by (apply V3_eq; simpl; ring).
  rewrite M_scale. apply V3_eq; simpl; ring.
Qed.

Lemma rsq_dot (d : V3) : rsq d = dot d d.
Proof. reflexivity. Qed.

Lemma rsq_M (d : V3) : rsq (M d) = rsq d.
Proof. now rewrite !rsq_dot, M_dot. Qed.

Lemma lookup_total_map (g : V3 -> V3) (x : list V3) (j : nat) :
  (j < length x)%nat -> map g x !!! j = g (x !!! j).
Proof.
  revert j. induction x as [|b x IH]; intros [|j] Hj; simpl in *; try lia;
    [reflexivity|]. apply IH. lia.
Qed.

Lemma moved_difference (x : list V3) (j k : nat) :
  (j < length x)%nat -> (k < length x)%nat ->
  V3_sub (map (fun p => V3_add (M p) a) x !!! j) (map (fun p => V3_add (M p) a) x !!! k)
  = M (V3_sub (x !!! j) (x !!! k)).
Proof.
  intros Hj Hk. rewrite !lookup_total_map by assumption.
  rewrite M_sub. apply V3_eq; simpl; ring.
Qed.

Lemma add_force_turn (f : list V3) (p : nat) (v : V3) :
  add_force (map M f) p (M v) = map M (add_force f p v).
Proof.
  unfold add_force. revert p. induction f as [|b f IH]; intros [|p]; simpl;
    try reflexivity.
  - now rewrite M_add.
  - f_equal.
    destruct (Nat.lt_ge_cases p (length f)) as [Hp|Hp].
    + rewrite <- IH. reflexivity.
    + rewrite !list_insert_ge by (rewrite ?length_map; lia). reflexivity.
Qed.

Lemma collect_triplets_moved (sty : Style) (x : list V3) (i j : nat) (delj : V3)
      (rij : R) (ks : list Z) :
  (i < length x)%nat -> (j < length x)%nat ->
  Forall (fun kz => (mask NEIGHMASK kz < length x)%nat) ks ->
  forall input,
    collect_triplets m_pi pow NEIGHMASK sty (map (fun p => V3_add (M p) a) x)
                     (map (fun p => V3_add (M p) a) x !!! i) j (M delj) rij ks input =
    (map (turn_triplet M)
         (fst (collect_triplets m_pi pow NEIGHMASK sty x (x !!! i) j delj rij ks input)),
     snd (collect_triplets m_pi pow NEIGHMASK sty x (x !!! i) j delj rij ks input)).
Proof.
  intros Hi Hj Hks. induction Hks as [|kz ks Hk _ IH]; intros input; simpl;
    [reflexivity|].
  rewrite !moved_difference by assumption. rewrite !rsq_M, M_dot.
  destruct (Rge_dec _ _); [apply IH|].
  rewrite IH.
  destruct (collect_triplets m_pi pow NEIGHMASK sty x (x !!! i) j delj rij ks _)
    as [ts out].
  reflexivity.
Qed.

Lemma collect_pairs_moved (sty : Style) (x : list V3) (i : nat) (js : list Z) :
  (i < length x)%nat ->
  Forall (fun jz => (mask NEIGHMASK jz < length x)%nat) js ->
  forall input,
    collect_pairs m_pi pow NEIGHMASK sty (map (fun p => V3_add (M p) a) x)
                  (map (fun p => V3_add (M p) a) x !!! i) js input =
    (map (turn_neighbour M)
         (fst (collect_pairs m_pi pow NEIGHMASK sty x (x !!! i) js input)),
     snd (collect_pairs m_pi pow NEIGHMASK sty x (x !!! i) js input)).
Proof.
  intros Hi Hjs. induction Hjs as [|jz js Hj Hrest IH]; intros input; simpl;
    [reflexivity|].
  rewrite !moved_difference by assumption. rewrite !rsq_M.
  destruct (Rge_dec _ _); [apply IH|].
  rewrite collect_triplets_moved by assumption.
  destruct (collect_triplets m_pi pow NEIGHMASK sty x (x !!! i) _ _ _ js _)
    as [ts out1]. simpl.
  rewrite IH.
  destruct (collect_pairs m_pi pow NEIGHMASK sty x (x !!! i) js out1) as [ps out2].
  reflexivity.
Qed.

Lemma radial_term_turn (acc : Forces) (nb : Neighbour) (fpair : R) :
  radial_term (turn_acc M acc) (turn_neighbour M nb) fpair =
  turn_acc M (radial_term acc nb fpair).
Proof.
  unfold radial_term, turn_acc. simpl.
  now rewrite <- M_scale, add_force_turn, M_sub.
Qed.

Lemma radial_forces_turn (dEdG_s : R) (p : list R) (nbs : list Neighbour)
      (acc : Forces) :
  radial_forces m_pi dEdG_s p (map (turn_neighbour M) nbs) (turn_acc M acc) =
  turn_acc M (radial_forces m_pi dEdG_s p nbs acc).
Proof.
  unfold radial_forces. cbv zeta.
  replace (map Rij (map (turn_neighbour M) nbs)) with (map Rij nbs)
    by (rewrite List.map_map; reflexivity).
  generalize (zip_with (fun dg r => - dEdG_s * dg / r)
                (dG2dR m_pi (map Rij nbs) (p !!! 0%nat) (p !!! 1%nat) (p !!! 2%nat))
                (map Rij nbs)).
  intros fpairs. revert fpairs acc.
  induction nbs as [|nb nbs IH]; intros [|fp fpairs] acc; simpl; try reflexivity.
  rewrite radial_term_turn. apply IH.
Qed.

Lemma dG5dR_turn (dj dk : V3) (rij rik c eta Rc zeta lambda : R) :
  dG5dR m_pi pow (c0 (M dj)) (c1 (M dj)) (c2 (M dj)) (c0 (M dk)) (c1 (M dk)) (c2 (M dk))
        rij rik c eta Rc zeta lambda =
  (M (fst (dG5dR m_pi pow (c0 dj) (c1 dj) (c2 dj) (c0 dk) (c1 dk) (c2 dk)
                 rij rik c eta Rc zeta lambda)),
   M (snd (dG5dR m_pi pow (c0 dj) (c1 dj) (c2 dj) (c0 dk) (c1 dk) (c2 dk)
                 rij rik c eta Rc zeta lambda))).
Proof.
  unfold dG5dR. cbv zeta. simpl fst. simpl snd.
  match goal with
  | |- (mkV3 (- _ * ?tj - _ * ?cr) _ _, mkV3 (- _ * ?tk - _ * _) _ _) = _ =>
      set (termij := tj); set (termik := tk); set (crossTerm := cr)
  end.
  assert (forall (d e : V3) (s : R),
            mkV3 (- c0 d * s - c0 e * crossTerm) (- c1 d * s - c1 e * crossTerm)
                 (- c2 d * s - c2 e * crossTerm) =
            V3_add (V3_scale (- s) d) (V3_scale (- crossTerm) e)) as Hlin.
  { intros d e s. apply V3_eq; simpl; ring. }
  rewrite !Hlin, !M_add, !M_scale. reflexivity.
Qed.

Lemma angular_term_turn (dEdG_s : R) (p : list R) (nb : Neighbour) (acc : Forces)
      (t : Triplet) :
  angular_term m_pi pow dEdG_s p (turn_neighbour M nb) (turn_acc M acc)
               (turn_triplet M t) =
  turn_acc M (angular_term m_pi pow dEdG_s p nb acc t).
Proof.
  unfold angular_term.
  cbn [drij drik Rij Rik cosTheta tagj tagk turn_neighbour turn_triplet].
  rewrite dG5dR_turn.
  destruct (dG5dR m_pi pow (c0 (drij nb)) _ _ _ _ _ _ _ _ _ _ _ _) as [dGj dGk].
  cbn [fst snd]. unfold turn_acc. cbn [f2 f3j f3k forces].
  now rewrite <- !M_scale, !add_force_turn, !M_sub.
Qed.

Lemma angular_forces_turn (dEdG_s : R) (p : list R) (nbs : list Neighbour)
      (acc : Forces) :
  angular_forces m_pi pow dEdG_s p (map (turn_neighbour M) nbs) (turn_acc M acc) =
  turn_acc M (angular_forces m_pi pow dEdG_s p nbs acc).
Proof.
  unfold angular_forces. rewrite length_map, firstn_map.
  generalize (firstn (length nbs - 1) nbs). intros l. revert acc.
  induction l as [|nb l IH]; intros acc; simpl; [reflexivity|].
  rewrite <- IH. f_equal.
  generalize (triplets nb). intros ts. revert acc.
  induction ts as [|t ts IHt]; intros acc; simpl; [reflexivity|].
  rewrite angular_term_turn. apply IHt.
Qed.

Lemma symmetry_forces_turn (sty : Style) (dEdG : row) (nbs : list Neighbour)
      (acc : Forces) :
  symmetry_forces m_pi pow sty dEdG (map (turn_neighbour M) nbs) (turn_acc M acc) =
  turn_acc M (symmetry_forces m_pi pow sty dEdG nbs acc).
Proof.
  unfold symmetry_forces. generalize (seq 0 (m_numberOfSymmFunc sty)).
  intros l. revert acc. induction l as [|s l IH]; intros acc; simpl; [reflexivity|].
  destruct (Nat.eqb _ 3).
  - rewrite radial_forces_turn. apply IH.
  - rewrite angular_forces_turn. apply IH.
Qed.

Lemma descriptor_moved (sty : Style) (atoms : Atoms) (i : nat) :
  (i < length (atom_x atoms))%nat ->
  Forall (fun jz => (mask NEIGHMASK jz < length (atom_x atoms))%nat)
         (firstneigh atoms !!! i) ->
  descriptor m_pi pow NEIGHMASK sty (moved M a atoms) i =
  descriptor m_pi pow NEIGHMASK sty atoms i.
Proof.
  intros Hi Hjs. unfold descriptor, moved. simpl.
  now rewrite collect_pairs_moved.
Qed.

Lemma compute_anchor_moved (sty : Style) (atoms : Atoms) (sim : Sim) (i : nat) :
  (i < length (atom_x atoms))%nat ->
  Forall (fun jz => (mask NEIGHMASK jz < length (atom_x atoms))%nat)
         (firstneigh atoms !!! i) ->
  compute_anchor m_pi pow NEIGHMASK sty (moved M a atoms) (turned M sim) i =
  option_map (turned M) (compute_anchor m_pi pow NEIGHMASK sty atoms sim i).
Proof.
  intros Hi Hjs. rewrite !compute_anchor_unfold.
  rewrite descriptor_moved by assumption.
  change (firstneigh (moved M a atoms)) with (firstneigh atoms).
  destruct (Nat.eqb _ 0); [reflexivity|]. cbv zeta.
  change (atom_x (moved M a atoms)) with (map (fun p => V3_add (M p) a) (atom_x atoms)).
  rewrite collect_pairs_moved by assumption. cbn [fst].
  change (net (turned M sim)) with (net sim).
  change (eng_vdwl (turned M sim)) with (eng_vdwl sim).
  change (myStep (turned M sim)) with (myStep sim).
  change (mkForces V3_zero V3_zero V3_zero (atom_f (turned M sim)))
    with (mkForces V3_zero V3_zero V3_zero (map M (atom_f sim))).
  replace (mkForces V3_zero V3_zero V3_zero (map M (atom_f sim)))
    with (turn_acc M (mkForces V3_zero V3_zero V3_zero (atom_f sim)))
    by (unfold turn_acc; simpl; now rewrite M_zero).
  rewrite symmetry_forces_turn.
  set (acc := symmetry_forces _ _ _ _ _ _). simpl. unfold turned. simpl.
  now rewrite <- M_add, !add_force_turn.
Qed.

Lemma compute_loop_moved (sty : Style) (atoms : Atoms) (anchors : list nat) :
  Forall (fun i => (i < length (atom_x atoms))%nat /\
                   Forall (fun jz => (mask NEIGHMASK jz < length (atom_x atoms))%nat)
                          (firstneigh atoms !!! i)) anchors ->
  forall sim,
    compute_loop m_pi pow NEIGHMASK sty (moved M a atoms) anchors (turned M sim) =
    option_map (turned M) (compute_loop m_pi pow NEIGHMASK sty atoms anchors sim).
Proof.
  intros Hall. induction Hall as [|i anchors [Hi Hjs] _ IH]; intros sim; simpl;
    [reflexivity|].
  rewrite compute_anchor_moved by assumption.
  destruct (compute_anchor m_pi pow NEIGHMASK sty atoms sim i) as [sim1|]; simpl;
    [apply IH|reflexivity].
Qed.

(** X15. [compute] commutes with rigid motions.  Let [M] be a linear map
    of space that preserves scalar products (a rotation or a reflection)
    and [a] a translation.  With every position [p] replaced by [M p + a],
    and every force [f] stored before the call by [M f], the call ends the
    same way, with the same energy and network state, and every final force
    is [M] applied to the final force of the original run.  Every particle
    index that the call reads must lie inside the position array. *)
Theorem compute_rigid_motion (sty : Style) (atoms : Atoms) (sim : Sim) :
  Forall (fun i => (i < length (atom_x atoms))%nat /\
                   Forall (fun jz => (mask NEIGHMASK jz < length (atom_x atoms))%nat)
                          (firstneigh atoms !!! i)) (ilist atoms) ->
  compute m_pi pow NEIGHMASK sty (moved M a atoms) (turned M sim) =
  option_map (turned M) (compute m_pi pow NEIGHMASK sty atoms sim).
Proof.
  intros Hall. unfold compute.
  change (ilist (moved M a atoms)) with (ilist atoms).
  change (mkSim (atom_f (turned M sim)) 0 (net (turned M sim)) (myStep (turned M sim)))
    with (turned M (mkSim (atom_f sim) 0 (net sim) (myStep sim))).
  rewrite compute_loop_moved by exact Hall.
  destruct (compute_loop m_pi pow NEIGHMASK sty atoms (ilist atoms) _) as [s|];
    reflexivity.
Qed.

End RigidMotion.

Lemma quarter_turn_add (u v : V3) :
  quarter_turn (V3_add u v) = V3_add (quarter_turn u) (quarter_turn v).
Proof. apply V3_eq; simpl; ring. Qed.

Lemma quarter_turn_scale (k : R) (u : V3) :
  quarter_turn (V3_scale k u) = V3_scale k (quarter_turn u).
Proof. apply V3_eq; simpl; ring. Qed.

Lemma quarter_turn_dot (u v : V3) : dot (quarter_turn u) (quarter_turn v) = dot u v.
Proof. unfold dot. simpl. ring. Qed.

Lemma compute_rigid_motion_witness :
  compute PI Rpower 1073741823 (one_radial 2)
          (moved quarter_turn (mkV3 1 2 3) lone_owner) (turned quarter_turn idle_sim) =
  option_map (turned quarter_turn)
             (compute PI Rpower 1073741823 (one_radial 2) lone_owner idle_sim).
Proof.
  apply (compute_rigid_motion PI Rpower 1073741823 quarter_turn (mkV3 1 2 3)
           quarter_turn_add quarter_turn_scale quarter_turn_dot
           (one_radial 2) lone_owner idle_sim).
  simpl. repeat constructor.
Defined.

(** * The network along a path of inputs *)

Section NetworkAlongPaths.

Lemma network_along_path (st : Net) (dims : nat -> nat) (g : R -> row)
      (dg : nat -> R) (t0 : R) :
  well_formed st dims ->
  (forall t, length (g t) = dims 0%nat) ->
  (forall k, (k < dims 0%nat)%nat ->
     derivable_pt_lim (fun t => nth k (g t) 0) t0 (dg k)) ->
  derivable_pt_lim (fun t => fst (network st (g t))) t0
    (big_sum (dims 0%nat)
       (fun k => dg k * nth k (fst (backPropagation (snd (network st (g t0))))) 0)).
Proof.
  intros (Hc & Hdims & Hout & Hshape & Hbias & Hwts) Hlen Hg.
  set (n := m_nLayers st) in *.
  set (ws := m_weights st) in *. set (bs := m_biases st) in *.
  set (wts := m_weightsTransposed st) in *.
  destruct (network_state st (g t0) Hc)
    as (_ & Hn' & _ & Hwt' & _ & Hc' & Hcache & _).
  assert (fst (backPropagation (snd (network st (g t0)))) =
          row_mul (error_of ws wts bs n 0 (g t0)) (wts !!! 0%nat)) as HdEdG.
  { rewrite backPropagation_state by exact Hc'.
    rewrite Hwt', Hn'. fold wts n.
    rewrite (error_row_activation n ws wts bs _ (g t0) n); [reflexivity| |lia].
    intros l Hl. now apply Hcache. }
  rewrite HdEdG.
  apply derivable_pt_lim_ext with (f := fun t => output_from ws bs n 0 (g t)).
  { intros t. destruct (network_state st (g t) Hc) as (-> & _).
    apply (output_from_activation n ws bs (g t) n 0%nat). lia. }
  apply (output_from_derivable n ws wts bs dims Hdims Hout Hshape Hbias Hwts n 0%nat
           g dg t0); [lia|exact Hlen|exact Hg].
Qed.

(** X16. The row of [backPropagation] is the total derivative of
    [network]: along any path of input rows whose entries are
    differentiable, the output of [network] is differentiable and its
    derivative is the sum over the entries of the derivative of the entry
    times the matching entry of the row returned by [backPropagation]. *)
Theorem network_total_derivative (st : Net) (dims : nat -> nat) (g : R -> row)
        (dg : nat -> R) (t0 : R) :
  well_formed st dims ->
  (forall t, length (g t) = dims 0%nat) ->
  (forall k, (k < dims 0%nat)%nat ->
     derivable_pt_lim (fun t => nth k (g t) 0) t0 (dg k)) ->
  derivable_pt_lim (fun t => fst (network st (g t))) t0
    (big_sum (dims 0%nat)
       (fun k => dg k * nth k (fst (backPropagation (snd (network st (g t0))))) 0)).
Proof. intros Hwf Hlen Hg. now apply network_along_path. Qed.

Lemma big_sum_Rabs (m : nat) (f g : nat -> R) :
  (forall k, (k < m)%nat -> Rabs (f k) <= g k) ->
  Rabs (big_sum m f) <= big_sum m g.
Proof.
  induction m as [|m IH]; intros H; simpl.
  - rewrite Rabs_R0. lra.
  - eapply Rle_trans; [apply Rabs_triang|].
    apply Rplus_le_compat; [apply IH; intros; apply H; lia|apply H; lia].
Qed.

(** X17. With at least one hidden layer the output of [network] is
    bounded whatever the input: it differs from the output bias by at most
    the sum of the absolute values of the output weights, because every
    hidden activation lies between 0 and 1. *)
Theorem network_is_bounded (st : Net) (dims : nat -> nat) (x : row) :
  well_formed st dims -> (1 <= m_nLayers st)%nat ->
  let n := m_nLayers st in
  Rabs (fst (network st x) - nth 0 (m_biases st !!! n) 0) <=
  big_sum (dims n) (fun k => Rabs (at2 (m_weights st !!! n) k 0)).
Proof.
  intros (Hc & Hdims & Hout & Hshape & Hbias & Hwts) Hn n.
  destruct (network_state st x Hc) as (-> & _). subst n.
  set (n := m_nLayers st) in *.
  unfold network_spec, output_spec, row_add.
  assert (n_cols (m_weights st !!! n) = 1%nat) as Hcols.
  { rewrite <- Hout. eapply shape_n_cols; [apply Hshape; lia|apply Hdims; lia]. }
  rewrite nth_zip_with
    by (rewrite ?length_row_mul, ?Hcols, ?Hbias, ?Hout by lia; lia).
  rewrite nth_row_mul by (rewrite Hcols; lia).
  destruct n as [|n'] eqn:En; [lia|]. simpl activation_spec.
  set (pre := row_add _ _).
  assert (length pre = dims (S n')) as Hpre.
  { unfold pre, row_add. rewrite length_zip_with, length_row_mul.
    assert (n_cols (m_weights st !!! n') = dims (S n')) as ->.
    { replace (S n') with (n' + 1)%nat by lia.
      eapply shape_n_cols; [apply Hshape; lia|apply Hdims; lia]. }
    rewrite Hbias by lia. replace (n' + 1)%nat with (S n') by lia. lia. }
  unfold sigmoid at 1. rewrite length_map, Hpre.
  match goal with |- Rabs (?s + ?b - ?b) <= _ => replace (s + b - b) with s by ring end.
  apply big_sum_Rabs. intros k Hk.
  unfold sigmoid. rewrite nth_map_in by lia.
  pose proof (sigmoid1_range (nth k pre 0)) as Hs.
  rewrite Rabs_mult, (Rabs_pos_eq (sigmoid1 _)) by lra.
  pose proof (Rabs_pos (at2 (m_weights st !!! S n') k 0)). nra.
Qed.

End NetworkAlongPaths.

Lemma network_total_derivative_witness :
  derivable_pt_lim (fun t => fst (network tiny_net [t * t])) 1
    (big_sum (tiny_dims 0)
       (fun k => 2 * nth k (fst (backPropagation (snd (network tiny_net [1 * 1])))) 0)).
Proof.
  apply (network_total_derivative tiny_net tiny_dims (fun t => [t * t])
           (fun _ => 2) 1).
  - exact tiny_net_well_formed.
  - reflexivity.
  - intros [|k] Hk; [|unfold tiny_dims in Hk; simpl in Hk; lia]. simpl.
    apply (dl_eq _ _ (1 * 1 + 1 * 1)); [|ring].
    apply dl_mult; apply dl_id.
Defined.

Lemma network_is_bounded_witness :
  let n := m_nLayers tiny_net in
  Rabs (fst (network tiny_net [0]) - nth 0 (m_biases tiny_net !!! n) 0) <=
  big_sum (tiny_dims n) (fun k => Rabs (at2 (m_weights tiny_net !!! n) k 0)).
Proof.
  apply (network_is_bounded tiny_net tiny_dims [0]).
  - exact tiny_net_well_formed.
  - simpl. lia.
Defined.

(** * More of the loader *)

Section LoaderMore.

Variable unset : R.

Lemma parse_row_some (N : nat) (tokens : list R) (r : row) :
  PairNN.parse_row unset N tokens = Some r ->
  (length tokens <= N)%nat /\ length r = N /\ firstn (length tokens) r = tokens.
Proof.
  unfold PairNN.parse_row. destruct (Nat.leb_spec (length tokens) N) as [Hle|Hgt];
    [|discriminate].
  intros [= <-]. split; [exact Hle|]. split.
  - rewrite length_app, repeat_length. lia.
  - rewrite firstn_app, Nat.sub_diag, firstn_all. simpl. apply app_nil_r.
Qed.

Lemma parse_rows_some (N : nat) (lines : list (list R)) :
  forall rs,
    PairNN.parse_rows unset N lines = Some rs ->
    Forall (fun l => (length l <= N)%nat) lines /\
    length rs = length lines /\ Forall (fun r => length r = N) rs.
Proof.
  induction lines as [|l lines IH]; intros rs; simpl.
  - intros [= <-]. repeat constructor.
  - destruct (PairNN.parse_row unset N l) as [r|] eqn:Hr; [|discriminate].
    destruct (PairNN.parse_rows unset N lines) as [rs'|]; [|discriminate].
    intros [= <-]. destruct (IH rs' eq_refl) as (H1 & H2 & H3).
    destruct (parse_row_some N l r Hr) as (Hl & Hlen & _).
    split; [constructor; assumption|]. split; [simpl; congruence|].
    constructor; assumption.
Qed.

Lemma parse_rows_total (N : nat) (lines : list (list R)) :
  Forall (fun l => (length l <= N)%nat) lines ->
  exists rs, PairNN.parse_rows unset N lines = Some rs.
Proof.
  induction 1 as [|l lines Hl _ [rs IH]]; simpl; [eexists; reflexivity|].
  unfold PairNN.parse_row. destruct (Nat.leb_spec (length l) N); [|lia].
  rewrite IH. eexists; reflexivity.
Qed.

Lemma rows_from_some (wt : list row) (first count : nat) (W : mat) :
  PairNN.rows_from wt first count = Some W <->
  (first + count <= length wt)%nat /\ W = firstn count (skipn first wt).
Proof.
  unfold PairNN.rows_from.
  destruct (Nat.leb_spec (first + count) (length wt)); split.
  - intros [= <-]. split; [assumption|reflexivity].
  - intros [_ ->]. reflexivity.
  - discriminate.
  - intros [Hle _]. lia.
Qed.

Lemma hidden_blocks_some (wt : list row) (N : nat) (blocks : nat) :
  forall first Ws,
    PairNN.hidden_blocks wt N first blocks = Some Ws ->
    (blocks = 0%nat \/ (first + blocks * Nat.max N 1 <= length wt)%nat) /\
    length Ws = blocks /\
    forall b, (b < blocks)%nat ->
      Ws !!! b = firstn (Nat.max N 1) (skipn (first + b * Nat.max N 1) wt).
Proof.
  induction blocks as [|blocks IH]; intros first Ws; simpl.
  - intros [= <-]. split; [now left|]. split; [reflexivity|]. intros b Hb. lia.
  - destruct (PairNN.rows_from wt first (Nat.max N 1)) as [W|] eqn:HW; [|discriminate].
    destruct (PairNN.hidden_blocks wt N (first + Nat.max N 1) blocks) as [Ws'|] eqn:HWs;
      [|discriminate].
    intros [= <-]. apply rows_from_some in HW. destruct HW as [Hle ->].
    destruct (IH _ _ HWs) as (Hcase & Hlen & Hnth).
    split; [right; destruct Hcase as [->|Hc]; lia|].
    split; [simpl; congruence|].
    intros [|b] Hb; simpl.
    + now rewrite Nat.add_0_r.
    + rewrite Hnth by lia. f_equal. f_equal. lia.
Qed.

Lemma hidden_blocks_total (wt : list row) (N : nat) (blocks : nat) :
  forall first,
    (first + blocks * Nat.max N 1 <= length wt)%nat ->
    exists Ws, PairNN.hidden_blocks wt N first blocks = Some Ws.
Proof.
  induction blocks as [|blocks IH]; intros first Hle; simpl; [eexists; reflexivity|].
  unfold PairNN.rows_from.
  destruct (Nat.leb_spec (first + Nat.max N 1) (length wt)); [|lia].
  destruct (IH (first + Nat.max N 1)%nat) as [Ws ->]; [lia|].
  eexists; reflexivity.
Qed.

Lemma shed_cols_some (r : row) (first last : nat) :
  (exists r', PairNN.shed_cols r first last = Some r') <->
  (first <= last < length r)%nat.
Proof.
  unfold PairNN.shed_cols.
  destruct (Nat.leb_spec first last), (Nat.ltb_spec last (length r)); simpl; split;
    try (intros [r' [=]]); try lia; intros _; eexists; reflexivity.
Qed.

(** The bias row that [shed_cols] is called on: an earlier row when there
    are more than [m_nLayers] of them, a row of this file otherwise. *)
Lemma output_bias_width (old nb : list row) (N L : nat) :
  Forall (fun r => length r = N) nb ->
  (L < length old + length nb)%nat ->
  (N <= length ((old ++ nb) !!! L))%nat <->
  ((L < length old)%nat -> (N <= length (old !!! L))%nat).
Proof.
  intros Hnb HL. destruct (Nat.lt_ge_cases L (length old)) as [Hold|Hnew].
  - rewrite lookup_total_app_l by exact Hold. split; auto.
  - rewrite lookup_total_app_r by exact Hnew.
    assert (length (nb !!! (L - length old)%nat) = N) as ->.
    { rewrite Forall_forall in Hnb. apply Hnb, list_elem_of_lookup_total_2. lia. }
    split; [lia|]. intros _. lia.
Qed.

(** X18. When [read_file] gets to its last line.  For a graph file that
    opens, the call ends normally exactly when no weight or bias line has
    more than [m_nNodes] numbers, the weight lines are at least
    [max(inputs,1) + (m_nLayers-1) max(m_nNodes,1) + max(outputs,1)],
    the bias rows held after the call (those already in [m_biases] and one
    per bias line: the loader appends) number more than [m_nLayers],
    [m_nNodes >= 2], and the row [m_biases[m_nLayers]], when it is an
    earlier one, has at least [m_nNodes] columns for [shed_cols]. *)
Theorem read_file_completes (g : PairNN.GraphFile) (ld : PairNN.Loader) :
  let L := PairNN.h_nLayers g in
  let N := PairNN.h_nNodes g in
  let rows := (Nat.max (PairNN.h_numberOfInputs g) 1 + (L - 1) * Nat.max N 1
               + Nat.max (PairNN.h_numberOfOutputs g) 1)%nat in
  (exists log ld', PairNN.read_file unset (Some g) ld = PairNN.Loaded log ld') <->
  Forall (fun l => (length l <= N)%nat) (PairNN.weight_lines g) /\
  Forall (fun l => (length l <= N)%nat) (PairNN.bias_lines g) /\
  (rows <= length (PairNN.weight_lines g))%nat /\
  (L < length (m_biases (PairNN.nn ld)) + length (PairNN.bias_lines g))%nat /\
  (2 <= N)%nat /\
  ((L < length (m_biases (PairNN.nn ld)))%nat ->
   (N <= length (m_biases (PairNN.nn ld) !!! L))%nat).
Proof.
  intros L N rows. unfold PairNN.read_file. cbv zeta. fold L N. split.
  - intros (log & ld' & H).
    destruct (PairNN.parse_rows unset N (PairNN.weight_lines g)) as [wt|] eqn:Hwt;
      [|discriminate].
    destruct (PairNN.parse_rows unset N (PairNN.bias_lines g)) as [nb|] eqn:Hnb;
      [|discriminate].
    destruct (parse_rows_some _ _ _ Hwt) as (Fw & Lw & _).
    destruct (parse_rows_some _ _ _ Hnb) as (Fb & Lb & Rb).
    destruct (PairNN.rows_from wt 0 _) as [W0|] eqn:HW0; [|discriminate].
    destruct (PairNN.hidden_blocks wt N _ (L - 1)) as [Ws|] eqn:HWs; [|discriminate].
    destruct (PairNN.rows_from wt (_ + _) _) as [Wo|] eqn:HWo; [|discriminate].
    apply rows_from_some in HWo. destruct HWo as [Hle _].
    destruct (Nat.ltb_spec L (length (m_biases (PairNN.nn ld) ++ nb))) as [Hb|Hb];
      [|discriminate].
    destruct (Nat.leb_spec 1 N) as [HN|HN]; [|discriminate].
    cbn [andb] in H.
    destruct (PairNN.shed_cols _ 1 (N - 1)) as [ob|] eqn:Hshed; [|discriminate].
    assert (1 <= N - 1 < length ((m_biases (PairNN.nn ld) ++ nb) !!! L))%nat as Hcols.
    { apply shed_cols_some. eexists; exact Hshed. }
    rewrite length_app in Hb. unfold rows.
    do 5 (split; [first [assumption | lia]|]).
    apply (output_bias_width _ nb N L Rb); lia.
  - intros (Fw & Fb & Hrows & Hb & HN & Hold). unfold rows in Hrows.
    destruct (parse_rows_total N _ Fw) as [wt Hwt].
    destruct (parse_rows_total N _ Fb) as [nb Hnb].
    rewrite Hwt, Hnb.
    destruct (parse_rows_some _ _ _ Hwt) as (_ & Lw & _).
    destruct (parse_rows_some _ _ _ Hnb) as (_ & Lb & Rb).
    unfold PairNN.rows_from at 1.
    destruct (Nat.leb_spec (0 + Nat.max (PairNN.h_numberOfInputs g) 1) (length wt));
      [|lia].
    destruct (hidden_blocks_total wt N (L - 1) (Nat.max (PairNN.h_numberOfInputs g) 1))
      as [Ws ->]; [lia|].
    unfold PairNN.rows_from.
    destruct (Nat.leb_spec (Nat.max (PairNN.h_numberOfInputs g) 1
                            + (L - 1) * Nat.max N 1
                            + Nat.max (PairNN.h_numberOfOutputs g) 1) (length wt));
      [|lia].
    destruct (Nat.ltb_spec L (length (m_biases (PairNN.nn ld) ++ nb)));
      [|rewrite length_app in *; lia].
    destruct (Nat.leb_spec 1 N); [|lia]. cbn [andb].
    destruct (proj2 (shed_cols_some ((m_biases (PairNN.nn ld) ++ nb) !!! L) 1 (N - 1)))
      as [ob ->].
    { assert (N <= length ((m_biases (PairNN.nn ld) ++ nb) !!! L))%nat.
      { apply (output_bias_width _ nb N L Rb); [lia|exact Hold]. }
      lia. }
    eexists; eexists; reflexivity.
Qed.

Lemma fold_insert_blocks (Ws : list mat) :
  forall (first : nat) (w0 : list mat),
    let w := fold_left (fun ws '(i, W) => <[(i + 1)%nat := W]> ws)
                       (zip (seq first (length Ws)) Ws) w0 in
    length w = length w0 /\
    forall k, (k < length w0)%nat ->
      ((first + 1 <= k < first + 1 + length Ws)%nat ->
       w !!! k = Ws !!! (k - first - 1)%nat) /\
      ((k < first + 1 \/ first + 1 + length Ws <= k)%nat -> w !!! k = w0 !!! k).
Proof.
  induction Ws as [|W Ws IH]; intros first w0; simpl.
  - split; [reflexivity|]. intros k Hk. split; [lia|reflexivity].
  - destruct (IH (S first) (<[(first + 1)%nat := W]> w0)) as [Hlen Hnth].
    rewrite length_insert in Hlen, Hnth. split; [exact Hlen|].
    intros k Hk. destruct (Hnth k Hk) as [Hin Hout]. split.
    + intros Hr. destruct (Nat.eq_dec k (first + 1)%nat) as [->|Hne].
      * rewrite Hout by lia. rewrite list_lookup_total_insert_eq by lia.
        now replace (first + 1 - first - 1)%nat with 0%nat by lia.
      * rewrite Hin by lia.
        now replace (k - first - 1)%nat with (S (k - S first - 1)) by lia.
    + intros Hr. rewrite Hout by lia.
      apply list_lookup_total_insert_ne. lia.
Qed.

Lemma length_resize {A : Type} (d : A) (v : list A) (n : nat) :
  length (PairNN.resize d v n) = n.
Proof.
  unfold PairNN.resize. rewrite length_app, length_take, repeat_length. lia.
Qed.

Lemma shape_rows (wt : list row) (N first count : nat) :
  Forall (fun r => length r = N) wt -> (first + count <= length wt)%nat ->
  shape (firstn count (skipn first wt)) count N.
Proof.
  intros Hall Hle. split.
  - rewrite length_take, length_drop. lia.
  - apply Forall_take, Forall_drop, Hall.
Qed.

Lemma shape_reshape (A : mat) (r c : nat) : shape (PairNN.reshape A r c) r c.
Proof.
  unfold PairNN.reshape, shape. cbv zeta. rewrite length_map, length_seq.
  split; [reflexivity|]. apply Forall_map, Forall_forall. intros i _. simpl.
  now rewrite length_map, length_seq.
Qed.

Lemma lookup_total_transposes (ws : list mat) (i : nat) :
  (i < length ws)%nat -> map transpose ws !!! i = transpose (ws !!! i).
Proof.
  revert i. induction ws as [|W ws IH]; intros [|i] Hi; simpl in *; try lia;
    [reflexivity|]. apply IH. lia.
Qed.

(** X19. What [read_file] loads is a network on which [network] and
    [backPropagation] are well defined.  On a class without earlier
    biases, a file with at least one hidden layer and one output that the
    loader reads to its end leaves [m_nLayers + 1] weight matrices whose
    shapes chain (inputs x nodes, nodes x nodes, ..., nodes x 1), a bias
    row of matching width for each, the transposes, and caches of
    [m_nLayers + 2] slots. *)
Theorem read_file_well_formed (g : PairNN.GraphFile) (ld ld' : PairNN.Loader)
        (log : list PairNN.Message) :
  m_biases (PairNN.nn ld) = [] ->
  (1 <= PairNN.h_nLayers g)%nat ->
  PairNN.h_numberOfOutputs g = 1%nat ->
  PairNN.read_file unset (Some g) ld = PairNN.Loaded log ld' ->
  m_nLayers (PairNN.nn ld') = PairNN.h_nLayers g /\
  well_formed (PairNN.nn ld') (file_dims g).
Proof.
  intros Hold HL HO. unfold PairNN.read_file. cbv zeta.
  set (L := PairNN.h_nLayers g) in *. set (N := PairNN.h_nNodes g) in *.
  set (D := Nat.max (PairNN.h_numberOfInputs g) 1).
  rewrite Hold, HO. simpl app.
  destruct (PairNN.parse_rows unset N (PairNN.weight_lines g)) as [wt|] eqn:Hwt;
    [|discriminate].
  destruct (PairNN.parse_rows unset N (PairNN.bias_lines g)) as [nb|] eqn:Hnb;
    [|discriminate].
  destruct (parse_rows_some _ _ _ Hwt) as (_ & _ & Rw).
  destruct (parse_rows_some _ _ _ Hnb) as (_ & _ & Rb).
  destruct (PairNN.rows_from wt 0 D) as [W0|] eqn:HW0; [|discriminate].
  destruct (PairNN.hidden_blocks wt N D (L - 1)) as [Ws|] eqn:HWs; [|discriminate].
  destruct (PairNN.rows_from wt (D + (L - 1) * Nat.max N 1) (Nat.max 1 1))
    as [Wo|] eqn:HWo; [|discriminate].
  apply rows_from_some in HW0. destruct HW0 as [H0le ->].
  apply rows_from_some in HWo. destruct HWo as [Hole ->].
  destruct (hidden_blocks_some _ _ _ _ _ HWs) as (Hhle & HlenWs & HWsnth).
  destruct (Nat.ltb_spec L (length nb)) as [Hb|Hb]; [|discriminate].
  destruct (Nat.leb_spec 1 N) as [HN1|HN1]; [|discriminate]. cbn [andb].
  destruct (PairNN.shed_cols (nb !!! L) 1 (N - 1)) as [ob|] eqn:Hshed; [|discriminate].
  assert (length (nb !!! L) = N) as HrowL.
  { rewrite Forall_forall in Rb. apply Rb, list_elem_of_lookup_total_2. lia. }
  assert ((2 <= N)%nat /\ length ob = 1%nat) as [HN Hob].
  { unfold PairNN.shed_cols in Hshed. rewrite HrowL in Hshed.
    destruct (Nat.leb_spec 1 (N - 1)), (Nat.ltb_spec (N - 1) N);
      simpl in Hshed; try discriminate.
    injection Hshed as <-. split; [lia|].
    rewrite length_app, length_take, length_drop. lia. }
  intros [= _ <-]. cbn [PairNN.nn m_nLayers].
  split; [reflexivity|].
  assert (Nat.max N 1 = N) as HmaxN by lia.
  set (w1 := <[0%nat := firstn D (skipn 0 wt)]> (PairNN.resize [] (m_weights (PairNN.nn ld)) (L + 1))).
  assert (length w1 = (L + 1)%nat) as Hw1.
  { unfold w1. now rewrite length_insert, length_resize. }
  destruct (fold_insert_blocks Ws 0%nat w1) as [Hlen2 Hnth2].
  set (w2 := fold_left _ _ w1) in *.
  assert (forall i, (i <= L)%nat ->
            shape (<[L := PairNN.reshape (firstn (Nat.max 1 1)
                                            (skipn (D + (L - 1) * Nat.max N 1) wt)) N 1]> w2
                   !!! i) (file_dims g i) (file_dims g (i + 1))) as Hshape.
  { intros i Hi. unfold file_dims. fold L N D.
    replace (i + 1 =? 0)%nat with false by (symmetry; apply Nat.eqb_neq; lia).
    destruct (Nat.eq_dec i L) as [->|HiL].
    - rewrite list_lookup_total_insert_eq by lia.
      replace (L =? 0)%nat with false by (symmetry; apply Nat.eqb_neq; lia).
      rewrite Nat.leb_refl.
      replace (L + 1 <=? L)%nat with false by (symmetry; apply Nat.leb_gt; lia).
      apply shape_reshape.
    - rewrite list_lookup_total_insert_ne by lia.
      replace (i + 1 <=? L)%nat with true by (symmetry; apply Nat.leb_le; lia).
      destruct (Hnth2 i ltac:(lia)) as [Hin Hout].
      destruct i as [|i].
      + rewrite Hout by lia. unfold w1.
        rewrite list_lookup_total_insert_eq by (rewrite length_resize; lia).
        simpl Nat.eqb. cbv iota. apply shape_rows; [exact Rw|exact H0le].
      + rewrite Hin by lia. rewrite HWsnth by lia.
        simpl Nat.eqb. cbv iota.
        replace (S i <=? L)%nat with true by (symmetry; apply Nat.leb_le; lia).
        rewrite HmaxN. apply shape_rows; [exact Rw|].
        destruct Hhle as [H0|Hle]; [lia|]. rewrite HmaxN in Hle. nia. }
  unfold well_formed, caches_sized. cbn [m_nLayers m_weights m_weightsTransposed
    m_biases m_preActivations m_activations m_derivatives].
  rewrite !length_resize.
  split; [repeat split|].
  split.
  { intros i Hi. unfold file_dims. fold L N D.
    destruct (Nat.eqb i 0); [unfold D; lia|]. destruct (Nat.leb i L); lia. }
  split.
  { unfold file_dims. fold L N D.
    replace (L + 1 =? 0)%nat with false by (symmetry; apply Nat.eqb_neq; lia).
    now replace (L + 1 <=? L)%nat with false by (symmetry; apply Nat.leb_gt; lia). }
  split; [exact Hshape|].
  split.
  { intros i Hi. unfold file_dims. fold L N D.
    replace (i + 1 =? 0)%nat with false by (symmetry; apply Nat.eqb_neq; lia).
    destruct (Nat.eq_dec i L) as [->|HiL].
    - rewrite list_lookup_total_insert_eq by lia.
      replace (L + 1 <=? L)%nat with false by (symmetry; apply Nat.leb_gt; lia).
      exact Hob.
    - rewrite list_lookup_total_insert_ne by lia.
      replace (i + 1 <=? L)%nat with true by (symmetry; apply Nat.leb_le; lia).
      rewrite Forall_forall in Rb. apply Rb, list_elem_of_lookup_total_2. lia. }
  intros i Hi. apply lookup_total_transposes.
  rewrite length_insert, Hlen2, Hw1. lia.
Qed.

End LoaderMore.

(** Reading [tiny_graph] into a blank class gives [tiny_net]. *)
Lemma read_tiny_graph (unset : R) :
  PairNN.read_file unset (Some tiny_graph) blank_loader =
  PairNN.Loaded
    [PairNN.Field "Layers: " 1; PairNN.Field "Nodes: " 2;
     PairNN.Name "Activation: " "sigmoid"; PairNN.Field "Neighbours: " 1;
     PairNN.Field "Outputs: " 1]
    (PairNN.mkLoader tiny_net 2 1 1).
Proof. reflexivity. Qed.

Lemma read_file_well_formed_witness :
  m_nLayers (PairNN.nn (PairNN.mkLoader tiny_net 2 1 1)) = PairNN.h_nLayers tiny_graph /\
  well_formed (PairNN.nn (PairNN.mkLoader tiny_net 2 1 1)) (file_dims tiny_graph).
Proof.
  apply (read_file_well_formed 0 tiny_graph blank_loader (PairNN.mkLoader tiny_net 2 1 1)
           [PairNN.Field "Layers: " 1; PairNN.Field "Nodes: " 2;
            PairNN.Name "Activation: " "sigmoid"; PairNN.Field "Neighbours: " 1;
            PairNN.Field "Outputs: " 1]).
  - reflexivity.
  - simpl. lia.
  - reflexivity.
  - apply read_tiny_graph.
Defined.

(** * More of the pair-only variant *)

Section PairMore.

Variable NEIGHMASK : Z.
Variable cutoff : R.

Lemma total_sub_force (f : list V3) (p : nat) (v : V3) :
  (p < length f)%nat ->
  total (PairNN.sub_force f p v) = V3_sub (total f) v /\
  length (PairNN.sub_force f p v) = length f.
Proof.
  intros Hp. change (PairNN.sub_force f p v) with (add_force f p (V3_opp v)).
  rewrite total_add_force by exact Hp. split; [reflexivity|apply length_add_force].
Qed.

Lemma pair_term_total (atoms : PairNN.Atoms) (i : nat) (ftmp : V3) (sim : PairNN.Sim)
      (jz : Z) :
  (mask NEIGHMASK jz < length (PairNN.atom_f sim))%nat ->
  let r := PairNN.pair_term NEIGHMASK cutoff atoms i (ftmp, sim) jz in
  V3_add (total (PairNN.atom_f (snd r))) (fst r) =
  V3_add (total (PairNN.atom_f sim)) ftmp /\
  length (PairNN.atom_f (snd r)) = length (PairNN.atom_f sim).
Proof.
  intros Hj. unfold PairNN.pair_term. cbv zeta.
  destruct (PairNN.skips _ _ _ _); [split; reflexivity|].
  destruct (Rge_dec _ _); [split; reflexivity|].
  destruct (PairNN.network _ _) as [e nn1].
  destruct (PairNN.backPropagation nn1) as [dEdr nn2]. simpl.
  destruct (total_sub_force (PairNN.atom_f sim) (mask NEIGHMASK jz)
              (V3_scale (- dEdr / sqrt (rsq (V3_sub (PairNN.atom_x atoms !!! i)
                                               (PairNN.atom_x atoms !!! mask NEIGHMASK jz))))
                        (V3_sub (PairNN.atom_x atoms !!! i)
                                (PairNN.atom_x atoms !!! mask NEIGHMASK jz))) Hj)
    as [-> ->].
  split; [apply V3_eq; simpl; ring|reflexivity].
Qed.

Lemma pair_anchor_total (atoms : PairNN.Atoms) (sim : PairNN.Sim) (i : nat) :
  (i < length (PairNN.atom_f sim))%nat ->
  Forall (fun jz => (mask NEIGHMASK jz < length (PairNN.atom_f sim))%nat)
         (PairNN.firstneigh atoms !!! i) ->
  total (PairNN.atom_f (PairNN.compute_anchor NEIGHMASK cutoff atoms sim i)) =
  total (PairNN.atom_f sim) /\
  length (PairNN.atom_f (PairNN.compute_anchor NEIGHMASK cutoff atoms sim i)) =
  length (PairNN.atom_f sim).
Proof.
  intros Hi Hjs. unfold PairNN.compute_anchor.
  assert (forall js acc,
            Forall (fun jz => (mask NEIGHMASK jz < length (PairNN.atom_f (snd acc)))%nat) js ->
            let r := fold_left (PairNN.pair_term NEIGHMASK cutoff atoms i) js acc in
            V3_add (total (PairNN.atom_f (snd r))) (fst r) =
            V3_add (total (PairNN.atom_f (snd acc))) (fst acc) /\
            length (PairNN.atom_f (snd r)) = length (PairNN.atom_f (snd acc))) as Hloop.
  { induction js as [|jz js IH]; intros [ftmp s] Hall;
      [simpl; split; reflexivity|]. cbn [fold_left fst snd].
    inversion Hall as [|? ? Hj Hrest]; subst. simpl in Hj, Hrest.
    destruct (pair_term_total atoms i ftmp s jz Hj) as [Ht Hl].
    destruct (PairNN.pair_term NEIGHMASK cutoff atoms i (ftmp, s) jz) as [ftmp1 s1] eqn:E.
    simpl in Ht, Hl. specialize (IH (ftmp1, s1)). simpl in IH.
    rewrite Hl in IH. destruct (IH Hrest) as [Ht' Hl']. split; congruence. }
  specialize (Hloop (PairNN.firstneigh atoms !!! i) (V3_zero, sim) Hjs).
  destruct (fold_left _ _ _) as [ftmp s]. simpl in *. destruct Hloop as [Ht Hl].
  rewrite total_add_force by lia. rewrite length_add_force.
  split; [|exact Hl]. rewrite Ht. apply V3_eq; simpl; ring.
Qed.

(** X20. [PairNN::compute] leaves the sum of all forces unchanged and
    keeps the size of the force array: what each pair adds to the running
    sum of the anchor it subtracts from [f[j]].  Every index used must lie
    inside the array. *)
Theorem pair_compute_conserves_total_force (atoms : PairNN.Atoms) (sim : PairNN.Sim) :
  Forall (fun i => (i < length (PairNN.atom_f sim))%nat /\
                   Forall (fun jz => (mask NEIGHMASK jz < length (PairNN.atom_f sim))%nat)
                          (PairNN.firstneigh atoms !!! i)) (PairNN.ilist atoms) ->
  total (PairNN.atom_f (PairNN.compute NEIGHMASK cutoff atoms sim)) =
  total (PairNN.atom_f sim) /\
  length (PairNN.atom_f (PairNN.compute NEIGHMASK cutoff atoms sim)) =
  length (PairNN.atom_f sim).
Proof.
  unfold PairNN.compute. generalize (PairNN.ilist atoms). intros anchors.
  revert sim. induction anchors as [|i anchors IH]; intros sim Hall; simpl;
    [split; reflexivity|].
  inversion Hall as [|? ? [Hi Hjs] Hrest]; subst.
  destruct (pair_anchor_total atoms sim i Hi Hjs) as [Ht Hl].
  specialize (IH (PairNN.compute_anchor NEIGHMASK cutoff atoms sim i)).
  rewrite Hl in IH. destruct (IH Hrest) as [Ht' Hl']. split; congruence.
Qed.

(** X21. The pair force is the negative gradient of the pair energy.  For
    a neighbour that passes both tests, at non-zero distance, with a
    network of one input whose shapes chain: what [pair_term] adds to the
    running sum of the anchor ([fpair*del]) is minus the gradient of
    [network(|del|)] with respect to the displacement [del = x[i] - x[j]]
    (moving it along any direction [u] changes the energy at the rate
    [-(fpair*del) . u]), and [f[j]] receives the opposite. *)
Theorem pair_force_is_gradient (atoms : PairNN.Atoms) (i : nat) (ftmp : V3)
        (sim : PairNN.Sim) (jz : Z) (dims : nat -> nat) (u : V3) :
  let j := mask NEIGHMASK jz in
  let del := V3_sub (PairNN.atom_x atoms !!! i) (PairNN.atom_x atoms !!! j) in
  well_formed (PairNN.net sim) dims -> dims 0%nat = 1%nat ->
  PairNN.processes cutoff atoms i j = true ->
  0 < rsq del ->
  (j < length (PairNN.atom_f sim))%nat ->
  let r := PairNN.pair_term NEIGHMASK cutoff atoms i (ftmp, sim) jz in
  let push := V3_sub (fst r) ftmp in
  derivable_pt_lim
    (fun t => fst (PairNN.network (PairNN.net sim)
                     (sqrt (rsq (V3_add del (V3_scale t u)))))) 0
    (- dot push u) /\
  V3_sub (PairNN.atom_f (snd r) !!! j) (PairNN.atom_f sim !!! j) = V3_opp push.
Proof.
  intros j del Hwf Hd0 Hproc Hpos Hj.
  unfold PairNN.processes in Hproc. apply andb_prop in Hproc.
  destruct Hproc as [Hskip Hnear]. apply negb_true_iff in Hskip.
  assert (~ rsq del >= cutoff * cutoff) as Hin.
  { intros Hge. fold del in Hnear.
    destruct (Rge_dec (rsq del) (cutoff * cutoff)); [discriminate|contradiction]. }
  unfold PairNN.pair_term. cbv zeta. fold j. rewrite Hskip. fold del.
  destruct (Rge_dec (rsq del) (cutoff * cutoff)) as [Hfar|_]; [contradiction|].
  pose proof (network_along_path (PairNN.net sim) dims
                (fun t => [sqrt (rsq (V3_add del (V3_scale t u)))])
                (fun _ => dot del u / sqrt (rsq del)) 0 Hwf) as Hpath.
  rewrite Hd0 in Hpath. cbv beta in Hpath. rewrite path_start in Hpath.
  unfold PairNN.network, PairNN.backPropagation.
  destruct (network (PairNN.net sim) [sqrt (rsq del)]) as [e nn1] eqn:Hnet.
  simpl snd in Hpath.
  destruct (backPropagation nn1) as [d nn2] eqn:Hback.
  simpl fst in Hpath. cbn [fst snd PairNN.atom_f].
  pose proof (sqrt_lt_R0 _ Hpos) as Hr.
  split.
  - eapply dl_eq.
    + apply Hpath; [reflexivity|].
      intros [|k] Hk; [|lia]. simpl. now apply norm_path.
    + simpl. unfold dot. simpl. field. lra.
  - unfold PairNN.sub_force. rewrite list_lookup_total_insert_eq by exact Hj.
    apply V3_eq; simpl; ring.
Qed.

End PairMore.

(** ** Each pair is computed once *)

Section PairOnceRun.

Variable NEIGHMASK : Z.
Variable cutoff : R.













End PairOnceRun.


Lemma pair_compute_conserves_total_force_witness :
  let sim := PairNN.mkSim [V3_zero; V3_zero] tiny_net in
  total (PairNN.atom_f (PairNN.compute 1073741823 2 tagged_pair sim)) =
  total (PairNN.atom_f sim) /\
  length (PairNN.atom_f (PairNN.compute 1073741823 2 tagged_pair sim)) =
  length (PairNN.atom_f sim).
Proof.
  apply (pair_compute_conserves_total_force 1073741823 2 tagged_pair
           (PairNN.mkSim [V3_zero; V3_zero] tiny_net)).
  simpl. repeat constructor.
Defined.

Lemma tagged_pair_processed : PairNN.processes 2 tagged_pair 1 (mask 1073741823 0) = true.
Proof.
  unfold PairNN.processes, PairNN.skips. simpl.
  destruct (Rge_dec _ _) as [H|_]; [|reflexivity].
  unfold rsq in H. simpl in H. lra.
Qed.

Lemma pair_force_is_gradient_witness :
  let sim := PairNN.mkSim [V3_zero; V3_zero] tiny_net in
  let j := mask 1073741823 0 in
  let del := V3_sub (PairNN.atom_x tagged_pair !!! 1%nat) (PairNN.atom_x tagged_pair !!! j) in
  let r := PairNN.pair_term 1073741823 2 tagged_pair 1 (V3_zero, sim) 0 in
  let push := V3_sub (fst r) V3_zero in
  derivable_pt_lim
    (fun t => fst (PairNN.network (PairNN.net sim)
                     (sqrt (rsq (V3_add del (V3_scale t (mkV3 1 0 0))))))) 0
    (- dot push (mkV3 1 0 0)) /\
  V3_sub (PairNN.atom_f (snd r) !!! j) (PairNN.atom_f sim !!! j) = V3_opp push.
Proof.
  apply (pair_force_is_gradient 1073741823 2 tagged_pair 1 V3_zero
           (PairNN.mkSim [V3_zero; V3_zero] tiny_net) 0%Z tiny_dims (mkV3 1 0 0)).
  - exact tiny_net_well_formed.
  - reflexivity.
  - exact tagged_pair_processed.
  - unfold rsq. simpl. lra.
  - change (mask 1073741823 0) with 0%nat. simpl. lia.
Defined.

(** * Forces and the gradient of the energy *)

Section NearSums.

Variable NEIGHMASK : Z.
Variable sty : Style.

(** Two configurations in which the cutoff test of every list entry has
    the same outcome. *)
Lemma near_sum_change (x x' : list V3) (xi xi' : V3) (term term' : Z -> R)
      (js : list Z) :
  Forall (fun jz => (beyond_cutoff NEIGHMASK sty x' xi' jz <->
                     beyond_cutoff NEIGHMASK sty x xi jz) /\
                    term' jz = term jz) js ->
  near_sum NEIGHMASK sty x' xi' term' js = near_sum NEIGHMASK sty x xi term js.
Proof.
  induction 1 as [|jz js [Htest Hterm] _ IH]; simpl; [reflexivity|].
  unfold beyond_cutoff in Htest.
  destruct (Rge_dec (rsq (V3_sub (x' !!! mask NEIGHMASK jz) xi')) _) as [H'|H'],
           (Rge_dec (rsq (V3_sub (x !!! mask NEIGHMASK jz) xi)) _) as [H0|H0];
    try (exfalso; tauto); congruence.
Qed.

Lemma near_pair_sum_change (x x' : list V3) (xi xi' : V3) (term term' : Z -> Z -> R)
      (js : list Z) :
  Forall (fun jz => (beyond_cutoff NEIGHMASK sty x' xi' jz <->
                     beyond_cutoff NEIGHMASK sty x xi jz) /\
                    Forall (fun kz => term' jz kz = term jz kz) js) js ->
  near_pair_sum NEIGHMASK sty x' xi' term' js = near_pair_sum NEIGHMASK sty x xi term js.
Proof.
  intros Hall.
  assert (forall ks, (forall kz, In kz ks -> In kz js) ->
            near_pair_sum NEIGHMASK sty x' xi' term' ks =
            near_pair_sum NEIGHMASK sty x xi term ks) as Hgen.
  { rewrite List.Forall_forall in Hall.
    induction ks as [|jz ks IH]; intros Hsub; simpl; [reflexivity|].
    destruct (Hall jz (Hsub jz (or_introl eq_refl))) as [Htest Hterm].
    rewrite List.Forall_forall in Hterm. unfold beyond_cutoff in Htest.
    rewrite IH by (intros kz Hin; apply Hsub; now right).
    rewrite (near_sum_change x x' xi xi' (term jz) (term' jz) ks).
    - destruct (Rge_dec (rsq (V3_sub (x' !!! mask NEIGHMASK jz) xi')) _) as [H'|H'],
               (Rge_dec (rsq (V3_sub (x !!! mask NEIGHMASK jz) xi)) _) as [H0|H0];
        try (exfalso; tauto); reflexivity.
    - apply List.Forall_forall. intros kz Hin.
      assert (In kz js) as Hkz by (apply Hsub; now right).
      split; [apply (Hall kz Hkz)|apply Hterm, Hkz]. }
  apply Hgen. auto.
Qed.

(** A sum over the neighbours within the cutoff is differentiated term by
    term. *)
Lemma near_sum_derivable (x : list V3) (xi : V3) (term : R -> Z -> R)
      (dterm : Z -> R) (t0 : R) (js : list Z) :
  Forall (fun jz => ~ beyond_cutoff NEIGHMASK sty x xi jz ->
                    derivable_pt_lim (fun t => term t jz) t0 (dterm jz)) js ->
  derivable_pt_lim (fun t => near_sum NEIGHMASK sty x xi (term t) js) t0
                   (near_sum NEIGHMASK sty x xi dterm js).
Proof.
  induction 1 as [|jz js Hjz _ IH]; simpl; [apply dl_const|].
  unfold beyond_cutoff in Hjz.
  destruct (Rge_dec _ _) as [Hfar|Hnear]; [exact IH|].
  apply dl_plus; [apply Hjz, Hnear|exact IH].
Qed.

Lemma near_pair_sum_derivable (x : list V3) (xi : V3) (term : R -> Z -> Z -> R)
      (dterm : Z -> Z -> R) (t0 : R) (js : list Z) :
  ForallOrdPairs
    (fun jz kz => ~ beyond_cutoff NEIGHMASK sty x xi jz ->
                  ~ beyond_cutoff NEIGHMASK sty x xi kz ->
                  derivable_pt_lim (fun t => term t jz kz) t0 (dterm jz kz)) js ->
  derivable_pt_lim (fun t => near_pair_sum NEIGHMASK sty x xi (term t) js) t0
                   (near_pair_sum NEIGHMASK sty x xi dterm js).
Proof.
  induction 1 as [|jz js Hjz _ IH]; simpl; [apply dl_const|].
  destruct (Rge_dec _ _) as [Hfar|Hnear]; [exact IH|].
  apply dl_plus; [|exact IH].
  apply (near_sum_derivable x xi (fun t => term t jz)).
  rewrite List.Forall_forall in Hjz. apply List.Forall_forall.
  intros kz Hin Hk. now apply Hjz.
Qed.

Lemma near_sum_scal (x : list V3) (xi : V3) (c : R) (term : Z -> R) (js : list Z) :
  near_sum NEIGHMASK sty x xi (fun jz => c * term jz) js =
  c * near_sum NEIGHMASK sty x xi term js.
Proof.
  induction js as [|jz js IH]; simpl; [ring|].
  destruct (Rge_dec _ _); rewrite IH; ring.
Qed.

Lemma near_sum_ext_near (x : list V3) (xi : V3) (term term' : Z -> R) (js : list Z) :
  Forall (fun jz => ~ beyond_cutoff NEIGHMASK sty x xi jz -> term' jz = term jz) js ->
  near_sum NEIGHMASK sty x xi term' js = near_sum NEIGHMASK sty x xi term js.
Proof.
  induction 1 as [|jz js Hjz _ IH]; simpl; [reflexivity|].
  unfold beyond_cutoff in Hjz.
  destruct (Rge_dec _ _) as [Hfar|Hnear]; [exact IH|].
  rewrite IH, Hjz by exact Hnear. reflexivity.
Qed.

Lemma near_pair_sum_ext_near (x : list V3) (xi : V3) (term term' : Z -> Z -> R)
      (js : list Z) :
  ForallOrdPairs
    (fun jz kz => ~ beyond_cutoff NEIGHMASK sty x xi jz ->
                  ~ beyond_cutoff NEIGHMASK sty x xi kz ->
                  term' jz kz = term jz kz) js ->
  near_pair_sum NEIGHMASK sty x xi term' js = near_pair_sum NEIGHMASK sty x xi term js.
Proof.
  induction 1 as [|jz js Hjz _ IH]; simpl; [reflexivity|].
  destruct (Rge_dec _ _) as [Hfar|Hnear]; [exact IH|].
  rewrite IH. f_equal.
  apply near_sum_ext_near.
  rewrite List.Forall_forall in Hjz. apply List.Forall_forall.
  intros kz Hin Hk. now apply Hjz.
Qed.

Lemma near_pair_sum_scal (x : list V3) (xi : V3) (c : R) (term : Z -> Z -> R)
      (js : list Z) :
  near_pair_sum NEIGHMASK sty x xi (fun jz kz => c * term jz kz) js =
  c * near_pair_sum NEIGHMASK sty x xi term js.
Proof.
  induction js as [|jz js IH]; simpl; [ring|].
  destruct (Rge_dec _ _); rewrite IH; [reflexivity|].
  rewrite near_sum_scal. ring.
Qed.

End NearSums.

Section Stability.

Lemma rsq_path_near (d u : V3) (eps : R) :
  0 < eps ->
  exists delta, 0 < delta /\
    forall t, Rabs t < delta -> Rabs (rsq (V3_add d (V3_scale t u)) - rsq d) < eps.
Proof.
  intros Heps.
  assert (continuity_pt (fun t => rsq (V3_add d (V3_scale t u))) 0) as Hcont.
  { apply derivable_continuous_pt. eexists. apply rsq_path. }
  destruct (Hcont eps Heps) as (alp & Halp & Hlim).
  exists alp. split; [exact Halp|]. intros t Ht.
  destruct (Req_dec t 0) as [->|Hne].
  - rewrite path_start. unfold Rminus. rewrite Rplus_opp_r, Rabs_R0. exact Heps.
  - specialize (Hlim t). simpl in Hlim. unfold R_dist in Hlim.
    rewrite path_start in Hlim. apply Hlim. split.
    + split; [exact I|]. intros H0. apply Hne. now symmetry.
    + now rewrite Rminus_0_r.
Qed.

Lemma test_stable (d u : V3) (c2 : R) :
  rsq d <> c2 ->
  exists delta, 0 < delta /\
    forall t, Rabs t < delta -> (rsq (V3_add d (V3_scale t u)) >= c2 <-> rsq d >= c2).
Proof.
  intros Hne.
  destruct (rsq_path_near d u (Rabs (rsq d - c2))) as (delta & Hdelta & Hnear).
  { apply Rabs_pos_lt. lra. }
  exists delta. split; [exact Hdelta|]. intros t Ht. specialize (Hnear t Ht).
  revert Hnear. unfold Rabs.
  destruct (Rcase_abs _), (Rcase_abs _); intros; split; intros; lra.
Qed.

Lemma tests_stable (d u : Z -> V3) (c2 : R) (js : list Z) :
  Forall (fun jz => rsq (d jz) <> c2) js ->
  exists delta, 0 < delta /\
    forall t, Rabs t < delta ->
      Forall (fun jz => rsq (V3_add (d jz) (V3_scale t (u jz))) >= c2 <->
                        rsq (d jz) >= c2) js.
Proof.
  induction 1 as [|jz js Hjz _ (delta & Hdelta & IH)].
  - exists 1. split; [lra|]. intros; constructor.
  - destruct (test_stable (d jz) (u jz) c2 Hjz) as (delta1 & Hdelta1 & H1).
    exists (Rmin delta1 delta). split; [now apply Rmin_pos|].
    intros t Ht. constructor.
    + apply H1. eapply Rlt_le_trans; [exact Ht|apply Rmin_l].
    + apply IH. eapply Rlt_le_trans; [exact Ht|apply Rmin_r].
Qed.

Lemma lookup_displaced (w x : list V3) (t : R) (j : nat) :
  length w = length x -> (j < length x)%nat ->
  zip_with (fun p d => V3_add p (V3_scale t d)) x w !!! j =
  V3_add (x !!! j) (V3_scale t (w !!! j)).
Proof.
  revert w j. induction x as [|p x IH]; intros [|d w] [|j] Hlen Hj; simpl in *;
    try lia; [reflexivity|].
  apply IH; lia.
Qed.

Lemma displaced_difference (w x : list V3) (t : R) (i j : nat) :
  length w = length x -> (i < length x)%nat -> (j < length x)%nat ->
  V3_sub (zip_with (fun p d => V3_add p (V3_scale t d)) x w !!! j)
         (zip_with (fun p d => V3_add p (V3_scale t d)) x w !!! i) =
  V3_add (V3_sub (x !!! j) (x !!! i)) (V3_scale t (V3_sub (w !!! j) (w !!! i))).
Proof.
  intros Hlen Hi Hj. rewrite !lookup_displaced by assumption.
  apply V3_eq; simpl; ring.
Qed.

Lemma displaced_start (w : list V3) (atoms : Atoms) :
  length w = length (atom_x atoms) ->
  atom_x (displaced w 0 atoms) = atom_x atoms.
Proof.
  unfold displaced. simpl. generalize (atom_x atoms). intros x. revert w.
  induction x as [|p x IH]; intros [|d w] Hlen; simpl in *; try lia; try reflexivity.
  rewrite path_start. f_equal. apply IH. lia.
Qed.

End Stability.

Section VirtualWork.

Variable m_pi : R.
Variable pow : R -> R -> R.
Variable NEIGHMASK : Z.
Variable w : list V3.
Variable i : nat.

Lemma power_add_force (f : list V3) (p : nat) (v : V3) :
  length w = length f -> (p < length f)%nat ->
  power w (add_force f p v) = power w f + dot v (w !!! p).
Proof.
  unfold power, add_force. revert p. generalize w.
  induction f as [|a f IH]; intros [|b w'] [|p] Hlen Hp; simpl in *; try lia.
  - unfold dot. simpl. ring.
  - change (<[p:=V3_add ((a :: f) !!! S p) v]> f) with (<[p:=V3_add (f !!! p) v]> f).
    rewrite IH by lia. ring.
Qed.

Lemma radial_term_virtual (acc : Forces) (nb : Neighbour) (fpair : R) :
  length w = length (forces acc) -> (tagj nb < length (forces acc))%nat ->
  virtual w i (radial_term acc nb fpair) =
  virtual w i acc + fpair * dot (drij nb) (V3_sub (w !!! tagj nb) (w !!! i)) /\
  length (forces (radial_term acc nb fpair)) = length (forces acc).
Proof.
  intros Hlen Hj. unfold virtual, radial_term. simpl.
  rewrite power_add_force by assumption. rewrite length_add_force.
  split; [|reflexivity]. unfold dot. simpl. ring.
Qed.

Lemma angular_term_virtual (dEdG_s : R) (p : list R) (nb : Neighbour) (acc : Forces)
      (t : Triplet) :
  length w = length (forces acc) ->
  (tagj nb < length (forces acc))%nat -> (tagk t < length (forces acc))%nat ->
  let dG := dG5dR m_pi pow (c0 (drij nb)) (c1 (drij nb)) (c2 (drij nb))
                  (c0 (drik t)) (c1 (drik t)) (c2 (drik t))
                  (Rij nb) (Rik t) (cosTheta t)
                  (p !!! 0%nat) (p !!! 1%nat) (p !!! 2%nat) (p !!! 3%nat) in
  virtual w i (angular_term m_pi pow dEdG_s p nb acc t) =
  virtual w i acc
  + - dEdG_s * (dot (fst dG) (V3_sub (w !!! tagj nb) (w !!! i))
                + dot (snd dG) (V3_sub (w !!! tagk t) (w !!! i))) /\
  length (forces (angular_term m_pi pow dEdG_s p nb acc t)) = length (forces acc).
Proof.
  intros Hlen Hj Hk dG. unfold virtual, angular_term. fold dG.
  destruct dG as [dGj dGk]. simpl.
  rewrite !power_add_force by (rewrite ?length_add_force; assumption).
  rewrite !length_add_force. split; [|reflexivity]. unfold dot. simpl. ring.
Qed.

(** A loop whose every round adds a known amount to the virtual work. *)
Lemma fold_left_virtual {A : Type} (step : Forces -> A -> Forces) (P : A -> Prop)
      (g : A -> R) (l : list A) :
  (forall acc a, P a -> length w = length (forces acc) ->
     virtual w i (step acc a) = virtual w i acc + g a /\
     length (forces (step acc a)) = length (forces acc)) ->
  Forall P l ->
  forall acc, length w = length (forces acc) ->
    virtual w i (fold_left step l acc) = virtual w i acc + accu (map g l) /\
    length (forces (fold_left step l acc)) = length (forces acc).
Proof.
  intros Hstep HP. induction HP as [|a l Ha _ IH]; intros acc Hlen; simpl.
  - split; [ring|reflexivity].
  - destruct (Hstep acc a Ha Hlen) as [Hv Hl].
    destruct (IH (step acc a)) as [Hv' Hl']; [congruence|].
    rewrite Hv', Hv, Hl', Hl. split; [ring|reflexivity].
Qed.

Lemma radial_pairs (dEdG_s : R) (eta Rc Rs : R) (nbs : list Neighbour) :
  zip nbs (zip_with (fun dg r => - dEdG_s * dg / r)
                    (dG2dR m_pi (map Rij nbs) eta Rc Rs) (map Rij nbs)) =
  map (fun nb => (nb, - dEdG_s * nth 0 (dG2dR m_pi [Rij nb] eta Rc Rs) 0 / Rij nb)) nbs.
Proof.
  induction nbs as [|nb nbs IH]; [reflexivity|].
  unfold dG2dR, schur, row_add, Fc_mat, dFcdR_mat in *. simpl. f_equal. exact IH.
Qed.

Lemma radial_forces_virtual (dEdG_s : R) (p : list R) (nbs : list Neighbour)
      (acc : Forces) :
  tags_in_range (length w) nbs -> length w = length (forces acc) ->
  virtual w i (radial_forces m_pi dEdG_s p nbs acc) =
  virtual w i acc
  + accu (map (fun nb =>
                 - dEdG_s
                 * nth 0 (dG2dR m_pi [Rij nb] (p !!! 0%nat) (p !!! 1%nat) (p !!! 2%nat)) 0
                 / Rij nb
                 * dot (drij nb) (V3_sub (w !!! tagj nb) (w !!! i))) nbs) /\
  length (forces (radial_forces m_pi dEdG_s p nbs acc)) = length (forces acc).
Proof.
  intros Hr Hlen. unfold radial_forces. cbv zeta. rewrite radial_pairs.
  assert (forall (fp : Neighbour -> R) l a,
            fold_left (fun acc0 '(nb, fpair) => radial_term acc0 nb fpair)
                      (map (fun nb => (nb, fp nb)) l) a =
            fold_left (fun acc0 nb => radial_term acc0 nb (fp nb)) l a) as Hfold.
  { intros fp l. induction l as [|nb l IH]; intros a; simpl; [reflexivity|apply IH]. }
  rewrite Hfold.
  apply (fold_left_virtual _ (fun nb => (tagj nb < length w)%nat)); [| |exact Hlen].
  - intros acc' nb Hj Hl. rewrite Hl in Hj.
    now apply radial_term_virtual.
  - unfold tags_in_range in Hr. eapply Forall_impl; [exact Hr|].
    intros nb [Hj _]. exact Hj.
Qed.

Lemma angular_pairs_virtual (dEdG_s : R) (p : list R) (nbs : list Neighbour)
      (acc : Forces) :
  tags_in_range (length w) nbs -> length w = length (forces acc) ->
  let step := fun acc nb => fold_left (angular_term m_pi pow dEdG_s p nb) (triplets nb) acc in
  virtual w i (fold_left step nbs acc) =
  virtual w i acc
  + accu (map (fun nb =>
                 accu (map (fun t =>
                   let dG := dG5dR m_pi pow (c0 (drij nb)) (c1 (drij nb)) (c2 (drij nb))
                                   (c0 (drik t)) (c1 (drik t)) (c2 (drik t))
                                   (Rij nb) (Rik t) (cosTheta t)
                                   (p !!! 0%nat) (p !!! 1%nat) (p !!! 2%nat) (p !!! 3%nat) in
                   - dEdG_s * (dot (fst dG) (V3_sub (w !!! tagj nb) (w !!! i))
                               + dot (snd dG) (V3_sub (w !!! tagk t) (w !!! i))))
                   (triplets nb))) nbs) /\
  length (forces (fold_left step nbs acc)) = length (forces acc).
Proof.
  intros Hr Hlen step.
  apply (fold_left_virtual step
           (fun nb => (tagj nb < length w)%nat /\
                      Forall (fun t => (tagk t < length w)%nat) (triplets nb)));
    [|exact Hr|exact Hlen].
  intros acc' nb [Hj Hts] Hl. unfold step.
  apply (fold_left_virtual _ (fun t => (tagk t < length w)%nat)); [|exact Hts|exact Hl].
  intros acc'' t Ht Hl''. rewrite Hl'' in Hj, Ht.
  now apply angular_term_virtual.
Qed.

End VirtualWork.

Section CollectedSums.

Variable m_pi : R.
Variable pow : R -> R -> R.
Variable NEIGHMASK : Z.
Variable sty : Style.
Variable x : list V3.
Variable xi : V3.

Lemma pairs_sum (phi : nat -> V3 -> R -> R) (js : list Z) :
  forall input,
    accu (map (fun nb => phi (tagj nb) (drij nb) (Rij nb))
              (fst (collect_pairs m_pi pow NEIGHMASK sty x xi js input))) =
    near_sum NEIGHMASK sty x xi
      (fun jz => phi (mask NEIGHMASK jz) (separation NEIGHMASK x xi jz)
                     (sqrt (rsq (separation NEIGHMASK x xi jz)))) js.
Proof.
  induction js as [|jz js IH]; intros input; simpl; [reflexivity|].
  destruct (Rge_dec _ _); [apply IH|].
  match goal with
  | |- context [collect_triplets _ _ _ _ _ _ ?j ?d ?r js ?inp] =>
      destruct (collect_triplets m_pi pow NEIGHMASK sty x xi j d r js inp)
        as [ts out1]
  end.
  specialize (IH out1).
  destruct (collect_pairs m_pi pow NEIGHMASK sty x xi js out1) as [ps out2].
  simpl in *. now rewrite IH.
Qed.

Lemma triplets_sum (psi : nat -> V3 -> R -> R -> R) (j : nat) (delj : V3) (rij : R)
      (ks : list Z) :
  forall input,
    accu (map (fun t => psi (tagk t) (drik t) (Rik t) (cosTheta t))
              (fst (collect_triplets m_pi pow NEIGHMASK sty x xi j delj rij ks input))) =
    near_sum NEIGHMASK sty x xi
      (fun kz => psi (mask NEIGHMASK kz) (separation NEIGHMASK x xi kz)
                     (sqrt (rsq (separation NEIGHMASK x xi kz)))
                     (dot delj (separation NEIGHMASK x xi kz)
                      / (rij * sqrt (rsq (separation NEIGHMASK x xi kz))))) ks.
Proof.
  induction ks as [|kz ks IH]; intros input; simpl; [reflexivity|].
  destruct (Rge_dec _ _); [apply IH|].
  match goal with
  | |- context [collect_triplets _ _ _ _ _ _ j delj rij ks ?inp] =>
      specialize (IH inp);
      destruct (collect_triplets m_pi pow NEIGHMASK sty x xi j delj rij ks inp)
        as [ts out]
  end.
  simpl in *. now rewrite IH.
Qed.

Lemma pair_triplets_sum (psi : nat -> V3 -> R -> nat -> V3 -> R -> R -> R)
      (js : list Z) :
  forall input,
    accu (map (fun nb =>
                 accu (map (fun t => psi (tagj nb) (drij nb) (Rij nb)
                                         (tagk t) (drik t) (Rik t) (cosTheta t))
                           (triplets nb)))
              (fst (collect_pairs m_pi pow NEIGHMASK sty x xi js input))) =
    near_pair_sum NEIGHMASK sty x xi
      (fun jz kz =>
         psi (mask NEIGHMASK jz) (separation NEIGHMASK x xi jz)
             (sqrt (rsq (separation NEIGHMASK x xi jz)))
             (mask NEIGHMASK kz) (separation NEIGHMASK x xi kz)
             (sqrt (rsq (separation NEIGHMASK x xi kz)))
             (dot (separation NEIGHMASK x xi jz) (separation NEIGHMASK x xi kz)
              / (sqrt (rsq (separation NEIGHMASK x xi jz))
                 * sqrt (rsq (separation NEIGHMASK x xi kz))))) js.
Proof.
  induction js as [|jz js IH]; intros input; simpl; [reflexivity|].
  destruct (Rge_dec _ _); [apply IH|].
  match goal with
  | |- context [collect_triplets _ _ _ _ _ _ ?j ?d ?r js ?inp] =>
      pose proof (triplets_sum (psi j d r) j d r js inp) as Ht;
      destruct (collect_triplets m_pi pow NEIGHMASK sty x xi j d r js inp)
        as [ts out1]
  end.
  specialize (IH out1).
  destruct (collect_pairs m_pi pow NEIGHMASK sty x xi js out1) as [ps out2].
  simpl in *. rewrite IH, Ht. reflexivity.
Qed.

Lemma angular_forces_all (dEdG_s : R) (p : list R) (js : list Z) (input : row)
      (acc : Forces) :
  let nbs := fst (collect_pairs m_pi pow NEIGHMASK sty x xi js input) in
  angular_forces m_pi pow dEdG_s p nbs acc =
  fold_left (fun acc nb => fold_left (angular_term m_pi pow dEdG_s p nb) (triplets nb) acc)
            nbs acc.
Proof.
  intros nbs. unfold angular_forces.
  assert (forall L : list Neighbour,
            L = [] \/ exists front lastnb, L = front ++ [lastnb]) as Hcase.
  { intros L. induction L using rev_ind; [left; reflexivity|right; eauto]. }
  destruct (Hcase nbs) as [Hnil|(front & lastnb & Hsplit)].
  - rewrite Hnil. reflexivity.
  - rewrite Hsplit, length_app. simpl.
    replace (length front + 1 - 1)%nat with (length front) by lia.
    rewrite firstn_app, firstn_all, Nat.sub_diag. simpl.
    rewrite app_nil_r, fold_left_app. simpl.
    now rewrite (last_pair_alone m_pi pow NEIGHMASK sty x xi js input lastnb front Hsplit).
Qed.

Lemma accu_map_seq (g : nat -> R) (n : nat) :
  accu (map g (seq 0 n)) = big_sum n g.
Proof.
  induction n as [|n IH]; [reflexivity|].
  rewrite seq_S, map_app. simpl. rewrite <- IH.
  generalize (map g (seq 0 n)). intros l. induction l as [|a l IHl]; simpl; [ring|].
  rewrite IHl. ring.
Qed.

End CollectedSums.

Section ForceSide.

Variable m_pi : R.
Variable pow : R -> R -> R.
Variable NEIGHMASK : Z.
Variable sty : Style.
Variable x : list V3.
Variable xi : V3.
Variable w : list V3.
Variable i : nat.

Lemma symmetry_forces_virtual (dEdG : row) (js : list Z) (input : row) (acc : Forces) :
  Forall (fun jz => (mask NEIGHMASK jz < length w)%nat) js ->
  length w = length (forces acc) ->
  let nbs := fst (collect_pairs m_pi pow NEIGHMASK sty x xi js input) in
  virtual w i (symmetry_forces m_pi pow sty dEdG nbs acc) =
  virtual w i acc
  + big_sum (m_numberOfSymmFunc sty)
      (fun s => - nth s dEdG 0 * entry_rate m_pi pow NEIGHMASK sty x xi w i js s) /\
  length (forces (symmetry_forces m_pi pow sty dEdG nbs acc)) = length (forces acc).
Proof.
  intros Hjs Hlen nbs.
  pose proof (collect_pairs_tags m_pi pow NEIGHMASK sty x xi (length w) js input Hjs)
    as Hr. fold nbs in Hr.
  rewrite <- accu_map_seq. unfold symmetry_forces.
  apply (fold_left_virtual w i _ (fun _ : nat => True)); [| |exact Hlen].
  - intros acc' s _ Hl. cbv zeta. unfold entry_rate. cbv zeta.
    destruct (Nat.eqb _ 3).
    + destruct (radial_forces_virtual m_pi w i (nth s dEdG 0) (m_parameters sty !!! s)
                  nbs acc' Hr Hl) as [Hv Hl'].
      split; [|exact Hl']. rewrite Hv. f_equal.
      set (p := m_parameters sty !!! s).
      rewrite <- near_sum_scal.
      etransitivity;
        [|exact (pairs_sum m_pi pow NEIGHMASK sty x xi
                   (fun tj dj rj =>
                      - nth s dEdG 0
                      * (nth 0 (dG2dR m_pi [rj] (p !!! 0%nat) (p !!! 1%nat)
                                      (p !!! 2%nat)) 0 / rj
                         * dot dj (V3_sub (w !!! tj) (w !!! i)))) js input)].
      f_equal. apply map_ext. intros nb. unfold Rdiv. ring.
    + unfold nbs. rewrite angular_forces_all.
      destruct (angular_pairs_virtual m_pi pow w i (nth s dEdG 0)
                  (m_parameters sty !!! s) nbs acc' Hr Hl) as [Hv Hl'].
      cbv zeta in Hv, Hl'. fold nbs.
      split; [|exact Hl']. rewrite Hv. f_equal.
      set (p := m_parameters sty !!! s).
      rewrite <- near_pair_sum_scal.
      etransitivity;
        [|exact (pair_triplets_sum m_pi pow NEIGHMASK sty x xi
                   (fun tj dj rj tk dk rk c =>
                      - nth s dEdG 0
                      * (dot (fst (dG5dR m_pi pow (c0 dj) (c1 dj) (c2 dj)
                                         (c0 dk) (c1 dk) (c2 dk) rj rk c
                                         (p !!! 0%nat) (p !!! 1%nat)
                                         (p !!! 2%nat) (p !!! 3%nat)))
                             (V3_sub (w !!! tj) (w !!! i))
                         + dot (snd (dG5dR m_pi pow (c0 dj) (c1 dj) (c2 dj)
                                           (c0 dk) (c1 dk) (c2 dk) rj rk c
                                           (p !!! 0%nat) (p !!! 1%nat)
                                           (p !!! 2%nat) (p !!! 3%nat)))
                               (V3_sub (w !!! tk) (w !!! i)))) js input)].
      reflexivity.
  - apply List.Forall_forall. intros; exact I.
Qed.

End ForceSide.

Section EnergySide.

Variable m_pi : R.
Variable pow : R -> R -> R.
Variable NEIGHMASK : Z.

Hypothesis pow_derivable :
  forall x z, 0 < x -> derivable_pt_lim (fun t => pow t z) x (z * pow x (z - 1)).
Hypothesis pow_step : forall x z, 0 < x -> pow x z = pow x (z - 1) * x.

Variable sty : Style.

Lemma shift_inputs_spec (input : row) :
  length (shift_inputs sty input) = length input /\
  forall s,
    nth s (shift_inputs sty input) 0 =
    nth s input 0
    - (if m_shift sty && Nat.ltb s (m_numberOfSymmFunc sty) && Nat.ltb s (length input)
       then nth s (m_allMeans sty) 0 else 0).
Proof.
  unfold shift_inputs. destruct (m_shift sty); simpl;
    [|split; [reflexivity|intros; ring]].
  induction (m_numberOfSymmFunc sty) as [|n [IHlen IH]].
  - simpl. split; [reflexivity|]. intros s. ring.
  - rewrite seq_S, fold_left_app. simpl.
    set (inp := fold_left _ (seq 0 n) input) in *.
    split; [now rewrite length_insert|]. intros s.
    rewrite nth_insert_any, IHlen, !IH.
    destruct (Nat.eqb_spec s n) as [->|Hne]; simpl.
    + rewrite Nat.ltb_irrefl. simpl.
      replace (n <? S n)%nat with true by (symmetry; apply Nat.ltb_lt; lia).
      destruct (Nat.ltb_spec n (length input)); simpl; ring.
    + replace (s <? S n)%nat with (s <? n)%nat; [reflexivity|].
      destruct (Nat.ltb_spec s n), (Nat.ltb_spec s (S n)); try reflexivity; lia.
Qed.

Lemma G2_derivable_inside (r eta Rc Rs : R) :
  r < Rc ->
  derivable_pt_lim (fun t => G2 m_pi t eta Rc Rs) r
                   (nth 0 (dG2dR m_pi [r] eta Rc Rs) 0).
Proof.
  intros Hr.
  apply (derivable_pt_lim_locally_ext
           (fun t => exp (- eta * (t - Rs) * (t - Rs)) *
                     (0.5 * (cos (m_pi * t / Rc) + 1))) _ r (r - 1) Rc); [lra| |].
  - intros z Hz. unfold G2, Fc. destruct (Rlt_dec z Rc); [reflexivity|lra].
  - apply G2_inside_derivable.
    rewrite (dG2dR_entry m_pi [r] eta Rc Rs 0) by (simpl; lia). reflexivity.
Qed.

Lemma G2_path (d u : V3) (p : list R) :
  0 < rsq d -> sqrt (rsq d) < p !!! 1%nat ->
  derivable_pt_lim
    (fun t => G2_of m_pi (sqrt (rsq (V3_add d (V3_scale t u)))) p) 0
    (nth 0 (dG2dR m_pi [sqrt (rsq d)] (p !!! 0%nat) (p !!! 1%nat) (p !!! 2%nat)) 0
     / sqrt (rsq d) * dot d u).
Proof.
  intros Hpos Hin. unfold G2_of.
  pose proof (sqrt_lt_R0 _ Hpos) as Hr.
  eapply dl_eq.
  - apply (dl_comp (fun t => sqrt (rsq (V3_add d (V3_scale t u))))
                   (fun r => G2 m_pi r (p !!! 0%nat) (p !!! 1%nat) (p !!! 2%nat))).
    + now apply norm_path.
    + rewrite path_start. now apply G2_derivable_inside.
  - field. lra.
Qed.

Variable atoms : Atoms.
Variable w : list V3.
Variable i : nat.

Hypothesis w_length : length w = length (atom_x atoms).
Hypothesis i_inside : (i < length (atom_x atoms))%nat.
Hypothesis js_inside :
  Forall (fun jz => (mask NEIGHMASK jz < length (atom_x atoms))%nat)
         (firstneigh atoms !!! i).

Lemma separation_displaced (t : R) (jz : Z) :
  (mask NEIGHMASK jz < length (atom_x atoms))%nat ->
  separation NEIGHMASK (atom_x (displaced w t atoms))
             (atom_x (displaced w t atoms) !!! i) jz =
  V3_add (separation NEIGHMASK (atom_x atoms) (atom_x atoms !!! i) jz)
         (V3_scale t (drift NEIGHMASK w i jz)).
Proof.
  intros Hj. unfold separation, drift, displaced. simpl.
  now apply displaced_difference.
Qed.

Lemma descriptor_start : 
  descriptor m_pi pow NEIGHMASK sty (displaced w 0 atoms) i =
  descriptor m_pi pow NEIGHMASK sty atoms i.
Proof.
  unfold descriptor. rewrite displaced_start by exact w_length. reflexivity.
Qed.

Lemma descriptor_length (a : Atoms) :
  length (descriptor m_pi pow NEIGHMASK sty a i) = m_numberOfSymmFunc sty.
Proof.
  unfold descriptor.
  destruct (collect_pairs_input m_pi pow NEIGHMASK sty (atom_x a) (atom_x a !!! i)
              (firstneigh a !!! i) (repeat 0 (m_numberOfSymmFunc sty))) as [Hlen _].
  now rewrite Hlen, repeat_length.
Qed.

(** The descriptor of the moved system, while no list entry crosses the
    cutoff sphere. *)
Lemma descriptor_along_path (t : R) (s : nat) :
  Forall (fun jz =>
            rsq (V3_add (separation NEIGHMASK (atom_x atoms) (atom_x atoms !!! i) jz)
                        (V3_scale t (drift NEIGHMASK w i jz)))
            >= cutoff sty * cutoff sty <->
            rsq (separation NEIGHMASK (atom_x atoms) (atom_x atoms !!! i) jz)
            >= cutoff sty * cutoff sty) (firstneigh atoms !!! i) ->
  (s < m_numberOfSymmFunc sty)%nat ->
  let p := m_parameters sty !!! s in
  nth s (descriptor m_pi pow NEIGHMASK sty (displaced w t atoms) i) 0 =
  if Nat.eqb (length p) 3
  then near_sum NEIGHMASK sty (atom_x atoms) (atom_x atoms !!! i)
         (fun jz =>
            G2_of m_pi
              (sqrt (rsq (V3_add (separation NEIGHMASK (atom_x atoms) (atom_x atoms !!! i) jz)
                                 (V3_scale t (drift NEIGHMASK w i jz))))) p)
         (firstneigh atoms !!! i)
  else if Nat.eqb (length p) 4
       then near_pair_sum NEIGHMASK sty (atom_x atoms) (atom_x atoms !!! i)
              (fun jz kz =>
                 G5_at m_pi pow
                   (V3_add (separation NEIGHMASK (atom_x atoms) (atom_x atoms !!! i) jz)
                           (V3_scale t (drift NEIGHMASK w i jz)))
                   (V3_add (separation NEIGHMASK (atom_x atoms) (atom_x atoms !!! i) kz)
                           (V3_scale t (drift NEIGHMASK w i kz)))
                   (p !!! 0%nat) (p !!! 1%nat) (p !!! 2%nat) (p !!! 3%nat))
              (firstneigh atoms !!! i)
       else 0.
Proof.
  intros Hstable Hs p. unfold descriptor.
  change (firstneigh (displaced w t atoms)) with (firstneigh atoms).
  set (x' := atom_x (displaced w t atoms)).
  destruct (collect_pairs_input m_pi pow NEIGHMASK sty x' (x' !!! i)
              (firstneigh atoms !!! i) (repeat 0 (m_numberOfSymmFunc sty)))
    as [_ Hnth].
  rewrite Hnth. unfold entry_of_arity. rewrite repeat_length, nth_repeat. fold p.
  replace (s <? m_numberOfSymmFunc sty)%nat with true
    by (symmetry; apply Nat.ltb_lt; exact Hs).
  simpl andb.
  assert (Forall (fun jz =>
                    beyond_cutoff NEIGHMASK sty x' (x' !!! i) jz <->
                    beyond_cutoff NEIGHMASK sty (atom_x atoms) (atom_x atoms !!! i) jz)
                 (firstneigh atoms !!! i)) as Htests.
  { rewrite List.Forall_forall in Hstable, js_inside. apply List.Forall_forall.
    intros jz Hin. unfold beyond_cutoff.
    change (V3_sub (x' !!! mask NEIGHMASK jz) (x' !!! i))
      with (separation NEIGHMASK x' (x' !!! i) jz).
    unfold x'. rewrite separation_displaced by (now apply js_inside).
    now apply Hstable. }
  destruct (Nat.eqb_spec (length p) 3) as [H3|H3].
  - rewrite H3. simpl Nat.eqb. cbv iota. rewrite Rplus_0_l, Rplus_0_r.
    apply near_sum_change.
    rewrite List.Forall_forall in Htests, js_inside. apply List.Forall_forall.
    intros jz Hin. split; [now apply Htests|].
    unfold radial_part, neighbour_distance.
    change (V3_sub (x' !!! mask NEIGHMASK jz) (x' !!! i))
      with (separation NEIGHMASK x' (x' !!! i) jz).
    unfold x'. rewrite separation_displaced by (now apply js_inside). reflexivity.
  - destruct (Nat.eqb (length p) 4); [|ring].
    rewrite !Rplus_0_l. symmetry. apply near_pair_sum_change.
    rewrite List.Forall_forall in Htests, js_inside. apply List.Forall_forall.
    intros jz Hin. split; [symmetry; now apply Htests|].
    apply List.Forall_forall. intros kz Hkin.
    unfold angular_part, neighbour_cos, neighbour_distance, G5_of, G5_at.
    change (V3_sub (x' !!! mask NEIGHMASK jz) (x' !!! i))
      with (separation NEIGHMASK x' (x' !!! i) jz).
    change (V3_sub (x' !!! mask NEIGHMASK kz) (x' !!! i))
      with (separation NEIGHMASK x' (x' !!! i) kz).
    unfold x'. rewrite !separation_displaced by (now apply js_inside). reflexivity.
Qed.

Lemma ForallOrdPairs_In {A : Type} (P Q : A -> A -> Prop) (l : list A) :
  (forall a b, In a l -> In b l -> P a b -> Q a b) ->
  ForallOrdPairs P l -> ForallOrdPairs Q l.
Proof.
  intros Himp H. induction H as [|a l Ha _ IH]; constructor.
  - rewrite List.Forall_forall in Ha. apply List.Forall_forall.
    intros b Hb. apply Himp; [now left|now right|now apply Ha].
  - apply IH. intros b c Hb Hc. apply Himp; now right.
Qed.

(** Each entry of the descriptor changes at the rate that the force loop
    assumes for it. *)
Lemma entry_derivable (s : nat) :
  regular_neighbours NEIGHMASK sty (atom_x atoms) (atom_x atoms !!! i)
                     (firstneigh atoms !!! i) ->
  regular_record NEIGHMASK sty (atom_x atoms) (atom_x atoms !!! i)
                 (m_parameters sty !!! s) (firstneigh atoms !!! i) ->
  (s < m_numberOfSymmFunc sty)%nat ->
  derivable_pt_lim
    (fun t => nth s (shift_inputs sty
                       (descriptor m_pi pow NEIGHMASK sty (displaced w t atoms) i)) 0)
    0
    (entry_rate m_pi pow NEIGHMASK sty (atom_x atoms) (atom_x atoms !!! i) w i
                (firstneigh atoms !!! i) s).
Proof.
  intros Hreg Hrec Hs.
  set (xi := atom_x atoms !!! i) in *. set (x := atom_x atoms) in *.
  set (js := firstneigh atoms !!! i) in *. set (p := m_parameters sty !!! s) in *.
  destruct (tests_stable (separation NEIGHMASK x xi) (drift NEIGHMASK w i)
              (cutoff sty * cutoff sty) js) as (delta & Hdelta & Hstable).
  { eapply Forall_impl; [exact Hreg|]. intros jz [Hne _]. exact Hne. }
  set (shift := if m_shift sty && Nat.ltb s (m_numberOfSymmFunc sty)
                   && Nat.ltb s (m_numberOfSymmFunc sty)
                then nth s (m_allMeans sty) 0 else 0).
  set (F := fun t : R =>
              if Nat.eqb (length p) 3
              then near_sum NEIGHMASK sty x xi
                     (fun jz =>
                        G2_of m_pi
                          (sqrt (rsq (V3_add (separation NEIGHMASK x xi jz)
                                             (V3_scale t (drift NEIGHMASK w i jz))))) p) js
              else if Nat.eqb (length p) 4
                   then near_pair_sum NEIGHMASK sty x xi
                          (fun jz kz =>
                             G5_at m_pi pow
                               (V3_add (separation NEIGHMASK x xi jz)
                                       (V3_scale t (drift NEIGHMASK w i jz)))
                               (V3_add (separation NEIGHMASK x xi kz)
                                       (V3_scale t (drift NEIGHMASK w i kz)))
                               (p !!! 0%nat) (p !!! 1%nat) (p !!! 2%nat) (p !!! 3%nat)) js
                   else 0).
  apply (derivable_pt_lim_locally_ext (fun t => F t - shift) _ 0 (- delta) delta);
    [lra| |].
  { intros t Ht.
    destruct (shift_inputs_spec
                (descriptor m_pi pow NEIGHMASK sty (displaced w t atoms) i)) as [_ ->].
    rewrite descriptor_length. fold shift.
    rewrite descriptor_along_path; [reflexivity| |exact Hs].
    apply Hstable. apply Rabs_def1; lra. }
  apply (dl_eq _ _ (entry_rate m_pi pow NEIGHMASK sty x xi w i js s + - 0)); [|ring].
  apply dl_plus; [|apply (derivable_pt_lim_opp (fun _ => shift)), dl_const].
  unfold F, entry_rate. cbv zeta. fold p.
  unfold regular_neighbours in Hreg. fold x xi js in Hreg.
  destruct Hrec as [[H3 Hin]|(H4 & Hoff & Hcos)].
  - rewrite H3. simpl Nat.eqb. cbv iota.
    apply (near_sum_derivable NEIGHMASK sty x xi
             (fun t jz =>
                G2_of m_pi
                  (sqrt (rsq (V3_add (separation NEIGHMASK x xi jz)
                                     (V3_scale t (drift NEIGHMASK w i jz))))) p)).
    rewrite List.Forall_forall in Hreg, Hin. apply List.Forall_forall.
    intros jz Hjz Hnear. unfold radial_rate. cbv zeta.
    apply G2_path; [now apply Hreg|now apply Hin].
  - rewrite H4. simpl Nat.eqb. cbv iota.
    apply (near_pair_sum_derivable NEIGHMASK sty x xi
             (fun t jz kz =>
                G5_at m_pi pow
                  (V3_add (separation NEIGHMASK x xi jz)
                          (V3_scale t (drift NEIGHMASK w i jz)))
                  (V3_add (separation NEIGHMASK x xi kz)
                          (V3_scale t (drift NEIGHMASK w i kz)))
                  (p !!! 0%nat) (p !!! 1%nat) (p !!! 2%nat) (p !!! 3%nat))).
    rewrite List.Forall_forall in Hreg, Hoff.
    eapply ForallOrdPairs_In; [|exact Hcos].
    intros jz kz Hjz Hkz Hpos Hnj Hnk. unfold angular_rate. cbv zeta.
    apply (G5_at_derivable m_pi pow pow_derivable pow_step).
    + now apply Hreg.
    + now apply Hreg.
    + now apply Hoff.
    + now apply Hoff.
    + now apply Hpos.
Qed.

Lemma big_sum_negated (n : nat) (a e : nat -> R) :
  big_sum n (fun s => - a s * e s) = - big_sum n (fun k => e k * a k).
Proof. induction n as [|n IH]; simpl; [ring|]. rewrite IH. ring. Qed.

(** The forces that one anchor adds are minus the gradient of the energy
    it adds: along a motion with velocities [w], the energy
    [network(inputVector)] of [i] changes at minus the rate at which the
    forces added by the iteration of [i] do work. *)
Lemma anchor_forces_gradient (sim sim' : Sim) (dims : nat -> nat) :
  well_formed (net sim) dims -> dims 0%nat = m_numberOfSymmFunc sty ->
  length (atom_f sim) = length (atom_x atoms) ->
  regular_neighbours NEIGHMASK sty (atom_x atoms) (atom_x atoms !!! i)
                     (firstneigh atoms !!! i) ->
  (forall s, (s < m_numberOfSymmFunc sty)%nat ->
     regular_record NEIGHMASK sty (atom_x atoms) (atom_x atoms !!! i)
                    (m_parameters sty !!! s) (firstneigh atoms !!! i)) ->
  compute_anchor m_pi pow NEIGHMASK sty atoms sim i = Some sim' ->
  derivable_pt_lim
    (fun t => anchor_energy m_pi pow NEIGHMASK sty (displaced w t atoms) sim i) 0
    (power w (atom_f sim) - power w (atom_f sim')) /\
  eng_vdwl sim' = eng_vdwl sim + anchor_energy m_pi pow NEIGHMASK sty atoms sim i.
Proof.
  intros Hwf Hd0 Hflen Hreg Hrec. rewrite compute_anchor_unfold.
  destruct (Nat.eqb _ 0); [discriminate|]. cbv zeta.
  set (nbs := fst (collect_pairs _ _ _ _ _ _ _ _)).
  set (inp := shift_inputs sty (descriptor m_pi pow NEIGHMASK sty atoms i)).
  set (dEdG := fst (backPropagation (snd (network (net sim) inp)))).
  intros H.
  pose proof (f_equal (fun o => match o with Some s => s | None => sim' end) H) as H'.
  cbv beta iota in H'. subst sim'. clear H. cbn [atom_f eng_vdwl].
  split; [|reflexivity].
  assert (length w = length (atom_f sim)) as Hwf_len by congruence.
  destruct (symmetry_forces_virtual m_pi pow NEIGHMASK sty (atom_x atoms)
              (atom_x atoms !!! i) w i dEdG (firstneigh atoms !!! i)
              (repeat 0 (m_numberOfSymmFunc sty))
              (mkForces V3_zero V3_zero V3_zero (atom_f sim)))
    as [Hv Hl].
  { rewrite w_length. exact js_inside. }
  { exact Hwf_len. }
  fold nbs in Hv, Hl.
  set (acc := symmetry_forces m_pi pow sty dEdG nbs _) in *.
  simpl forces in Hl.
  assert (power w (add_force (add_force (forces acc) i (V3_add (f3j acc) (f3k acc)))
                             i (f2 acc)) = virtual w i acc) as Hfinal.
  { rewrite !power_add_force by (rewrite ?length_add_force; lia).
    unfold virtual, dot. simpl. ring. }
  rewrite Hfinal, Hv. unfold virtual at 1. simpl forces. simpl f2. simpl f3j.
  simpl f3k.
  rewrite big_sum_negated.
  eapply dl_eq.
  - unfold anchor_energy.
    apply (network_along_path (net sim) dims
             (fun t => shift_inputs sty
                         (descriptor m_pi pow NEIGHMASK sty (displaced w t atoms) i))
             (entry_rate m_pi pow NEIGHMASK sty (atom_x atoms) (atom_x atoms !!! i) w i
                         (firstneigh atoms !!! i)) 0 Hwf).
    + intros t. destruct (shift_inputs_spec
                            (descriptor m_pi pow NEIGHMASK sty (displaced w t atoms) i))
        as [-> _].
      now rewrite descriptor_length.
    + intros k Hk. rewrite Hd0 in Hk. apply entry_derivable; auto.
  - cbv beta. rewrite descriptor_start, Hd0. fold inp dEdG.
    unfold dot. simpl. ring.
Qed.

End EnergySide.

Lemma compute_anchor_completes (m_pi : R) (pow : R -> R -> R) (NEIGHMASK : Z)
      (sty : Style) (atoms : Atoms) (sim : Sim) (i : nat) :
  firstneigh atoms !!! i <> [] ->
  compute_anchor m_pi pow NEIGHMASK sty atoms sim i =
  Some (default sim (compute_anchor m_pi pow NEIGHMASK sty atoms sim i)).
Proof.
  intros Hne.
  destruct (compute_anchor m_pi pow NEIGHMASK sty atoms sim i) eqn:Hrun;
    [reflexivity|].
  now apply compute_anchor_none in Hrun.
Qed.

Lemma three_atoms_separations (jz : Z) :
  jz = 1%Z \/ jz = 2%Z ->
  rsq (separation 1073741823 (atom_x (three_atoms [1%Z; 2%Z]))
                  (atom_x (three_atoms [1%Z; 2%Z]) !!! 0%nat) jz) = 1.
Proof. intros [->| ->]; unfold separation, rsq; simpl; ring. Qed.


Section WholeCall.

Variable m_pi : R.
Variable pow : R -> R -> R.
Variable NEIGHMASK : Z.

Hypothesis pow_derivable :
  forall x z, 0 < x -> derivable_pt_lim (fun t => pow t z) x (z * pow x (z - 1)).
Hypothesis pow_step : forall x z, 0 < x -> pow x z = pow x (z - 1) * x.

Variable sty : Style.
Variable atoms : Atoms.
Variable w : list V3.
Variable dims : nat -> nat.

Lemma anchor_energy_spec (a : Atoms) (sim : Sim) (i : nat) :
  caches_sized (net sim) ->
  anchor_energy m_pi pow NEIGHMASK sty a sim i =
  network_spec (m_nLayers (net sim)) (m_weights (net sim)) (m_biases (net sim))
               (shift_inputs sty (descriptor m_pi pow NEIGHMASK sty a i)).
Proof.
  intros Hc. unfold anchor_energy.
  now destruct (network_state (net sim) (shift_inputs sty
                  (descriptor m_pi pow NEIGHMASK sty a i)) Hc) as (-> & _).
Qed.

(** What one anchor must satisfy for its energy to be differentiable. *)
Lemma compute_loop_gradient (anchors : list nat) :
  Forall (fun i =>
            (i < length (atom_x atoms))%nat /\
            Forall (fun jz => (mask NEIGHMASK jz < length (atom_x atoms))%nat)
                   (firstneigh atoms !!! i) /\
            regular_neighbours NEIGHMASK sty (atom_x atoms) (atom_x atoms !!! i)
                               (firstneigh atoms !!! i) /\
            forall s, (s < m_numberOfSymmFunc sty)%nat ->
              regular_record NEIGHMASK sty (atom_x atoms) (atom_x atoms !!! i)
                             (m_parameters sty !!! s) (firstneigh atoms !!! i))
         anchors ->
  length w = length (atom_x atoms) ->
  dims 0%nat = m_numberOfSymmFunc sty ->
  forall sim sim',
    well_formed (net sim) dims ->
    length (atom_f sim) = length (atom_x atoms) ->
    compute_loop m_pi pow NEIGHMASK sty atoms anchors sim = Some sim' ->
    derivable_pt_lim
      (fun t => accu (map (fun i => anchor_energy m_pi pow NEIGHMASK sty
                                      (displaced w t atoms) sim i) anchors)) 0
      (power w (atom_f sim) - power w (atom_f sim')).
Proof.
  intros Hall Hw Hd0.
  induction Hall as [|i anchors (Hi & Hjs & Hreg & Hrec) _ IH];
    intros sim sim' Hwf Hf; simpl.
  - intros [= <-]. apply (dl_eq _ _ 0); [apply dl_const|ring].
  - destruct (compute_anchor m_pi pow NEIGHMASK sty atoms sim i) as [sim1|] eqn:Ha;
      [|discriminate].
    intros Hrest.
    pose proof Hwf as (Hc & Hdims & Hout & Hshape & Hbias & Hwts).
    destruct (compute_anchor_energy m_pi pow NEIGHMASK sty atoms sim sim1 i Hc Ha)
      as (_ & Hc1 & Hn & Hws & Hwt & Hbs & _).
    assert (well_formed (net sim1) dims) as Hwf1.
    { unfold well_formed. rewrite Hn, Hws, Hwt, Hbs.
      split; [exact Hc1|]. split; [exact Hdims|]. split; [exact Hout|].
      split; [exact Hshape|]. split; [exact Hbias|exact Hwts]. }
    assert (length (atom_f sim1) = length (atom_x atoms)) as Hf1.
    { pose proof (compute_anchor_total m_pi pow NEIGHMASK sty atoms sim i) as Ht.
      rewrite Ha, Hf in Ht. now destruct (Ht Hi Hjs) as [_ ->]. }
    apply (dl_eq _ _ ((power w (atom_f sim) - power w (atom_f sim1))
                      + (power w (atom_f sim1) - power w (atom_f sim')))); [|ring].
    apply dl_plus.
    + apply (anchor_forces_gradient m_pi pow NEIGHMASK pow_derivable pow_step sty atoms
               w i Hw Hi Hjs sim sim1 dims Hwf Hd0 Hf Hreg Hrec Ha).
    + apply derivable_pt_lim_ext with
        (f := fun t => accu (map (fun i0 => anchor_energy m_pi pow NEIGHMASK sty
                                              (displaced w t atoms) sim1 i0) anchors)).
      { intros t. f_equal. apply map_ext. intros i0.
        rewrite !anchor_energy_spec by assumption. now rewrite Hn, Hws, Hbs. }
      now apply IH.
Qed.

(** X22. The forces of [compute] are minus the gradient of its energy.
    Let the atoms move with velocities [w].  If for every owned atom no
    entry of its neighbour list sits on the cutoff sphere or on the atom
    itself, every record is a regular radial one (all neighbours within
    the cutoff also within [Rc]) or a regular angular one, the indices are
    in range and the shapes of the network chain, then the energy that
    [compute] leaves in [eng_vdwl] is differentiable along the motion, and
    its rate of change is minus the rate at which the forces added by the
    call do work: [dE/dt = - sum_q (f'[q] - f[q]) . w[q]]. *)
Theorem forces_are_energy_gradient (sim sim' : Sim) :
  well_formed (net sim) dims -> dims 0%nat = m_numberOfSymmFunc sty ->
  length w = length (atom_x atoms) ->
  length (atom_f sim) = length (atom_x atoms) ->
  Forall (fun i =>
            (i < length (atom_x atoms))%nat /\
            Forall (fun jz => (mask NEIGHMASK jz < length (atom_x atoms))%nat)
                   (firstneigh atoms !!! i) /\
            regular_neighbours NEIGHMASK sty (atom_x atoms) (atom_x atoms !!! i)
                               (firstneigh atoms !!! i) /\
            forall s, (s < m_numberOfSymmFunc sty)%nat ->
              regular_record NEIGHMASK sty (atom_x atoms) (atom_x atoms !!! i)
                             (m_parameters sty !!! s) (firstneigh atoms !!! i))
         (ilist atoms) ->
  compute m_pi pow NEIGHMASK sty atoms sim = Some sim' ->
  derivable_pt_lim
    (fun t => eng_vdwl (default sim (compute m_pi pow NEIGHMASK sty
                                             (displaced w t atoms) sim))) 0
    (power w (atom_f sim) - power w (atom_f sim')).
Proof.
  intros Hwf Hd0 Hw Hf Hall Hrun.
  pose proof Hwf as (Hc & _).
  assert (Forall (fun i => firstneigh atoms !!! i <> []) (ilist atoms)) as Hlisted.
  { apply List.Forall_forall. intros i Hin Hempty.
    assert (compute m_pi pow NEIGHMASK sty atoms sim = None) as Hnone.
    { unfold compute.
      replace (compute_loop m_pi pow NEIGHMASK sty atoms (ilist atoms) _) with (@None Sim);
        [reflexivity|].
      symmetry. apply compute_loop_none. apply List.Exists_exists. eauto. }
    congruence. }
  apply derivable_pt_lim_ext with
    (f := fun t => accu (map (fun i => anchor_energy m_pi pow NEIGHMASK sty
                                         (displaced w t atoms)
                                         (mkSim (atom_f sim) 0 (net sim) (myStep sim)) i)
                             (ilist atoms))).
  { intros t. unfold compute.
    change (ilist (displaced w t atoms)) with (ilist atoms).
    destruct (compute_loop m_pi pow NEIGHMASK sty (displaced w t atoms) (ilist atoms)
                (mkSim (atom_f sim) 0 (net sim) (myStep sim))) as [s|] eqn:Hloop.
    - simpl.
      destruct (compute_loop_energy m_pi pow NEIGHMASK sty (displaced w t atoms)
                  (ilist atoms) (mkSim (atom_f sim) 0 (net sim) (myStep sim)) s Hc Hloop)
        as (-> & _).
      simpl. rewrite Rplus_0_l. f_equal. apply map_ext. intros i.
      now rewrite anchor_energy_spec by exact Hc.
    - apply compute_loop_none in Hloop. apply List.Exists_exists in Hloop.
      destruct Hloop as (i & Hin & Hempty). rewrite List.Forall_forall in Hlisted.
      now apply Hlisted in Hin. }
  unfold compute in Hrun.
  destruct (compute_loop m_pi pow NEIGHMASK sty atoms (ilist atoms)
              (mkSim (atom_f sim) 0 (net sim) (myStep sim))) as [s|] eqn:Hloop;
    [|discriminate].
  pose proof (f_equal (fun o => match o with Some r => r | None => sim' end) Hrun) as H'.
  cbv beta iota in H'. subst sim'. cbn [atom_f].
  apply (compute_loop_gradient (ilist atoms) Hall Hw Hd0
           (mkSim (atom_f sim) 0 (net sim) (myStep sim)) s Hwf Hf Hloop).
Qed.

End WholeCall.

Lemma three_atoms_regular :
  let atoms := three_atoms [1%Z; 2%Z] in
  (0 < length (atom_x atoms))%nat /\
  Forall (fun jz => (mask 1073741823 jz < length (atom_x atoms))%nat)
         (firstneigh atoms !!! 0%nat) /\
  regular_neighbours 1073741823 both_kinds (atom_x atoms) (atom_x atoms !!! 0%nat)
                     (firstneigh atoms !!! 0%nat) /\
  forall s, (s < m_numberOfSymmFunc both_kinds)%nat ->
    regular_record 1073741823 both_kinds (atom_x atoms) (atom_x atoms !!! 0%nat)
                   (m_parameters both_kinds !!! s) (firstneigh atoms !!! 0%nat).
Proof.
  intros atoms. subst atoms.
  change (firstneigh (three_atoms [1%Z; 2%Z]) !!! 0%nat) with [1%Z; 2%Z].
  split; [simpl; lia|]. split; [simpl; repeat constructor|]. split.
  - unfold regular_neighbours.
    repeat constructor; try (rewrite three_atoms_separations by auto; simpl; lra).
    all: intros _; rewrite three_atoms_separations by auto; lra.
  - intros s Hs. simpl in Hs.
    assert (forall jz, jz = 1%Z \/ jz = 2%Z ->
              neighbour_distance 1073741823 (atom_x (three_atoms [1%Z; 2%Z]))
                (atom_x (three_atoms [1%Z; 2%Z]) !!! 0%nat) jz = 1) as Hdist.
    { intros jz Hjz. unfold neighbour_distance.
      change (V3_sub _ _) with
        (separation 1073741823 (atom_x (three_atoms [1%Z; 2%Z]))
                    (atom_x (three_atoms [1%Z; 2%Z]) !!! 0%nat) jz).
      rewrite three_atoms_separations by exact Hjz. apply sqrt_1. }
    destruct s as [|[|s]]; [| |lia].
    + left. split; [reflexivity|].
      repeat constructor; intros _; rewrite Hdist by auto; simpl; lra.
    + right. split; [reflexivity|]. split.
      * repeat constructor; intros _; rewrite Hdist by auto; simpl; lra.
      * repeat constructor. intros _ _. unfold neighbour_cos.
        rewrite !Hdist by auto. unfold dot. simpl. lra.
Qed.

Lemma three_atoms_listed :
  Forall (fun i => firstneigh (three_atoms [1%Z; 2%Z]) !!! i <> [])
         (ilist (three_atoms [1%Z; 2%Z])).
Proof. repeat constructor; simpl; discriminate. Qed.

Lemma forces_are_energy_gradient_witness :
  let atoms := three_atoms [1%Z; 2%Z] in
  let w := [V3_zero; mkV3 1 0 0; mkV3 0 0 1] in
  let sim' := default duo_sim (compute PI Rpower 1073741823 both_kinds atoms duo_sim) in
  derivable_pt_lim
    (fun t => eng_vdwl (default duo_sim
                          (compute PI Rpower 1073741823 both_kinds
                                   (displaced w t atoms) duo_sim))) 0
    (power w (atom_f duo_sim) - power w (atom_f sim')).
Proof.
  apply (forces_are_energy_gradient PI Rpower 1073741823 Rpower_derivable Rpower_step
           both_kinds (three_atoms [1%Z; 2%Z]) [V3_zero; mkV3 1 0 0; mkV3 0 0 1]
           duo_dims duo_sim).
  - exact duo_net_well_formed.
  - reflexivity.
  - reflexivity.
  - reflexivity.
  - constructor; [exact three_atoms_regular|constructor].
  - apply compute_completes, three_atoms_listed.
Defined.

(** * The one-sided routines against [dG5dR] *)

Section OneSidedRoutines.

Variable m_pi : R.
Variable pow : R -> R -> R.

Hypothesis pow_step : forall x z, 0 < x -> pow x z = pow x (z - 1) * x.
Hypothesis pow_square : forall x, 0 < x -> pow x 2 = x * x.

(** X23. The routines [dG5dj] and [dG5dk] compute the two arrays of
    [dG5dR].  For an exponent [zeta1] that is a whole number (they convert
    it to [int]), positive distances and [1 + Lambda CosTheta > 0], the
    array of [dG5dj] is the array [dGij] of [dG5dR] and the array of
    [dG5dk] is its [dGik]. *)
Theorem one_sided_routines_agree
        (xj yj zj xk yk zk Rj Rk CosTheta eta Rc zeta1 Lambda : R) :
  IZR (int_cast zeta1) = zeta1 -> 0 < Rj -> 0 < Rk -> 0 < 1 + Lambda * CosTheta ->
  dG5dj m_pi pow xj yj zj xk yk zk Rj Rk CosTheta eta Rc zeta1 Lambda =
  fst (dG5dR m_pi pow xj yj zj xk yk zk Rj Rk CosTheta eta Rc zeta1 Lambda) /\
  dG5dk m_pi pow xj yj zj xk yk zk Rj Rk CosTheta eta Rc zeta1 Lambda =
  snd (dG5dR m_pi pow xj yj zj xk yk zk Rj Rk CosTheta eta Rc zeta1 Lambda).
Proof.
  intros Hz Hj Hk Hpos.
  unfold dG5dj, dG5dk, dG5dR. cbv zeta. simpl fst. simpl snd.
  rewrite opp_IZR, plus_IZR, Hz.
  replace (CosTheta * Lambda + 1) with (1 + Lambda * CosTheta) by ring.
  rewrite !(pow_square _ Hj), !(pow_square _ Hk).
  rewrite (pow_step (1 + Lambda * CosTheta) (zeta1 + 1) Hpos).
  replace (zeta1 + 1 - 1) with zeta1 by ring.
  rewrite (pow_step (1 + Lambda * CosTheta) zeta1 Hpos).
  rewrite (pow_step 2 (1 - zeta1)) by lra.
  replace (1 - zeta1 - 1) with (- zeta1) by ring.
  set (P := pow (1 + Lambda * CosTheta) (zeta1 - 1)).
  set (P2 := pow 2 (- zeta1)).
  set (E := exp (- eta * (Rj * Rj + Rk * Rk))).
  set (Fj := Fc m_pi Rj Rc). set (Fk := Fc m_pi Rk Rc).
  set (Mj := dFcdR m_pi Rj Rc). set (Mk := dFcdR m_pi Rk Rc).
  split; apply V3_eq; simpl; field; lra.
Qed.

End OneSidedRoutines.

Lemma Rpower_square (x : R) : 0 < x -> Rpower x 2 = x * x.
Proof.
  intros Hx. replace 2 with (1 + 1) by ring.
  rewrite Rpower_plus, Rpower_1 by exact Hx. reflexivity.
Qed.

Lemma int_cast_2 : IZR (int_cast 2) = 2.
Proof.
  unfold int_cast. destruct (Rle_dec 0 2) as [_|H]; [|lra].
  rewrite <- (Int_part_spec 2 2); [reflexivity|lra].
Qed.

Lemma one_sided_routines_agree_witness :
  dG5dj PI Rpower 1 0 0 0 1 0 1 1 0 1 3 2 1 =
  fst (dG5dR PI Rpower 1 0 0 0 1 0 1 1 0 1 3 2 1) /\
  dG5dk PI Rpower 1 0 0 0 1 0 1 1 0 1 3 2 1 =
  snd (dG5dR PI Rpower 1 0 0 0 1 0 1 1 0 1 3 2 1).
Proof.
  apply (one_sided_routines_agree PI Rpower Rpower_step Rpower_square
           1 0 0 0 1 0 1 1 0 1 3 2 1); try lra.
  exact int_cast_2.
Defined.

(** * The setup functions *)

Section SetupFunctions.

Import PairNNSetup.

Variable ntypes : nat.
Variable tag_enable : Z.
Variable newton_pair : Z.
Variable numeric : string -> R.
Variable open_graph : string -> option PairNN.GraphFile.
Variable created : nat -> nat -> Z.
Variable unset : R.

Lemma mark_row (i : nat) (len : nat) :
  forall (first : nat) (fl : nat -> nat -> Z) (count : nat),
    let r := fold_left (fun '(fl, count) j => (set_flag fl i j, S count))
                       (seq first len) (fl, count) in
    snd r = (count + len)%nat /\
    forall a b,
      fst r a b =
      if Nat.eqb a i && Nat.leb first b && Nat.ltb b (first + len) then 1%Z else fl a b.
Proof.
  induction len as [|len IH]; intros first fl count; simpl.
  - split; [lia|]. intros a b.
    replace (b <? first + 0)%nat with (b <? first)%nat by (f_equal; lia).
    destruct (Nat.leb_spec first b), (Nat.ltb_spec b first); try lia;
      now rewrite ?andb_false_r.
  - destruct (IH (S first) (set_flag fl i first) (S count)) as [Hc Hf].
    split; [rewrite Hc; lia|]. intros a b. rewrite Hf. unfold set_flag.
    destruct (Nat.eqb_spec a i) as [->|Ha]; cbn [andb]; [|reflexivity].
    destruct (Nat.leb_spec (S first) b), (Nat.ltb_spec b (S first + len)),
             (Nat.leb_spec first b), (Nat.ltb_spec b (first + S len)),
             (Nat.eqb_spec b first); cbn [andb]; try lia; reflexivity.
Qed.

Lemma mark_rows (n m : nat) (flags : nat -> nat -> Z) :
  (m <= n)%nat ->
  let r := fold_left
             (fun acc i =>
                fold_left (fun '(fl, count) j => (set_flag fl i j, S count))
                          (seq i (n + 1 - i)) acc)
             (seq 1 m) (flags, 0%nat) in
  (m <= snd r)%nat /\
  forall a b,
    fst r a b =
    if Nat.leb 1 a && Nat.leb a m && Nat.leb a b && Nat.leb b n then 1%Z
    else flags a b.
Proof.
  induction m as [|m IH]; intros Hm; cbv zeta.
  - cbn [seq fold_left fst snd]. split; [lia|]. intros a b.
    destruct (Nat.leb_spec 1 a), (Nat.leb_spec a 0); cbn [andb]; try lia; reflexivity.
  - specialize (IH ltac:(lia)). cbv zeta in IH. destruct IH as [Hc Hf].
    rewrite seq_S, fold_left_app. cbn [fold_left].
    destruct (fold_left _ (seq 1 m) (flags, 0%nat)) as [fl count].
    cbn [fst snd] in Hc, Hf.
    destruct (mark_row (1 + m) (n + 1 - (1 + m)) (1 + m) fl count) as [Hc' Hf'].
    cbv zeta in Hc', Hf'. split; [rewrite Hc'; lia|].
    intros a b. rewrite Hf', Hf.
    destruct (Nat.eqb_spec a (1 + m)), (Nat.leb_spec (1 + m) b),
             (Nat.ltb_spec b (1 + m + (n + 1 - (1 + m)))), (Nat.leb_spec 1 a),
             (Nat.leb_spec a m), (Nat.leb_spec a (S m)), (Nat.leb_spec a b),
             (Nat.leb_spec b n); cbn [andb]; try lia; reflexivity.
Qed.

Lemma mark_all_spec (flags : nat -> nat -> Z) :
  (ntypes <= snd (mark_all ntypes flags))%nat /\
  (ntypes = 0%nat -> snd (mark_all ntypes flags) = 0%nat) /\
  forall a b,
    fst (mark_all ntypes flags) a b =
    if Nat.leb 1 a && Nat.leb a b && Nat.leb b ntypes then 1%Z else flags a b.
Proof.
  destruct (mark_rows ntypes ntypes flags (Nat.le_refl _)) as [Hc Hf].
  cbv zeta in Hc, Hf. fold (mark_all ntypes flags) in Hc, Hf.
  split; [exact Hc|]. split.
  - intros H0. unfold mark_all. rewrite H0. reflexivity.
  - intros a b. rewrite Hf.
    destruct (Nat.leb_spec 1 a), (Nat.leb_spec a ntypes), (Nat.leb_spec a b),
             (Nat.leb_spec b ntypes); cbn [andb]; try lia; reflexivity.
Qed.

Lemma coeff_completed_types (arg : list string) (p p' : Pair) :
  coeff ntypes numeric open_graph created unset arg p = Done p' -> (1 <= ntypes)%nat.
Proof.
  unfold coeff. cbv zeta.
  destruct (negb _); [discriminate|]. destruct (_ || _); [discriminate|].
  destruct (PairNN.read_file _ _ _) as [log ld|log what]; [|discriminate].
  destruct (mark_all_spec
              (setflag (if allocated p then p else allocate created p)))
    as (_ & Hzero & _).
  destruct (mark_all ntypes _) as [flags count]. cbn [snd] in Hzero.
  destruct (Nat.eqb_spec count 0) as [Hcount|Hcount]; [discriminate|].
  intros _. destruct ntypes; [specialize (Hzero eq_refl); lia|lia].
Qed.

(** X24. What a completed [coeff] leaves.  If [coeff] reaches its last
    line, the command had four words starting with [* *], there is at
    least one atom type, [read_file] read the graph named by the third
    word to its end into the class, the cutoff is the number of the fourth
    word, and [init_one(i,j)] returns that cutoff for every pair of types
    [1 <= i <= j <= ntypes]. *)
Theorem coeff_completed (arg : list string) (p p' : Pair) :
  coeff ntypes numeric open_graph created unset arg p = Done p' ->
  length arg = 4%nat /\
  nth 0 arg EmptyString = "*"%string /\ nth 1 arg EmptyString = "*"%string /\
  (1 <= ntypes)%nat /\
  allocated p' = true /\
  (exists log,
     PairNN.read_file unset (open_graph (nth 2 arg EmptyString)) (loader p) =
     PairNN.Loaded log (loader p') /\ printed p' = printed p ++ log) /\
  cutoff p' = numeric (nth 3 arg EmptyString) /\
  forall i j, (1 <= i)%nat -> (i <= j)%nat -> (j <= ntypes)%nat ->
    init_one i j p' = Done (cutoff p').
Proof.
  unfold coeff. cbv zeta.
  set (p0 := if allocated p then p else allocate created p).
  assert (loader p0 = loader p /\ printed p0 = printed p) as [Hld Hpr].
  { unfold p0. destruct (allocated p); split; reflexivity. }
  destruct (Nat.eqb_spec (length arg) 4) as [Hlen|Hlen]; cbn [negb]; [|discriminate].
  destruct (String.eqb_spec (nth 0 arg EmptyString) "*") as [H0|H0]; cbn [negb orb];
    [|discriminate].
  destruct (String.eqb_spec (nth 1 arg EmptyString) "*") as [H1|H1]; cbn [negb];
    [|discriminate].
  rewrite Hld.
  destruct (PairNN.read_file unset (open_graph (nth 2 arg EmptyString)) (loader p))
    as [log ld|log what]; [|discriminate].
  destruct (mark_all_spec (setflag p0)) as (Hc & Hzero & Hf).
  destruct (mark_all ntypes (setflag p0)) as [flags count]. cbn [fst snd] in *.
  destruct (Nat.eqb_spec count 0) as [Hcount|Hcount]; [discriminate|].
  intros [= <-]. cbn [allocated loader printed cutoff].
  do 3 (split; [assumption|]).
  split; [destruct ntypes; [specialize (Hzero eq_refl); lia|lia]|].
  split; [reflexivity|]. split; [exists log; now rewrite Hpr|].
  split; [reflexivity|].
  intros i j Hi Hij Hj. unfold init_one. cbn [setflag cutoff]. rewrite Hf.
  destruct (Nat.leb_spec 1 i), (Nat.leb_spec i j), (Nat.leb_spec j ntypes);
    try lia. reflexivity.
Qed.

(** X25. What the setup functions refuse.  [settings] stops on any
    argument; [coeff] stops with "Incorrect args for pair coefficients"
    when the command has not four words or does not start with [* *],
    before it looks at the graph file, and it never completes when there
    is no atom type; [init_style] stops without atom IDs and without
    newton pair; [init_one] stops on a pair whose flag is 0. *)
Theorem setup_refusals (arg : list string) (p : Pair) (i j : nat) :
  (arg <> [] -> settings arg p = Stop "Illegal pair_style command") /\
  (length arg <> 4%nat \/ nth 0 arg EmptyString <> "*"%string
   \/ nth 1 arg EmptyString <> "*"%string ->
   coeff ntypes numeric open_graph created unset arg p =
   Stop "Incorrect args for pair coefficients") /\
  (ntypes = 0%nat ->
   forall p', coeff ntypes numeric open_graph created unset arg p <> Done p') /\
  (tag_enable = 0%Z ->
   init_style tag_enable newton_pair = Stop "Pair style NN requires atom IDs") /\
  (tag_enable <> 0%Z -> newton_pair = 0%Z ->
   init_style tag_enable newton_pair = Stop "Pair style NN requires newton pair on") /\
  (setflag p i j = 0%Z -> init_one i j p = Stop "All pair coeffs are not set").
Proof.
  split; [|split; [|split; [|split; [|split]]]].
  - intros Hne. unfold settings. destruct arg; [contradiction|reflexivity].
  - intros Hbad. unfold coeff. cbv zeta.
    destruct (Nat.eqb_spec (length arg) 4) as [Hlen|Hlen]; cbn [negb];
      [|reflexivity].
    destruct (String.eqb_spec (nth 0 arg EmptyString) "*") as [H0|H0];
      cbn [negb orb]; [|reflexivity].
    destruct (String.eqb_spec (nth 1 arg EmptyString) "*") as [H1|H1];
      cbn [negb]; [|reflexivity].
    destruct Hbad as [H|[H|H]]; contradiction.
  - intros Hn p' Hdone.
    pose proof (coeff_completed_types arg p p' Hdone). lia.
  - intros ->. reflexivity.
  - intros Hne ->. unfold init_style.
    destruct (Z.eqb_spec tag_enable 0); [contradiction|reflexivity].
  - intros H. unfold init_one. now rewrite H.
Qed.

End SetupFunctions.

Lemma coeff_completed_witness :
  let run := PairNNSetup.coeff 1 (fun _ => 2.5) (fun _ => Some tiny_graph)
                               (fun _ _ => 0%Z) 0 star_command blank_pair in
  let p' := match run with PairNNSetup.Done a => a | _ => blank_pair end in
  length star_command = 4%nat /\
  nth 0 star_command EmptyString = "*"%string /\
  nth 1 star_command EmptyString = "*"%string /\
  (1 <= 1)%nat /\
  PairNNSetup.allocated p' = true /\
  (exists log,
     PairNN.read_file 0 (Some tiny_graph) (PairNNSetup.loader blank_pair) =
     PairNN.Loaded log (PairNNSetup.loader p') /\
     PairNNSetup.printed p' = PairNNSetup.printed blank_pair ++ log) /\
  PairNNSetup.cutoff p' = 2.5 /\
  forall i j, (1 <= i)%nat -> (i <= j)%nat -> (j <= 1)%nat ->
    PairNNSetup.init_one i j p' = PairNNSetup.Done (PairNNSetup.cutoff p').
Proof.
  apply (coeff_completed 1 (fun _ => 2.5) (fun _ => Some tiny_graph)
           (fun _ _ => 0%Z) 0 star_command blank_pair).
  reflexivity.
Defined.

(** * Entries beyond the cutoff *)

Section FarEntries.

Variable m_pi : R.
Variable pow : R -> R -> R.
Variable NEIGHMASK : Z.
Variable sty : Style.
Variable x : list V3.
Variable xi : V3.

Lemma collect_triplets_filter (j : nat) (delj : V3) (rij : R) (ks : list Z) :
  forall input,
    collect_triplets m_pi pow NEIGHMASK sty x xi j delj rij
                     (List.filter (passes_cutoff NEIGHMASK sty x xi) ks) input =
    collect_triplets m_pi pow NEIGHMASK sty x xi j delj rij ks input.
Proof.
  induction ks as [|kz ks IH]; intros input; [reflexivity|].
  cbn [List.filter]. unfold passes_cutoff at 1.
  destruct (Rge_dec (rsq (V3_sub (x !!! mask NEIGHMASK kz) xi)) _) as [Hfar|Hnear] eqn:E.
  - rewrite IH. cbn [collect_triplets]. now rewrite E.
  - cbn [collect_triplets]. rewrite E. now rewrite IH.
Qed.

Lemma collect_pairs_filter (js : list Z) :
  forall input,
    collect_pairs m_pi pow NEIGHMASK sty x xi
                  (List.filter (passes_cutoff NEIGHMASK sty x xi) js) input =
    collect_pairs m_pi pow NEIGHMASK sty x xi js input.
Proof.
  induction js as [|jz js IH]; intros input; [reflexivity|].
  cbn [List.filter]. unfold passes_cutoff at 1.
  destruct (Rge_dec (rsq (V3_sub (x !!! mask NEIGHMASK jz) xi)) _) as [Hfar|Hnear] eqn:E.
  - rewrite IH. cbn [collect_pairs]. now rewrite E.
  - cbn [collect_pairs]. rewrite E. rewrite collect_triplets_filter.
    destruct (collect_triplets _ _ _ _ _ _ _ _ _ js _) as [ts out1].
    now rewrite IH.
Qed.

End FarEntries.

Section FarEntriesOfAnAnchor.

Variable m_pi : R.
Variable pow : R -> R -> R.
Variable NEIGHMASK : Z.

(** X26. List entries that fail the cutoff test do not matter.  Removing
    them from the neighbour list of an anchor changes nothing in what the
    iteration of the anchor leaves (forces, energy, network caches), as
    long as one entry remains: with none left the constructor
    [Riks(jnum-1)] throws. *)
Theorem far_entries_are_ignored (sty : Style) (atoms atoms' : Atoms) (sim : Sim)
        (i : nat) :
  atom_x atoms' = atom_x atoms ->
  firstneigh atoms' !!! i =
  List.filter (passes_cutoff NEIGHMASK sty (atom_x atoms) (atom_x atoms !!! i))
              (firstneigh atoms !!! i) ->
  firstneigh atoms' !!! i <> [] ->
  compute_anchor m_pi pow NEIGHMASK sty atoms' sim i =
  compute_anchor m_pi pow NEIGHMASK sty atoms sim i.
Proof.
  intros Hx Hlist Hne. rewrite !compute_anchor_unfold. unfold descriptor.
  rewrite Hx, Hlist, !collect_pairs_filter. rewrite <- Hlist.
  destruct (firstneigh atoms' !!! i) as [|jz' js'] eqn:E'; [contradiction|].
  destruct (firstneigh atoms !!! i) as [|jz js] eqn:E.
  - simpl in Hlist. discriminate.
  - reflexivity.
Qed.

End FarEntriesOfAnAnchor.

Lemma far_entries_are_ignored_witness :
  compute_anchor PI Rpower 1073741823 (one_radial 2)
                 (mkAtoms (atom_x lone_owner) [0%nat] [[1%Z]]) idle_sim 0 =
  compute_anchor PI Rpower 1073741823 (one_radial 2) lone_owner idle_sim 0.
Proof.
  apply (far_entries_are_ignored PI Rpower 1073741823 (one_radial 2) lone_owner
           (mkAtoms (atom_x lone_owner) [0%nat] [[1%Z]]) idle_sim 0).
  - reflexivity.
  - simpl. unfold passes_cutoff.
    destruct (Rge_dec _ _) as [H|_]; [unfold rsq in H; simpl in H; lra|].
    destruct (Rge_dec _ _) as [_|H]; [reflexivity|].
    exfalso. apply H. unfold rsq. simpl. lra.
  - simpl. discriminate.
Defined.

(** * The total torque *)

Section Torque.

Variable m_pi : R.
Variable pow : R -> R -> R.
Variable NEIGHMASK : Z.

Lemma torque_add_force (x f : list V3) (p : nat) (v : V3) :
  length x = length f -> (p < length f)%nat ->
  torque x (add_force f p v) = V3_add (torque x f) (cross (x !!! p) v).
Proof.
  unfold torque, add_force. revert x p.
  induction f as [|a f IH]; intros [|b x] [|p] Hlen Hp; simpl in *; try lia.
  - apply V3_eq; simpl; ring.
  - change (<[p:=V3_add ((a :: f) !!! S p) v]> f) with (<[p:=V3_add (f !!! p) v]> f).
    rewrite IH by lia. apply V3_eq; simpl; ring.
Qed.

Lemma collect_triplets_placed (sty : Style) (x : list V3) (xi : V3) (j : nat)
      (delj : V3) (rij : R) (ks : list Z) (input : row) :
  Forall (fun t => drik t = V3_sub (x !!! tagk t) xi)
         (fst (collect_triplets m_pi pow NEIGHMASK sty x xi j delj rij ks input)).
Proof.
  revert input. induction ks as [|kz ks IH]; intros input; simpl; [constructor|].
  destruct (Rge_dec _ _); [apply IH|].
  match goal with
  | |- context [collect_triplets _ _ _ _ _ _ _ _ _ ks ?inp] =>
      specialize (IH inp);
      destruct (collect_triplets m_pi pow NEIGHMASK sty x xi j delj rij ks inp)
        as [ts out]
  end.
  simpl in *. constructor; [reflexivity|exact IH].
Qed.

Lemma collect_pairs_placed (sty : Style) (x : list V3) (xi : V3) (js : list Z)
      (input : row) :
  placed x xi (fst (collect_pairs m_pi pow NEIGHMASK sty x xi js input)).
Proof.
  unfold placed. revert input.
  induction js as [|jz js IH]; intros input; simpl; [constructor|].
  destruct (Rge_dec _ _); [apply IH|].
  match goal with
  | |- context [collect_triplets _ _ _ _ _ _ ?j ?d ?r js ?inp] =>
      pose proof (collect_triplets_placed sty x xi j d r js inp) as Hts;
      destruct (collect_triplets m_pi pow NEIGHMASK sty x xi j d r js inp)
        as [ts out1]
  end.
  specialize (IH out1).
  destruct (collect_pairs m_pi pow NEIGHMASK sty x xi js out1) as [ps out2].
  simpl in *. constructor; [split; [reflexivity|exact Hts]|exact IH].
Qed.

Lemma radial_term_torque (x : list V3) (i : nat) (acc : Forces) (nb : Neighbour)
      (fpair : R) :
  length x = length (forces acc) -> (tagj nb < length (forces acc))%nat ->
  drij nb = V3_sub (x !!! tagj nb) (x !!! i) ->
  torque_balance x i (radial_term acc nb fpair) = torque_balance x i acc /\
  length (forces (radial_term acc nb fpair)) = length (forces acc).
Proof.
  intros Hlen Hj Hd. unfold torque_balance, radial_term. simpl.
  rewrite torque_add_force by assumption. rewrite length_add_force, Hd.
  split; [|reflexivity]. apply V3_eq; simpl; ring.
Qed.

Lemma angular_term_torque (x : list V3) (i : nat) (dEdG_s : R) (p : list R)
      (nb : Neighbour) (acc : Forces) (t : Triplet) :
  length x = length (forces acc) ->
  (tagj nb < length (forces acc))%nat -> (tagk t < length (forces acc))%nat ->
  drij nb = V3_sub (x !!! tagj nb) (x !!! i) ->
  drik t = V3_sub (x !!! tagk t) (x !!! i) ->
  torque_balance x i (angular_term m_pi pow dEdG_s p nb acc t) = torque_balance x i acc /\
  length (forces (angular_term m_pi pow dEdG_s p nb acc t)) = length (forces acc).
Proof.
  intros Hlen Hj Hk Hdj Hdk. unfold torque_balance, angular_term, dG5dR. cbv zeta.
  match goal with
  | |- context [mkV3 (- _ * ?tj - _ * ?cr) _ _] => set (termij := tj); set (crossTerm := cr)
  end.
  match goal with
  | |- context [mkV3 (- c0 (drik t) * ?tk - _ * _) _ _] => set (termik := tk)
  end.
  simpl.
  rewrite !torque_add_force by (rewrite ?length_add_force; assumption).
  rewrite !length_add_force, Hdj, Hdk.
  split; [|reflexivity]. apply V3_eq; simpl; ring.
Qed.

Lemma fold_left_torque {A : Type} (x : list V3) (i : nat)
      (step : Forces -> A -> Forces) (P : A -> Prop) (l : list A) :
  (forall acc a, P a -> length x = length (forces acc) ->
     torque_balance x i (step acc a) = torque_balance x i acc /\
     length (forces (step acc a)) = length (forces acc)) ->
  Forall P l ->
  forall acc, length x = length (forces acc) ->
    torque_balance x i (fold_left step l acc) = torque_balance x i acc /\
    length (forces (fold_left step l acc)) = length (forces acc).
Proof.
  intros Hstep HP. induction HP as [|a l Ha _ IH]; intros acc Hlen; simpl.
  - split; reflexivity.
  - destruct (Hstep acc a Ha Hlen) as [Hb Hl].
    destruct (IH (step acc a)) as [Hb' Hl']; [congruence|].
    split; congruence.
Qed.

Lemma symmetry_forces_torque (sty : Style) (x : list V3) (i : nat) (dEdG : row)
      (nbs : list Neighbour) (acc : Forces) :
  tags_in_range (length x) nbs -> placed x (x !!! i) nbs ->
  length x = length (forces acc) ->
  torque_balance x i (symmetry_forces m_pi pow sty dEdG nbs acc) = torque_balance x i acc /\
  length (forces (symmetry_forces m_pi pow sty dEdG nbs acc)) = length (forces acc).
Proof.
  intros Hr Hp Hlen. unfold symmetry_forces.
  assert (Forall (fun nb =>
                    ((tagj nb < length x)%nat /\
                     Forall (fun t => (tagk t < length x)%nat) (triplets nb)) /\
                    (drij nb = V3_sub (x !!! tagj nb) (x !!! i) /\
                     Forall (fun t => drik t = V3_sub (x !!! tagk t) (x !!! i))
                            (triplets nb))) nbs) as Hall.
  { apply Forall_and; split; assumption. }
  apply (fold_left_torque x i _ (fun _ : nat => True)); [| |exact Hlen].
  - intros acc' s _ Hl. cbv zeta. destruct (Nat.eqb _ 3).
    + unfold radial_forces. cbv zeta.
      apply (fold_left_torque x i _
               (fun q : Neighbour * R =>
                  (tagj (fst q) < length x)%nat /\
                  drij (fst q) = V3_sub (x !!! tagj (fst q)) (x !!! i)));
        [| |exact Hl].
      * intros acc'' [nb fpair] [Hj Hd] Hl''. simpl in Hj, Hd.
        rewrite Hl'' in Hj. now apply radial_term_torque.
      * apply Forall_forall. intros [nb fpair] Hin. simpl.
        apply elem_of_zip_l in Hin. rewrite Forall_forall in Hall.
        destruct (Hall nb Hin) as [[Hj _] [Hd _]]. split; assumption.
    + unfold angular_forces.
      apply (fold_left_torque x i _
               (fun nb =>
                  ((tagj nb < length x)%nat /\
                   Forall (fun t => (tagk t < length x)%nat) (triplets nb)) /\
                  (drij nb = V3_sub (x !!! tagj nb) (x !!! i) /\
                   Forall (fun t => drik t = V3_sub (x !!! tagk t) (x !!! i))
                          (triplets nb)))); [| |exact Hl].
      * intros acc'' nb [[Hj Hts] [Hd Hds]] Hl''.
        apply (fold_left_torque x i _
                 (fun t => (tagk t < length x)%nat /\
                           drik t = V3_sub (x !!! tagk t) (x !!! i)));
          [| |exact Hl''].
        -- intros acc3 t [Hk Hdk] Hl3. rewrite Hl3 in Hj, Hk.
           now apply angular_term_torque.
        -- apply Forall_and; split; assumption.
      * now apply Forall_take.
  - apply List.Forall_forall. intros; exact I.
Qed.

Lemma compute_anchor_torque (sty : Style) (atoms : Atoms) (sim sim' : Sim) (i : nat) :
  length (atom_f sim) = length (atom_x atoms) ->
  (i < length (atom_x atoms))%nat ->
  Forall (fun jz => (mask NEIGHMASK jz < length (atom_x atoms))%nat)
         (firstneigh atoms !!! i) ->
  compute_anchor m_pi pow NEIGHMASK sty atoms sim i = Some sim' ->
  torque (atom_x atoms) (atom_f sim') = torque (atom_x atoms) (atom_f sim) /\
  length (atom_f sim') = length (atom_x atoms).
Proof.
  intros Hf Hi Hjs. rewrite compute_anchor_unfold.
  destruct (Nat.eqb _ 0); [discriminate|]. cbv zeta.
  set (nbs := fst (collect_pairs _ _ _ _ _ _ _ _)).
  set (dEdG := fst (backPropagation _)).
  intros H.
  pose proof (f_equal (fun o => match o with Some s => s | None => sim' end) H) as H'.
  cbv beta iota in H'. subst sim'. clear H. cbn [atom_f].
  destruct (symmetry_forces_torque sty (atom_x atoms) i dEdG nbs
              (mkForces V3_zero V3_zero V3_zero (atom_f sim))) as [Hb Hl].
  { apply collect_pairs_tags. exact Hjs. }
  { apply collect_pairs_placed. }
  { simpl. congruence. }
  set (acc := symmetry_forces _ _ _ _ _ _) in *. simpl forces in Hl.
  rewrite !torque_add_force by (rewrite ?length_add_force; lia).
  rewrite !length_add_force. split; [|congruence].
  unfold torque_balance in Hb. simpl in Hb.
  transitivity (V3_add (torque (atom_x atoms) (forces acc))
                       (cross (atom_x atoms !!! i)
                              (V3_add (f2 acc) (V3_add (f3j acc) (f3k acc)))));
    [apply V3_eq; simpl; ring|].
  rewrite Hb. apply V3_eq; simpl; ring.
Qed.

(** X27. [compute] adds no net torque.  The total torque
    [sum_q x[q] x f[q]] of the force array about the origin is the same
    after a completed call as before: each radial contribution is along
    the line between the two atoms, and the two arrays that [dG5dR] fills
    share their cross term.  Every index used must lie inside the
    arrays. *)
Theorem compute_conserves_total_torque (sty : Style) (atoms : Atoms) (sim sim' : Sim) :
  length (atom_f sim) = length (atom_x atoms) ->
  Forall (fun i => (i < length (atom_x atoms))%nat /\
                   Forall (fun jz => (mask NEIGHMASK jz < length (atom_x atoms))%nat)
                          (firstneigh atoms !!! i)) (ilist atoms) ->
  compute m_pi pow NEIGHMASK sty atoms sim = Some sim' ->
  torque (atom_x atoms) (atom_f sim') = torque (atom_x atoms) (atom_f sim).
Proof.
  intros Hf Hall. unfold compute.
  assert (forall anchors s s',
            Forall (fun i => (i < length (atom_x atoms))%nat /\
                             Forall (fun jz => (mask NEIGHMASK jz < length (atom_x atoms))%nat)
                                    (firstneigh atoms !!! i)) anchors ->
            length (atom_f s) = length (atom_x atoms) ->
            compute_loop m_pi pow NEIGHMASK sty atoms anchors s = Some s' ->
            torque (atom_x atoms) (atom_f s') = torque (atom_x atoms) (atom_f s))
    as Hloop.
  { induction anchors as [|i anchors IH]; intros s s' Hin Hlen; simpl.
    - now intros [= <-].
    - inversion Hin as [|? ? [Hi Hjs] Hrest]; subst.
      destruct (compute_anchor m_pi pow NEIGHMASK sty atoms s i) as [s1|] eqn:Ha;
        [|discriminate].
      intros Hrun.
      destruct (compute_anchor_torque sty atoms s s1 i Hlen Hi Hjs Ha) as [Ht Hl].
      rewrite (IH s1 s' Hrest Hl Hrun). exact Ht. }
  destruct (compute_loop _ _ _ _ _ _ _) as [s|] eqn:Hrun; [|discriminate].
  intros [= <-]. simpl.
  apply (Hloop (ilist atoms) (mkSim (atom_f sim) 0 (net sim) (myStep sim)) s Hall Hf Hrun).
Qed.

End Torque.

Lemma compute_conserves_total_torque_witness :
  let atoms := three_atoms [1%Z; 2%Z] in
  torque (atom_x atoms)
         (atom_f (default duo_sim (compute PI Rpower 1073741823 both_kinds atoms duo_sim)))
  = torque (atom_x atoms) (atom_f duo_sim).
Proof.
  apply (compute_conserves_total_torque PI Rpower 1073741823 both_kinds
           (three_atoms [1%Z; 2%Z]) duo_sim).
  - reflexivity.
  - simpl. repeat constructor.
  - apply compute_completes, three_atoms_listed.
Defined.
